(** * whisper-go: a fixed-size round-robin time-series database

    A shallow embedding of [src/whisper/whisper.go].  Unsigned 32-bit
    integers are [Z] with the wrap-around written out, the database file
    is a list of bytes with a cursor, IEEE-754 values are [spec_float]s of
    the Standard Library, and every Go function that touches the file is a
    function in a small state monad whose computations may also end in a
    Go run-time panic.  The clock is an argument [now] of the functions
    that read it. *)

From Stdlib Require Import String.
From Stdlib Require Import ZArith List Bool Lia Permutation Sorted.
From Stdlib Require Import SpecFloat.
From Stdlib Require Strings.Byte.
Import ListNotations.
Local Open Scope list_scope.
Local Open Scope Z_scope.

(* ================================================================== *)
(** * Machine integers: Go's [uint32] *)

Module U32.

Definition modulus : Z := 2 ^ 32.

Definition wrap (z : Z) : Z := z mod modulus.

Definition add (a b : Z) : Z := wrap (a + b).

Definition sub (a b : Z) : Z := wrap (a - b).

Definition mul (a b : Z) : Z := wrap (a * b).

Definition in_range (z : Z) : Prop := 0 <= z < modulus.

End U32.

(* ================================================================== *)
(** * Go run-time outcomes: a value, or a panic *)

Inductive panic : Type :=
| DivideByZero      (* "integer divide by zero" *)
| IndexOutOfRange.  (* "index out of range" *)

Inductive go (A : Type) : Type :=
| Ret (a : A)
| Panic (p : panic).
Arguments Ret {A} a.
Arguments Panic {A} p.

Definition go_bind {A B} (c : go A) (k : A -> go B) : go B :=
  match c with
  | Ret a => k a
  | Panic p => Panic p
  end.

Notation "x <~ c ;; k" := (go_bind c (fun x => k))
  (at level 61, c at next level, right associativity).

(** Integer division and remainder on [uint32]; Go panics on a zero
    divisor. *)
Definition u32_div (a b : Z) : go Z :=
  if b =? 0 then Panic DivideByZero else Ret (a / b).

Definition u32_rem (a b : Z) : go Z :=
  if b =? 0 then Panic DivideByZero else Ret (a mod b).

(** Go's [error] values, as far as this package makes or meets them. *)
Inductive error : Type :=
| EOF                                  (* io.EOF *)
| ErrUnexpectedEOF                     (* io.ErrUnexpectedEOF *)
| errors_New (msg : string)            (* errors.New(msg) *)
| ErrTooManyPoints (capacity n : Z).   (* the fmt.Sprintf message of writePoints *)

(* ================================================================== *)
(** * IEEE-754 values: Go's [float32] and [float64] *)

Module Float.

Definition float32 := spec_float.
Definition float64 := spec_float.

Definition add64 : float64 -> float64 -> float64 := SFadd 53 1024.
Definition div64 : float64 -> float64 -> float64 := SFdiv 53 1024.
Definition div32 : float32 -> float32 -> float32 := SFdiv 24 128.
Definition ltb : spec_float -> spec_float -> bool := SFltb.

(** Conversions [float64(n)] and [float32(n)] of an integer, rounding to
    nearest even. *)
Definition of_int64 (n : Z) : float64 := binary_normalize 53 1024 n 0 false.
Definition of_int32 (n : Z) : float32 := binary_normalize 24 128 n 0 false.

Definition zero : spec_float := S754_zero false.

(** The bit pattern of a value in a format with [mw] mantissa bits and
    [ew] exponent bits.  [spec_float] does not track NaN payloads: every
    NaN is written as the quiet NaN with an empty payload. *)
Definition to_bits (mw ew : Z) (x : spec_float) : Z :=
  let sgn (s : bool) := if s then 2 ^ (mw + ew) else 0 in
  match x with
  | S754_zero s => sgn s
  | S754_infinity s => sgn s + (2 ^ ew - 1) * 2 ^ mw
  | S754_nan => (2 ^ ew - 1) * 2 ^ mw + 2 ^ (mw - 1)
  | S754_finite s m e =>
      if Zpos m <? 2 ^ mw then sgn s + Zpos m
      else sgn s + (e + mw + 2 ^ (ew - 1) - 1) * 2 ^ mw + (Zpos m - 2 ^ mw)
  end.

Definition of_bits (mw ew : Z) (b : Z) : spec_float :=
  let s := Z.testbit b (mw + ew) in
  let e := (b / 2 ^ mw) mod 2 ^ ew in
  let m := b mod 2 ^ mw in
  if e =? 0 then
    match m with
    | Zpos p => S754_finite s p (2 - 2 ^ (ew - 1) - mw)
    | _ => S754_zero s
    end
  else if e =? 2 ^ ew - 1 then
    if m =? 0 then S754_infinity s else S754_nan
  else
    match m + 2 ^ mw with
    | Zpos p => S754_finite s p (e - (2 ^ (ew - 1) - 1) - mw)
    | _ => S754_nan
    end.

Definition bits32 := to_bits 23 8.
Definition bits64 := to_bits 52 11.
Definition of_bits32 := of_bits 23 8.
Definition of_bits64 := of_bits 52 11.

End Float.

(* ================================================================== *)
(** * Big-endian records ([encoding/binary]) *)

Module Codec.

Definition byte := Byte.byte.

Definition byte_of_Z (z : Z) : byte :=
  match Byte.of_N (Z.to_N (z mod 256)) with
  | Some b => b
  | None => Byte.x00
  end.

Definition Z_of_byte (b : byte) : Z := Z.of_N (Byte.to_N b).

(** [n] bytes of [z], most significant first. *)
Fixpoint be_encode (n : nat) (z : Z) : list byte :=
  match n with
  | O => []
  | S k => byte_of_Z (z / 2 ^ (8 * Z.of_nat k)) :: be_encode k z
  end.

Definition be_decode (bs : list byte) : Z :=
  fold_left (fun acc b => acc * 256 + Z_of_byte b) bs 0.

Definition zeros (n : nat) : list byte := repeat Byte.x00 n.

(** Cut a byte string into [count] records of [n] bytes. *)
Fixpoint chunks (n : nat) (count : nat) (bs : list byte) : list (list byte) :=
  match count with
  | O => []
  | S c => firstn n bs :: chunks n c (skipn n bs)
  end.

End Codec.

(* ================================================================== *)
(** * The backing file ([*os.File]) *)

(** The file's bytes and the cursor that [Seek], [Read] and [Write]
    move. *)
Record File : Type := mkFile {
  contents : list Codec.byte;
  cursor : Z
}.

(** Overwrite [data] with [bs] from byte [off] on; a write past the end
    leaves a hole of zero bytes, an empty write changes nothing. *)
Definition pwrite (data : list Codec.byte) (off : nat) (bs : list Codec.byte)
  : list Codec.byte :=
  match bs with
  | [] => data
  | _ :: _ =>
      firstn off data ++ Codec.zeros (off - length data) ++ bs
        ++ skipn (off + length bs) data
  end.

(** Computations on the file: a result and the file afterwards, or a
    panic. *)
Definition IO (A : Type) : Type := File -> go (A * File).

Definition ret {A} (a : A) : IO A := fun f => Ret (a, f).

Definition bind {A B} (c : IO A) (k : A -> IO B) : IO B :=
  fun f =>
    match c f with
    | Ret (a, f') => k a f'
    | Panic p => Panic p
    end.

Definition lift {A} (c : go A) : IO A :=
  fun f =>
    match c with
    | Ret a => Ret (a, f)
    | Panic p => Panic p
    end.

Notation "x <- c ;; k" := (bind c (fun x => k))
  (at level 61, c at next level, right associativity).
Notation "' pat <- c ;; k" := (bind c (fun x => match x with pat => k end))
  (at level 61, pat pattern, c at next level, right associativity).
Notation "c ;;; k" := (bind c (fun _ => k))
  (at level 61, right associativity).

(** [file.Seek(offset, 0)]: offsets here are never negative, so the seek
    succeeds. *)
Definition file_Seek (offset : Z) : IO (option error) :=
  fun f => Ret (None, mkFile (contents f) offset).

(** [file.Write(bs)] at the cursor. *)
Definition file_Write (bs : list Codec.byte) : IO (option error) :=
  fun f =>
    Ret (None,
         mkFile (pwrite (contents f) (Z.to_nat (cursor f)) bs)
                (cursor f + Z.of_nat (length bs))).

(** [io.ReadFull] of [n] bytes at the cursor: [io.EOF] when nothing is
    left, [io.ErrUnexpectedEOF] when fewer than [n] bytes are. *)
Definition io_ReadFull (n : nat) : IO (list Codec.byte * option error) :=
  fun f =>
    let avail := skipn (Z.to_nat (cursor f)) (contents f) in
    match n with
    | O => Ret (([], None), f)
    | S _ =>
        match avail with
        | [] => Ret (([], Some EOF), f)
        | _ :: _ =>
            if (length avail <? n)%nat then
              Ret ((avail, Some ErrUnexpectedEOF),
                   mkFile (contents f) (Z.of_nat (length (contents f))))
            else
              Ret ((firstn n avail, None),
                   mkFile (contents f) (cursor f + Z.of_nat n))
        end
    end.

(* ================================================================== *)
(** * The data model *)

(** General metadata about a whisper database. *)
Record Metadata : Type := mkMetadata {
  AggregationMethod : Z;           (* uint32 *)
  MaxRetention : Z;                (* uint32 *)
  XFilesFactor : Float.float32;
  ArchiveCount : Z                 (* uint32 *)
}.

(** Metadata about an archive within the database. *)
Record ArchiveInfo : Type := mkArchiveInfo {
  Offset : Z;                      (* uint32 *)
  SecondsPerPoint : Z;             (* uint32 *)
  Points : Z                       (* uint32 *)
}.

Record Point : Type := mkPoint {
  Timestamp : Z;                   (* uint32 *)
  Value : Float.float64
}.

Record Header : Type := mkHeader {
  Header_Metadata : Metadata;
  Archives : list ArchiveInfo
}.

(** A [Whisper] value is its header; its [file] is the state the [IO]
    computations below run on. *)
Record Whisper : Type := mkWhisper {
  W_Header : Header
}.

(** The record sizes that [init] computes with [binary.Size]: twelve
    bytes for a [Point], sixteen for the [Metadata]; [archiveSize] is
    [binary.Size(Archive{})], the size of an empty slice of points, which
    is the element size times the length, zero. *)
Definition pointSize : Z := 12.
Definition metadataSize : Z := 16.
Definition archiveSize : Z := 12 * 0.

Definition AGGREGATION_AVERAGE : Z := 1.
Definition AGGREGATION_SUM : Z := 2.
Definition AGGREGATION_LAST : Z := 3.
Definition AGGREGATION_MAX : Z := 4.
Definition AGGREGATION_MIN : Z := 5.

(** The zero values of Go's [var x T]. *)
Definition zero_ArchiveInfo : ArchiveInfo := mkArchiveInfo 0 0 0.
Definition zero_Point : Point := mkPoint 0 Float.zero.

(** [a.Retention()], [a.size()] and [a.end()]. *)
Definition Retention (a : ArchiveInfo) : Z :=
  U32.mul (SecondsPerPoint a) (Points a).

Definition size (a : ArchiveInfo) : Z := U32.mul (Points a) pointSize.

Definition archive_end (a : ArchiveInfo) : Z := U32.add (Offset a) (size a).

(** [len(s)] converted to [uint32]. *)
Definition len32 {A} (l : list A) : Z := U32.wrap (Z.of_nat (length l)).

(** ** Records on disk *)

Definition encode_Point (p : Point) : list Codec.byte :=
  Codec.be_encode 4 (Timestamp p) ++ Codec.be_encode 8 (Float.bits64 (Value p)).

Definition decode_Point (bs : list Codec.byte) : Point :=
  mkPoint (Codec.be_decode (firstn 4 bs))
          (Float.of_bits64 (Codec.be_decode (skipn 4 bs))).

Definition encode_Points (ps : list Point) : list Codec.byte :=
  flat_map encode_Point ps.

Definition encode_Metadata (m : Metadata) : list Codec.byte :=
  Codec.be_encode 4 (AggregationMethod m) ++ Codec.be_encode 4 (MaxRetention m)
    ++ Codec.be_encode 4 (Float.bits32 (XFilesFactor m))
    ++ Codec.be_encode 4 (ArchiveCount m).

Definition encode_ArchiveInfo (a : ArchiveInfo) : list Codec.byte :=
  Codec.be_encode 4 (Offset a) ++ Codec.be_encode 4 (SecondsPerPoint a)
    ++ Codec.be_encode 4 (Points a).

(** [binary.Write(file, binary.BigEndian, points)]. *)
Definition binary_Write_Points (ps : list Point) : IO (option error) :=
  file_Write (encode_Points ps).

(** [binary.Read(file, binary.BigEndian, points)] into a slice of [n]
    points: the slice keeps its zero values when the read fails. *)
Definition binary_Read_Points (n : nat) : IO (list Point * option error) :=
  '(bs, err) <- io_ReadFull (n * 12) ;;
  match err with
  | Some e => ret (repeat zero_Point n, Some e)
  | None => ret (map decode_Point (Codec.chunks 12 n bs), None)
  end.

(* ================================================================== *)
(** * [sort.Sort] *)

(** [sort.Sort] promises a sorted permutation and no stability; it is
    modelled by the insertion sort the library runs on short slices. *)
Section Sort.

Context {A : Type}.
Variable Less : A -> A -> bool.

Fixpoint sort_insert (x : A) (l : list A) : list A :=
  match l with
  | [] => [x]
  | y :: l' => if Less x y then x :: y :: l' else y :: sort_insert x l'
  end.

Definition sort_Sort (l : list A) : list A :=
  fold_left (fun acc x => sort_insert x acc) l [].

End Sort.

(** [bySecondsPerPoint.Less]. *)
Definition bySecondsPerPoint_Less (a b : ArchiveInfo) : bool :=
  SecondsPerPoint a <? SecondsPerPoint b.

(** [Archive.Less] and [reverseArchive.Less]. *)
Definition Archive_Less (a b : Point) : bool := Timestamp a <? Timestamp b.

Definition reverseArchive_Less (a b : Point) : bool := Archive_Less b a.

(* ================================================================== *)
(** * Validation of archive lists *)

Definition err_empty : error :=
  errors_New "archive list cannot have 0 length".
Definition err_duplicate : error :=
  errors_New "No archive may be a duplicate of another".
Definition err_not_divisible : error :=
  errors_New "Higher precision archives must evenly divide in to lower precision".
Definition err_retention : error :=
  errors_New "Lower precision archives must cover a larger time interval than higher precision".
Definition err_consolidate : error :=
  errors_New "Each archive must be able to consolidate the next".

(** The body of the [for i, archive := range archives] loop, which stops
    at the last archive. *)
Fixpoint validate_loop (archives : list ArchiveInfo) : go (option error) :=
  match archives with
  | archive :: ((nextArchive :: _) as rest) =>
      (* 2. *)
      if negb (SecondsPerPoint archive <? SecondsPerPoint nextArchive) then
        Ret (Some err_duplicate)
      else
        (* 3. *)
        r <~ u32_rem (SecondsPerPoint nextArchive) (SecondsPerPoint archive) ;;
        if negb (r =? 0) then Ret (Some err_not_divisible)
        else
          (* 4. *)
          let nextRetention := Retention nextArchive in
          let retention := Retention archive in
          if negb (nextRetention >? retention) then Ret (Some err_retention)
          else
            (* 5. *)
            q <~ u32_div (SecondsPerPoint nextArchive) (SecondsPerPoint archive) ;;
            if negb (Points archive >=? q) then Ret (Some err_consolidate)
            else validate_loop rest
  | _ => Ret None
  end.

(** [ValidateArchiveList]: the list as the in-place sort leaves it, and
    the error. *)
Definition ValidateArchiveList (archives : list ArchiveInfo)
  : go (list ArchiveInfo * option error) :=
  let archives := sort_Sort bySecondsPerPoint_Less archives in
  (* 1. *)
  match archives with
  | [] => Ret (archives, Some err_empty)
  | _ :: _ => err <~ validate_loop archives ;; Ret (archives, err)
  end.

(* ================================================================== *)
(** * Reading and writing points *)

(** [readPoints(offset, points)] for a slice of [n] points. *)
Definition readPoints (offset : Z) (n : nat) : IO (list Point * option error) :=
  err <- file_Seek offset ;;
  match err with
  | Some e => ret (repeat zero_Point n, Some e)
  | None => binary_Read_Points n
  end.

(** [readPoint(offset)]. *)
Definition readPoint (offset : Z) : IO (Point * option error) :=
  '(points, err) <- readPoints offset 1 ;;
  ret (hd zero_Point points, err).

(** [pointOffset(archive, timestamp)]: the base point is read with
    [w.readPoint(0)]. *)
Definition pointOffset (archive : ArchiveInfo) (timestamp : Z)
  : IO (Z * option error) :=
  '(basePoint, err) <- readPoint 0 ;;
  match err with
  | Some e => ret (0, Some e)
  | None =>
      if Timestamp basePoint =? 0 then
        (* The archive has never been written, this will be the new base point *)
        ret (Offset archive, None)
      else
        let timeDistance := U32.sub timestamp (Timestamp basePoint) in
        pointDistance <- lift (u32_div timeDistance (SecondsPerPoint archive)) ;;
        let byteDistance := U32.mul pointDistance pointSize in
        r <- lift (u32_rem byteDistance (size archive)) ;;
        ret (U32.add (Offset archive) r, None)
  end.

(** [readPointsBetweenOffsets(archive, startOffset, endOffset)]. *)
Definition readPointsBetweenOffsets (archive : ArchiveInfo)
  (startOffset endOffset : Z) : IO (list Point * option error) :=
  let archiveStart := Offset archive in
  let archiveEnd := archive_end archive in
  if startOffset <? endOffset then
    (* The selection is in the middle of the archive. eg: --####--- *)
    readPoints startOffset (Z.to_nat (U32.sub endOffset startOffset / pointSize))
  else
    (* The selection wraps over the end of the archive. eg: ##----### *)
    let numEndPoints := Z.to_nat (U32.sub archiveEnd startOffset / pointSize) in
    let numBeginPoints := Z.to_nat (U32.sub endOffset archiveStart / pointSize) in
    '(endPoints, err) <- readPoints startOffset numEndPoints ;;
    match err with
    | Some e => ret (endPoints ++ repeat zero_Point numBeginPoints, Some e)
    | None =>
        '(beginPoints, err) <- readPoints archiveStart numBeginPoints ;;
        ret (endPoints ++ beginPoints, err)
    end.

(** [writePoints(archive, points)]: the offset is determined by the
    first point. *)
Definition writePoints (archive : ArchiveInfo) (points : list Point)
  : IO (option error) :=
  let nPoints := len32 points in
  (* Sanity check *)
  if nPoints >? Points archive then
    ret (Some (ErrTooManyPoints (Points archive) nPoints))
  else
    match points with
    | [] => lift (Panic IndexOutOfRange)          (* points[0] *)
    | first :: _ =>
        '(offset, err) <- pointOffset archive (Timestamp first) ;;
        match err with
        | Some e => ret (Some e)
        | None =>
            err <- file_Seek offset ;;
            match err with
            | Some e => ret (Some e)
            | None =>
                let maxPointsFromOffset :=
                  U32.sub (archive_end archive) offset / pointSize in
                if nPoints >? maxPointsFromOffset then
                  (* Points span the beginning and end of the archive, eg: ##----### *)
                  let k := Z.to_nat maxPointsFromOffset in
                  err <- binary_Write_Points (firstn k points) ;;
                  match err with
                  | Some e => ret (Some e)
                  | None =>
                      err <- file_Seek (Offset archive) ;;
                      match err with
                      | Some e => ret (Some e)
                      | None => binary_Write_Points (skipn k points)
                      end
                  end
                else
                  (* Points are in the middle of the archive, eg: --####--- *)
                  binary_Write_Points points ;;; ret None
            end
        end
    end.

(** [writePoint(archive, point)]. *)
Definition writePoint (archive : ArchiveInfo) (point : Point) : IO (option error) :=
  writePoints archive [point].

(* ================================================================== *)
(** * Aggregation *)

Definition sum_values (points : list Point) : Float.float64 :=
  fold_left (fun acc p => Float.add64 acc (Value p)) points Float.zero.

Definition err_unknown_aggregation : error :=
  errors_New "unknown aggregation function".

(** [aggregate(aggregationMethod, points)]; indexing an empty slice
    panics. *)
Definition aggregate (aggregationMethod : Z) (points : list Point)
  : go (Point * option error) :=
  if aggregationMethod =? AGGREGATION_AVERAGE then
    Ret (mkPoint 0 (Float.div64 (sum_values points)
                      (Float.of_int64 (Z.of_nat (length points)))), None)
  else if aggregationMethod =? AGGREGATION_SUM then
    Ret (mkPoint 0 (sum_values points), None)
  else if aggregationMethod =? AGGREGATION_LAST then
    match rev points with
    | [] => Panic IndexOutOfRange
    | last :: _ => Ret (mkPoint 0 (Value last), None)
    end
  else if aggregationMethod =? AGGREGATION_MAX then
    match points with
    | [] => Panic IndexOutOfRange
    | first :: _ =>
        Ret (mkPoint 0
               (fold_left (fun acc p => if Float.ltb acc (Value p) then Value p else acc)
                          points (Value first)), None)
    end
  else if aggregationMethod =? AGGREGATION_MIN then
    match points with
    | [] => Panic IndexOutOfRange
    | first :: _ =>
        Ret (mkPoint 0
               (fold_left (fun acc p => if Float.ltb (Value p) acc then Value p else acc)
                          points (Value first)), None)
    end
  else Ret (zero_Point, Some err_unknown_aggregation).

(* ================================================================== *)
(** * Propagation *)

(** The loop [for i := 0; i < len(points); i += 2] of [propagate]: it
    looks at every second point, and moves [currentInterval] on by one
    step each time round. *)
Fixpoint neighborPoints (step : Z) (currentInterval : Z) (points : list Point)
  : list Point :=
  match points with
  | [] => []
  | p :: rest =>
      (if Timestamp p =? currentInterval then [p] else [])
        ++ match rest with
           | [] => []
           | _ :: rest' => neighborPoints step (U32.add currentInterval step) rest'
           end
  end.

Section Propagate.

(** The aggregation function is a variable of this section, so that what
    [propagate] asks of it can be stated; [propagate] itself is the
    instance at [aggregate]. *)
Variable aggregate_fn : Z -> list Point -> go (Point * option error).

Definition propagate_with (w : Whisper) (timestamp : Z)
  (higher lower : ArchiveInfo) : IO (bool * option error) :=
  (* The start of the lower resolution archive interval. *)
  r <- lift (u32_rem timestamp (SecondsPerPoint lower)) ;;
  let lowerIntervalStart := U32.sub timestamp r in
  (* The offset of the first point in the higher resolution data *)
  '(higherFirstOffset, err) <- pointOffset higher lowerIntervalStart ;;
  match err with
  | Some e => ret (false, Some e)
  | None =>
      numHigherPoints <-
        lift (u32_div (SecondsPerPoint lower) (SecondsPerPoint higher)) ;;
      let higherPointsSize := U32.mul numHigherPoints pointSize in
      let relativeFirstOffset := U32.sub higherFirstOffset (Offset higher) in
      relativeLastOffset <-
        lift (u32_rem (U32.add relativeFirstOffset higherPointsSize) (size higher)) ;;
      let higherLastOffset := U32.add relativeLastOffset (Offset higher) in
      '(points, err) <-
        readPointsBetweenOffsets higher higherFirstOffset higherLastOffset ;;
      match err with
      | Some e => ret (false, Some e)
      | None =>
          let neighbors :=
            neighborPoints (SecondsPerPoint higher) lowerIntervalStart points in
          let knownPercent :=
            Float.ltb
              (Float.div32 (Float.of_int32 (Z.of_nat (length neighbors)))
                           (Float.of_int32 (Z.of_nat (length points))))
              (XFilesFactor (Header_Metadata (W_Header w))) in
          if (length neighbors =? 0)%nat || knownPercent then
            (* There's nothing to propagate *)
            ret (false, None)
          else
            '(aggregatePoint, err) <-
              lift (aggregate_fn (AggregationMethod (Header_Metadata (W_Header w)))
                                 neighbors) ;;
            match err with
            | Some e => ret (false, Some e)
            | None =>
                let aggregatePoint :=
                  mkPoint lowerIntervalStart (Value aggregatePoint) in
                writePoint lower aggregatePoint ;;;
                ret (true, None)
            end
      end
  end.

End Propagate.

Definition propagate : Whisper -> Z -> ArchiveInfo -> ArchiveInfo
  -> IO (bool * option error) :=
  propagate_with aggregate.

(* ================================================================== *)
(** * Single-point update *)

(** The archive selection loop of [Update]:
    [for i, currentArchive := range w.Header.Archives] skips the
    archives whose retention is too short and, at every other one, sets
    [lowerArchives = w.Header.Archives[i+1:]].  It has no [break], and its
    loop variable is not the [currentArchive] of the function. *)
Fixpoint Update_select (archives : list ArchiveInfo) (diff : Z)
  (lowerArchives : list ArchiveInfo) : list ArchiveInfo :=
  match archives with
  | [] => lowerArchives
  | currentArchive :: rest =>
      if Retention currentArchive <? diff then
        Update_select rest diff lowerArchives
      else Update_select rest diff rest
  end.

(** The propagation loop of [Update]; [err] is the function's named
    result as the point write left it. *)
Fixpoint Update_propagate (w : Whisper) (timestamp : Z)
  (higherArchive : ArchiveInfo) (lowerArchives : list ArchiveInfo)
  (err : option error) : IO (option error) :=
  match lowerArchives with
  | [] => ret err
  | lowerArchive :: rest =>
      '(result, e) <- propagate w timestamp higherArchive lowerArchive ;;
      if negb result then ret err                      (* break *)
      else
        match e with
        | Some _ => ret e
        | None => Update_propagate w timestamp lowerArchive rest err
        end
  end.

(** The rest of [Update], from the normalisation of the timestamp on,
    for the values [currentArchive] and [lowerArchives] have there. *)
Definition Update_store (w : Whisper) (currentArchive : ArchiveInfo)
  (lowerArchives : list ArchiveInfo) (point : Point) : IO (option error) :=
  r <- lift (u32_rem (Timestamp point) (SecondsPerPoint currentArchive)) ;;
  let point := mkPoint (U32.sub (Timestamp point) r) (Value point) in
  err <- writePoint currentArchive point ;;
  Update_propagate w (Timestamp point) currentArchive lowerArchives err.

(** [Update(point)], with the clock reading [now] as an argument. *)
Definition Update (w : Whisper) (now : Z) (point : Point) : IO (option error) :=
  let diff := U32.sub now (Timestamp point) in
  if negb ((diff <? MaxRetention (Header_Metadata (W_Header w))) && (diff >=? 0)) then
    (* TODO: Return an error *)
    ret None
  else
    let lowerArchives := Update_select (Archives (W_Header w)) diff [] in
    (* var currentArchive ArchiveInfo *)
    let currentArchive := zero_ArchiveInfo in
    Update_store w currentArchive lowerArchives point.

(* ================================================================== *)
(** * Batch update *)

Fixpoint quantizeArchive (points : list Point) (resolution : Z) : go (list Point) :=
  match points with
  | [] => Ret []
  | point :: rest =>
      r <~ u32_rem (Timestamp point) resolution ;;
      result <~ quantizeArchive rest resolution ;;
      Ret (mkPoint (U32.sub (Timestamp point) r) (Value point) :: result)
  end.

Record stampedArchive : Type := mkStamped {
  stamped_timestamp : Z;
  stamped_points : list Point
}.

(** The first loop of [archiveUpdateMany]: it cuts the quantized points
    into series of contiguous timestamps. *)
Fixpoint series_loop (step : Z) (points : list Point) (previousTimestamp : Z)
  (currentPoints : list Point) (archives : list stampedArchive)
  : list stampedArchive * list Point * Z :=
  match points with
  | [] => (archives, currentPoints, previousTimestamp)
  | point :: rest =>
      if Timestamp point =? previousTimestamp then
        (* ignore values with duplicate timestamps *)
        series_loop step rest previousTimestamp currentPoints archives
      else if negb (previousTimestamp =? 0)
              && negb (Timestamp point =? U32.add previousTimestamp step) then
        (* the current point is not contiguous to the last *)
        let archiveStart :=
          U32.sub previousTimestamp (U32.mul (len32 currentPoints) step) in
        series_loop step rest (Timestamp point) [point]
                    (archives ++ [mkStamped archiveStart currentPoints])
      else
        series_loop step rest (Timestamp point) (currentPoints ++ [point]) archives
  end.

Definition series (step : Z) (points : list Point) : list stampedArchive :=
  let '(archives, currentPoints, previousTimestamp) :=
    series_loop step points 0 [] [] in
  match currentPoints with
  | [] => archives
  | _ :: _ =>
      archives ++
        [mkStamped (U32.sub previousTimestamp (U32.mul (len32 currentPoints) step))
                   currentPoints]
  end.

Fixpoint write_series (archiveInfo : ArchiveInfo) (archives : list stampedArchive)
  : IO (option error) :=
  match archives with
  | [] => ret None
  | archive :: rest =>
      err <- writePoints archiveInfo (stamped_points archive) ;;
      match err with
      | Some e => ret (Some e)
      | None => write_series archiveInfo rest
      end
  end.

(** How a loop body leaves: on to the next round, [break PropagateLoop],
    or [return err]. *)
Inductive exit : Type :=
| Next
| Break
| Return (e : error).

Fixpoint propagate_points (w : Whisper) (higher info : ArchiveInfo)
  (quantizedPoints : list Point) (lastPoint : Point) : IO exit :=
  match quantizedPoints with
  | [] => ret Next
  | point :: rest =>
      if Timestamp point =? Timestamp lastPoint then
        propagate_points w higher info rest lastPoint
      else
        '(propagateFurther, err) <- propagate w (Timestamp point) higher info ;;
        match err with
        | Some e => ret (Return e)
        | None =>
            if negb propagateFurther then ret Break
            else propagate_points w higher info rest point
        end
  end.

Fixpoint PropagateLoop (w : Whisper) (archiveInfo : ArchiveInfo)
  (points : list Point) (higher : ArchiveInfo) (infos : list ArchiveInfo)
  : IO (option error) :=
  match infos with
  | [] => ret None
  | info :: rest =>
      if SecondsPerPoint info <? SecondsPerPoint archiveInfo then
        PropagateLoop w archiveInfo points higher rest
      else
        quantizedPoints <- lift (quantizeArchive points (SecondsPerPoint info)) ;;
        x <- propagate_points w higher info quantizedPoints (mkPoint 0 Float.zero) ;;
        match x with
        | Return e => ret (Some e)
        | Break => ret None
        | Next => PropagateLoop w archiveInfo points info rest
        end
  end.

(** [archiveUpdateMany(archiveInfo, points)]. *)
Definition archiveUpdateMany (w : Whisper) (archiveInfo : ArchiveInfo)
  (points : list Point) : IO (option error) :=
  let step := SecondsPerPoint archiveInfo in
  points <- lift (quantizeArchive points step) ;;
  err <- write_series archiveInfo (series step points) ;;
  match err with
  | Some e => ret (Some e)
  | None => PropagateLoop w archiveInfo points archiveInfo (Archives (W_Header w))
  end.

(** What [UpdateMany] does with a bucket: sort it newest first and hand
    it to [archiveUpdateMany], whose error it drops. *)
Definition flush (w : Whisper) (currentArchive : ArchiveInfo)
  (currentPoints : list Point) : IO unit :=
  archiveUpdateMany w currentArchive (sort_Sort reverseArchive_Less currentPoints) ;;;
  ret tt.

(** The loop [for currentArchive.Retention() < age].  The pointer
    [&w.Header.Archives[archiveIndex]] is the archive it points at
    together with the archives after it; [None] is the [nil] the pointer
    becomes when the loop runs off the list. *)
Fixpoint advance (w : Whisper) (currentArchive : ArchiveInfo)
  (after : list ArchiveInfo) (currentPoints : list Point) (age : Z)
  : IO (option (ArchiveInfo * list ArchiveInfo) * list Point) :=
  if Retention currentArchive <? age then
    currentPoints <-
      match currentPoints with
      | [] => ret []
      | _ :: _ => flush w currentArchive currentPoints ;;; ret []
      end ;;
    match after with
    | next :: after' => advance w next after' currentPoints age
    | [] =>
        (* Drop remaining points that don't fit in the db *)
        ret (None, currentPoints)
    end
  else ret (Some (currentArchive, after), currentPoints).

Fixpoint PointLoop (w : Whisper) (now : Z) (currentArchive : ArchiveInfo)
  (after : list ArchiveInfo) (currentPoints : list Point) (points : list Point)
  : IO (option ArchiveInfo * list Point) :=
  match points with
  | [] => ret (Some currentArchive, currentPoints)
  | point :: rest =>
      let age := U32.sub now (Timestamp point) in
      '(pointer, currentPoints) <- advance w currentArchive after currentPoints age ;;
      match pointer with
      | None => ret (None, currentPoints)              (* break PointLoop *)
      | Some (currentArchive, after) =>
          PointLoop w now currentArchive after (currentPoints ++ [point]) rest
      end
  end.

(** [UpdateMany(points)], with the clock reading [now] as an argument. *)
Definition UpdateMany (w : Whisper) (now : Z) (points : list Point)
  : IO (option error) :=
  match Archives (W_Header w) with
  | [] => lift (Panic IndexOutOfRange)        (* &w.Header.Archives[0] *)
  | first :: after =>
      '(currentArchive, currentPoints) <- PointLoop w now first after [] points ;;
      match currentArchive, currentPoints with
      | Some currentArchive, _ :: _ => flush w currentArchive currentPoints ;;; ret None
      | _, _ => ret None
      end
  end.

(* ================================================================== *)
(** * Creation *)

(** The file [os.OpenFile(path, O_RDWR|O_CREATE|O_EXCL, 0666)] hands to
    [Create]: new and empty. *)
Definition new_file : File := mkFile [] 0.

(** The loop of [Create] that assigns the offsets and writes the archive
    descriptors; it returns the [archiveOffsetPointer] it ends with. *)
Fixpoint write_descriptors (archives : list ArchiveInfo) (archiveOffsetPointer : Z)
  : IO (Z * option error) :=
  match archives with
  | [] => ret (archiveOffsetPointer, None)
  | archive :: rest =>
      let archive :=
        mkArchiveInfo archiveOffsetPointer (SecondsPerPoint archive) (Points archive) in
      err <- file_Write (encode_ArchiveInfo archive) ;;
      match err with
      | Some e => ret (archiveOffsetPointer, Some e)
      | None =>
          write_descriptors rest
            (U32.add archiveOffsetPointer (U32.mul (Points archive) pointSize))
      end
  end.

Definition chunkSize : Z := 16384.

(** The loop [for remaining > chunkSize] of the dense allocation; [fuel]
    bounds its rounds, and it returns the [remaining] it ends with. *)
Fixpoint write_chunks (fuel : nat) (remaining : Z) : IO Z :=
  match fuel with
  | O => ret remaining
  | S fuel' =>
      if remaining >? chunkSize then
        file_Write (Codec.zeros (Z.to_nat chunkSize)) ;;;
        write_chunks fuel' (U32.sub remaining chunkSize)
      else ret remaining
  end.

(** [Create(path, archives, xFilesFactor, aggregationMethod, sparse)] on
    the file it opened. *)
Definition Create (archives : list ArchiveInfo) (xFilesFactor : Float.float32)
  (aggregationMethod : Z) (sparse : bool) : IO (option error) :=
  let oldest :=
    fold_left (fun oldest archive =>
                 let age := U32.mul (SecondsPerPoint archive) (Points archive) in
                 if age >? oldest then age else oldest)
              archives 0 in
  let metadata := mkMetadata aggregationMethod oldest xFilesFactor (len32 archives) in
  err <- file_Write (encode_Metadata metadata) ;;
  match err with
  | Some e => ret (Some e)
  | None =>
      let headerSize := U32.add metadataSize (U32.mul archiveSize (len32 archives)) in
      '(archiveOffsetPointer, err) <- write_descriptors archives headerSize ;;
      match err with
      | Some e => ret (Some e)
      | None =>
          if sparse then
            file_Seek (U32.sub (U32.sub archiveOffsetPointer headerSize) 1) ;;;
            file_Write [Byte.x00] ;;;
            ret None
          else
            let remaining := U32.sub archiveOffsetPointer headerSize in
            remaining <- write_chunks (Z.to_nat remaining) remaining ;;
            file_Write (Codec.zeros (Z.to_nat remaining)) ;;;
            ret None
      end
  end.

(* ================================================================== *)
(** * Opening a database *)

Definition decode_Metadata (bs : list Codec.byte) : Metadata :=
  mkMetadata (Codec.be_decode (firstn 4 bs))
             (Codec.be_decode (firstn 4 (skipn 4 bs)))
             (Float.of_bits32 (Codec.be_decode (firstn 4 (skipn 8 bs))))
             (Codec.be_decode (firstn 4 (skipn 12 bs))).

Definition decode_ArchiveInfo (bs : list Codec.byte) : ArchiveInfo :=
  mkArchiveInfo (Codec.be_decode (firstn 4 bs))
                (Codec.be_decode (firstn 4 (skipn 4 bs)))
                (Codec.be_decode (firstn 4 (skipn 8 bs))).

Definition zero_Metadata : Metadata := mkMetadata 0 0 Float.zero 0.

(** [make([]ArchiveInfo, n)]: the slice of [n] zero values that
    [readHeader] allocates before it reads the first descriptor,
    whatever the file holds.  The allocation is taken to succeed: a
    runtime that runs out of memory ends the process, and the model has
    no bound on memory to show it. *)
Definition make_ArchiveInfo (n : nat) : list ArchiveInfo := repeat zero_ArchiveInfo n.

(** [s[i] = x] at an index the slice has. *)
Fixpoint slice_set {A} (s : list A) (i : nat) (x : A) : list A :=
  match s, i with
  | [], _ => []
  | _ :: rest, O => x :: rest
  | y :: rest, S i' => y :: slice_set rest i' x
  end.

(** The loop [for i := uint32(0); i < metadata.ArchiveCount; i++] of
    [readHeader], [count] rounds from the index [i] on: each reads a
    descriptor into [archives[i]], and an index the slice does not have
    panics. *)
Fixpoint read_descriptors (count : nat) (i : nat) (archives : list ArchiveInfo)
  : IO (list ArchiveInfo * option error) :=
  match count with
  | O => ret (archives, None)
  | S count' =>
      match nth_error archives i with
      | None => lift (Panic IndexOutOfRange)          (* &archives[i] *)
      | Some _ =>
          '(bs, err) <- io_ReadFull 12 ;;
          match err with
          | Some e => ret (archives, Some e)
          | None =>
              read_descriptors count' (S i)
                               (slice_set archives i (decode_ArchiveInfo bs))
          end
      end
  end.

(** [readHeader(buf)]; the deferred function seeks back to the position
    the file had. *)
Definition readHeader : IO (Header * option error) :=
  fun f =>
    let currentPos := cursor f in
    (file_Seek 0 ;;;
     '(bs, err) <- io_ReadFull 16 ;;
     '(header, err) <-
       match err with
       | Some e => ret (mkHeader zero_Metadata [], Some e)
       | None =>
           let metadata := decode_Metadata bs in
           let count := Z.to_nat (ArchiveCount metadata) in
           let archives := make_ArchiveInfo count in
           '(archives, err) <- read_descriptors count 0 archives ;;
           match err with
           | Some e => ret (mkHeader metadata [], Some e)
           | None => ret (mkHeader metadata archives, None)
           end
       end ;;
     file_Seek currentPos ;;;
     ret (header, err)) f.

(** [Open(path)], from the point where [os.OpenFile] has returned the
    file at [path]. *)
Definition Open : IO (Whisper * option error) :=
  '(header, err) <- readHeader ;;
  match err with
  | Some e => ret (mkWhisper (mkHeader zero_Metadata []), Some e)
  | None => ret (mkWhisper header, None)
  end.

(* ================================================================== *)
(** * Definitions for the statements *)

(** ** The two halves of [propagate] *)

(** The first half of [propagate]: the interval start and the points
    read from the higher archive, or the error it returns early with. *)
Definition propagate_collect (timestamp : Z) (higher lower : ArchiveInfo)
  : IO (error + Z * list Point) :=
  r <- lift (u32_rem timestamp (SecondsPerPoint lower)) ;;
  let lowerIntervalStart := U32.sub timestamp r in
  '(higherFirstOffset, err) <- pointOffset higher lowerIntervalStart ;;
  match err with
  | Some e => ret (inl e)
  | None =>
      numHigherPoints <-
        lift (u32_div (SecondsPerPoint lower) (SecondsPerPoint higher)) ;;
      let higherPointsSize := U32.mul numHigherPoints pointSize in
      let relativeFirstOffset := U32.sub higherFirstOffset (Offset higher) in
      relativeLastOffset <-
        lift (u32_rem (U32.add relativeFirstOffset higherPointsSize) (size higher)) ;;
      let higherLastOffset := U32.add relativeLastOffset (Offset higher) in
      '(points, err) <-
        readPointsBetweenOffsets higher higherFirstOffset higherLastOffset ;;
      match err with
      | Some e => ret (inl e)
      | None => ret (inr (lowerIntervalStart, points))
      end
  end.

(** The coverage test of [propagate] on the collected neighbours. *)
Definition nothing_to_propagate (w : Whisper) (neighbors points : list Point) : bool :=
  (length neighbors =? 0)%nat
  || Float.ltb
       (Float.div32 (Float.of_int32 (Z.of_nat (length neighbors)))
                    (Float.of_int32 (Z.of_nat (length points))))
       (XFilesFactor (Header_Metadata (W_Header w))).

(** The second half: the coverage test, the aggregation and the write. *)
Definition propagate_decide
  (aggregate_fn : Z -> list Point -> go (Point * option error))
  (w : Whisper) (higher lower : ArchiveInfo) (lowerIntervalStart : Z)
  (points : list Point) : IO (bool * option error) :=
  let neighbors :=
    neighborPoints (SecondsPerPoint higher) lowerIntervalStart points in
  if nothing_to_propagate w neighbors points then ret (false, None)
  else
    '(aggregatePoint, err) <-
      lift (aggregate_fn (AggregationMethod (Header_Metadata (W_Header w))) neighbors) ;;
    match err with
    | Some e => ret (false, Some e)
    | None =>
        writePoint lower (mkPoint lowerIntervalStart (Value aggregatePoint)) ;;;
        ret (true, None)
    end.

(** ** Panics *)

Definition no_index_panic {A} (r : go A) : Prop := r <> Panic IndexOutOfRange.

(** An aggregation function that differs from [aggregate] on the empty
    list, where it returns a zero point instead of panicking. *)
Definition aggregate_or_zero (m : Z) (points : list Point) : go (Point * option error) :=
  match points with
  | [] => Ret (zero_Point, None)
  | _ :: _ => aggregate m points
  end.

(** ** The partition of a batch *)

Definition age (now : Z) (p : Point) : Z := U32.sub now (Timestamp p).

Definition flush_if_any (w : Whisper) (a : ArchiveInfo) (bucket : list Point)
  : IO unit :=
  match bucket with
  | [] => ret tt
  | _ :: _ => flush w a bucket
  end.

(** The partition of a batch as the specification words it: every point
    goes to the first archive of the header whose retention covers its
    age, each archive's bucket is flushed in the order of the archives,
    and the points no archive covers are dropped. *)
Fixpoint flush_buckets (w : Whisper) (now : Z) (archives : list ArchiveInfo)
  (points : list Point) : IO unit :=
  match archives with
  | [] => ret tt
  | a :: rest =>
      flush_if_any w a (filter (fun p => age now p <=? Retention a) points) ;;;
      flush_buckets w now rest (filter (fun p => Retention a <? age now p) points)
  end.

(** The end of [UpdateMany], after the loop over the points. *)
Definition finish (w : Whisper) (r : option ArchiveInfo * list Point)
  : IO (option error) :=
  let '(currentArchive, currentPoints) := r in
  match currentArchive, currentPoints with
  | Some currentArchive, _ :: _ => flush w currentArchive currentPoints ;;; ret None
  | _, _ => ret None
  end.

(** ** The bytes of a created file *)

(** The bytes of the archives of a list, not wrapped. *)
Definition archive_bytes (archives : list ArchiveInfo) : Z :=
  fold_right (fun a s => Points a * pointSize + s) 0 archives.

(** The cursor stands at the end of the file. *)
Definition at_end (f : File) : Prop := cursor f = Z.of_nat (length (contents f)).

(** ** The rules of an archive list *)

(** Rules 2 to 5 for an archive and the next coarser one. *)
Definition consolidates (a b : ArchiveInfo) : Prop :=
  SecondsPerPoint a < SecondsPerPoint b
  /\ (SecondsPerPoint a | SecondsPerPoint b)
  /\ Retention a < Retention b
  /\ SecondsPerPoint b / SecondsPerPoint a <= Points a.

Fixpoint rules_hold (archives : list ArchiveInfo) : Prop :=
  match archives with
  | a :: ((b :: _) as rest) => consolidates a b /\ rules_hold rest
  | _ => True
  end.

(* ================================================================== *)
(** * Concrete databases *)

Module Scenario.

(** [0.5] as [float32], and the [float64] of a small integer. *)
Definition half : Float.float32 := S754_finite false 8388608 (-24).
Definition f64 (n : Z) : Float.float64 := Float.of_int64 n.

(** Ten-second points for ten minutes, minute points for an hour. *)
Definition schema : list ArchiveInfo :=
  [mkArchiveInfo 0 10 60; mkArchiveInfo 0 60 60].

(** The file a computation leaves, and its result. *)
Definition file_of {A} (r : go (A * File)) : File :=
  match r with
  | Ret (_, f) => f
  | Panic _ => new_file
  end.

Definition result_of {A} (r : go (A * File)) : go A :=
  match r with
  | Ret (a, _) => Ret a
  | Panic p => Panic p
  end.

Definition whisper_of (r : go ((Whisper * option error) * File)) : Whisper :=
  match r with
  | Ret ((w, _), _) => w
  | Panic _ => mkWhisper (mkHeader zero_Metadata [])
  end.

(** The database [Create] writes densely for [schema], summing, with
    x-files-factor one half, and the handle [Open] returns on it. *)
Definition db : File := file_of (Create schema half AGGREGATION_SUM false new_file).
Definition w : Whisper := whisper_of (Open db).

(** The same created sparsely. *)
Definition db_sparse : File := file_of (Create schema half AGGREGATION_SUM true new_file).

(** The two archives as [Open] reads them. *)
Definition fine : ArchiveInfo := mkArchiveInfo 16 10 60.
Definition coarse : ArchiveInfo := mkArchiveInfo 736 60 60.

(** Six contiguous ten-second points covering the minute that starts at
    99960, and the database after each has been written to the fine
    archive with [writePoint]. *)
Definition six : list Point :=
  [mkPoint 99960 (f64 1); mkPoint 99970 (f64 2); mkPoint 99980 (f64 3);
   mkPoint 99990 (f64 4); mkPoint 100000 (f64 5); mkPoint 100010 (f64 6)].

Fixpoint write_each (a : ArchiveInfo) (ps : list Point) : IO unit :=
  match ps with
  | [] => ret tt
  | p :: rest => writePoint a p ;;; write_each a rest
  end.

Definition db_six : File := file_of (write_each fine six db).

End Scenario.

(** A ring of five ten-second slots, and a run of four points that meets
    its end after three. *)
Definition ring_db : File :=
  Scenario.file_of
    (Create [mkArchiveInfo 0 10 5] Scenario.half AGGREGATION_SUM false new_file).
Definition ring : ArchiveInfo := mkArchiveInfo 16 10 5.
Definition run : list Point :=
  [mkPoint 130 (Scenario.f64 1); mkPoint 140 (Scenario.f64 2);
   mkPoint 150 (Scenario.f64 3); mkPoint 160 (Scenario.f64 4)].

(** A fresh point, a point of the coarse archive, and a point older than
    every retention. *)
Definition fresh : Point := mkPoint 99995 (Scenario.f64 2).
Definition aged : Point := mkPoint 99000 (Scenario.f64 3).
Definition old : Point := mkPoint 90000 (Scenario.f64 1).

(* ================================================================== *)
(** * Setting the aggregation method *)

(** [SetAggregationMethod(aggregationMethod)].  The receiver [w] is a
    copy: the assignment to [w.Header.Metadata.AggregationMethod] changes
    the metadata that is written and nothing the caller holds. *)
Definition SetAggregationMethod (w : Whisper) (aggregationMethod : Z)
  : IO (option error) :=
  let metadata :=
    mkMetadata aggregationMethod
               (MaxRetention (Header_Metadata (W_Header w)))
               (XFilesFactor (Header_Metadata (W_Header w)))
               (ArchiveCount (Header_Metadata (W_Header w))) in
  err <- file_Seek 0 ;;
  match err with
  | Some e => ret (Some e)
  | None => file_Write (encode_Metadata metadata)
  end.

(* ================================================================== *)
(** * Values of the Go types *)

(** A [float64] and a [float32] that the format can hold. *)
Definition valid_float64 (x : spec_float) : Prop := valid_binary 53 1024 x = true.
Definition valid_float32 (x : spec_float) : Prop := valid_binary 24 128 x = true.

Definition valid_Point (p : Point) : Prop :=
  U32.in_range (Timestamp p) /\ valid_float64 (Value p).

Definition valid_ArchiveInfo (a : ArchiveInfo) : Prop :=
  U32.in_range (Offset a) /\ U32.in_range (SecondsPerPoint a)
  /\ U32.in_range (Points a).

Definition valid_Metadata (m : Metadata) : Prop :=
  U32.in_range (AggregationMethod m) /\ U32.in_range (MaxRetention m)
  /\ valid_float32 (XFilesFactor m) /\ U32.in_range (ArchiveCount m).

(* ================================================================== *)
(** * The slot of a timestamp *)

(** The index of the slot [pointOffset] computes for a timestamp, given
    the timestamp [base] it has read as the base: slot zero when the base
    is zero, and otherwise the distance in points, modulo the capacity. *)
Definition slot (archive : ArchiveInfo) (base timestamp : Z) : Z :=
  if base =? 0 then 0
  else (U32.sub timestamp base / SecondsPerPoint archive) mod Points archive.

(** The archive lies in the file without wrapping the 32-bit offsets. *)
Definition fits (archive : ArchiveInfo) : Prop :=
  valid_ArchiveInfo archive
  /\ 0 < SecondsPerPoint archive
  /\ 0 < Points archive
  /\ Offset archive + pointSize * Points archive < U32.modulus.

(** The distance in points from the base does not overflow when it is
    turned into bytes. *)
Definition in_reach (archive : ArchiveInfo) (base timestamp : Z) : Prop :=
  base = 0
  \/ U32.sub timestamp base / SecondsPerPoint archive * pointSize < U32.modulus.

(** The point the first twelve bytes of the created database decode to:
    its timestamp is the aggregation method. *)
Definition db_base : Point := decode_Point (firstn 12 (contents Scenario.db)).

(** Closed arithmetic facts about concrete inputs, by evaluation. *)
Ltac by_evaluation :=
  vm_compute; repeat split; first [reflexivity | discriminate].

(* ================================================================== *)
(** * The points a batch keeps *)

(** The points the first loop of [archiveUpdateMany] does not skip: a
    point is skipped when its timestamp is that of the point kept before
    it, or zero at the start. *)
Fixpoint kept (previousTimestamp : Z) (points : list Point) : list Point :=
  match points with
  | [] => []
  | p :: rest =>
      if Timestamp p =? previousTimestamp then kept previousTimestamp rest
      else p :: kept (Timestamp p) rest
  end.

(** Timestamps that do not go up, stay above zero, and have room for one
    more step below [2 ^ 32]: a bucket as [UpdateMany] sorts it and
    [archiveUpdateMany] quantizes it. *)
Fixpoint descending (step : Z) (points : list Point) : Prop :=
  match points with
  | [] => True
  | p :: rest =>
      0 < Timestamp p /\ Timestamp p + step < U32.modulus
      /\ match rest with
         | [] => True
         | q :: _ => Timestamp q <= Timestamp p
         end
      /\ descending step rest
  end.

(* ================================================================== *)
(** * The header of a created database *)

(** The archives with the offsets the loop of [Create] gives them,
    starting from [archiveOffsetPointer]. *)
Fixpoint assign_offsets (archiveOffsetPointer : Z) (archives : list ArchiveInfo)
  : list ArchiveInfo :=
  match archives with
  | [] => []
  | archive :: rest =>
      mkArchiveInfo archiveOffsetPointer (SecondsPerPoint archive) (Points archive)
        :: assign_offsets
             (U32.add archiveOffsetPointer (U32.mul (Points archive) pointSize)) rest
  end.

(** The bytes of a header: the metadata and the archive descriptors. *)
Definition encode_Header (h : Header) : list Codec.byte :=
  encode_Metadata (Header_Metadata h) ++ concat (map encode_ArchiveInfo (Archives h)).

(** A header that [readHeader] reads back as it is. *)
Definition valid_Header (h : Header) : Prop :=
  valid_Metadata (Header_Metadata h)
  /\ ArchiveCount (Header_Metadata h) = Z.of_nat (length (Archives h))
  /\ Forall valid_ArchiveInfo (Archives h).

(* ================================================================== *)
(** * Checks of the embedding on the concrete database *)

Example open_reads_created_header :
  Scenario.result_of (Open Scenario.db)
  = Ret (mkWhisper
           (mkHeader (mkMetadata AGGREGATION_SUM 3600 Scenario.half 2)
                     [Scenario.fine; Scenario.coarse]), None).
Proof. vm_compute. reflexivity. Qed.

Example six_points_read_back :
  Scenario.result_of (readPointsBetweenOffsets Scenario.fine 436 508 Scenario.db_six)
  = Ret (Scenario.six, None).
Proof. vm_compute. reflexivity. Qed.

Example sum_of_six :
  aggregate AGGREGATION_SUM Scenario.six = Ret (mkPoint 0 (Scenario.f64 21), None).
Proof. vm_compute. reflexivity. Qed.

(* ================================================================== *)
(** * Basic facts *)

Lemma wrap_range z : U32.in_range (U32.wrap z).
Proof. unfold U32.in_range, U32.wrap, U32.modulus. apply Z.mod_pos_bound. lia. Qed.

Lemma wrap_small z : U32.in_range z -> U32.wrap z = z.
Proof. unfold U32.in_range, U32.wrap. intros H. now apply Z.mod_small. Qed.

Lemma sub_nonneg a b : 0 <= U32.sub a b.
Proof. exact (proj1 (wrap_range (a - b))). Qed.

Lemma bind_ret {A B} (a : A) (k : A -> IO B) f : bind (ret a) k f = k a f.
Proof. reflexivity. Qed.

Lemma bind_panic {A B} (p : panic) (k : A -> IO B) f :
  bind (lift (Panic p)) k f = Panic p.
Proof. reflexivity. Qed.

Lemma bind_lift_ret {A B} (a : A) (k : A -> IO B) f :
  bind (lift (Ret a)) k f = k a f.
Proof. reflexivity. Qed.

Lemma bind_assoc {A B C} (c : IO A) (k : A -> IO B) (h : B -> IO C) f :
  bind (bind c k) h f = bind c (fun a => bind (k a) h) f.
Proof. unfold bind. destruct (c f) as [[a f']|p]; reflexivity. Qed.

Lemma bind_ext {A B} (c : IO A) (k k' : A -> IO B) f :
  (forall a f', k a f' = k' a f') -> bind c k f = bind c k' f.
Proof. intros H. unfold bind. destruct (c f) as [[a f']|p]; auto. Qed.

(* ================================================================== *)
(** * The two halves of [propagate] *)

Lemma propagate_with_split aggregate_fn w timestamp higher lower f :
  propagate_with aggregate_fn w timestamp higher lower f
  = (x <- propagate_collect timestamp higher lower ;;
     match x with
     | inl e => ret (false, Some e)
     | inr (start, points) => propagate_decide aggregate_fn w higher lower start points
     end) f.
Proof.
  unfold propagate_with, propagate_collect, propagate_decide, nothing_to_propagate.
  rewrite bind_assoc. apply bind_ext. intros r f0. cbv beta zeta.
  rewrite bind_assoc. apply bind_ext. intros [off [e|]] f1; [reflexivity|].
  rewrite bind_assoc. apply bind_ext. intros n f2. cbv beta zeta.
  rewrite bind_assoc. apply bind_ext. intros rl f3. cbv beta zeta.
  rewrite bind_assoc. apply bind_ext. intros [points [e|]] f4; reflexivity.
Qed.

(* ================================================================== *)
(** * Panics: only a zero divisor, never an index *)

Lemma bind_no_index_panic {A B} (c : IO A) (k : A -> IO B) f :
  no_index_panic (c f) ->
  (forall a f', no_index_panic (k a f')) ->
  no_index_panic (bind c k f).
Proof.
  unfold no_index_panic, bind. intros Hc Hk.
  destruct (c f) as [[a f']|p]; [apply Hk|congruence].
Qed.

Lemma lift_div_no_index_panic a b f : no_index_panic (lift (u32_div a b) f).
Proof. unfold no_index_panic, lift, u32_div. destruct (b =? 0); discriminate. Qed.

Lemma lift_rem_no_index_panic a b f : no_index_panic (lift (u32_rem a b) f).
Proof. unfold no_index_panic, lift, u32_rem. destruct (b =? 0); discriminate. Qed.

Lemma ret_no_index_panic {A} (a : A) f : no_index_panic (ret a f).
Proof. discriminate. Qed.

Lemma file_Seek_no_index_panic o f : no_index_panic (file_Seek o f).
Proof. discriminate. Qed.

Lemma file_Write_no_index_panic bs f : no_index_panic (file_Write bs f).
Proof. discriminate. Qed.

Lemma io_ReadFull_returns n f : exists r f', io_ReadFull n f = Ret (r, f').
Proof.
  unfold io_ReadFull. destruct n; [eauto|].
  destruct (skipn _ _); [eauto|]. destruct (_ <? _)%nat; eauto.
Qed.

Lemma readPoints_returns offset n f : exists r f', readPoints offset n f = Ret (r, f').
Proof.
  unfold readPoints, bind, file_Seek, binary_Read_Points, bind.
  destruct (io_ReadFull_returns (n * 12) (mkFile (contents f) offset))
    as [[bs [e|]] [f' E]]; rewrite E; unfold ret; eauto.
Qed.

Lemma readPoint_returns offset f : exists r f', readPoint offset f = Ret (r, f').
Proof.
  unfold readPoint, bind.
  destruct (readPoints_returns offset 1 f) as [[ps e] [f' E]]. rewrite E.
  unfold ret. eauto.
Qed.

Lemma readPointsBetweenOffsets_returns archive s e f :
  exists r f', readPointsBetweenOffsets archive s e f = Ret (r, f').
Proof.
  unfold readPointsBetweenOffsets. destruct (s <? e); [apply readPoints_returns|].
  unfold bind.
  match goal with
  | |- context [readPoints ?o ?n f] =>
      destruct (readPoints_returns o n f) as [[ps [err|]] [f1 E]]; rewrite E
  end; [unfold ret; eauto|].
  match goal with
  | |- context [readPoints ?o ?n f1] =>
      destruct (readPoints_returns o n f1) as [[ps' err'] [f2 E']]; rewrite E'
  end. unfold ret. eauto.
Qed.

Lemma pointOffset_no_index_panic archive timestamp f :
  no_index_panic (pointOffset archive timestamp f).
Proof.
  unfold pointOffset. unfold bind at 1.
  destruct (readPoint_returns 0 f) as [[base [e|]] [f' E]]; rewrite E;
    [discriminate|].
  destruct (Timestamp base =? 0); [discriminate|].
  apply bind_no_index_panic; [apply lift_div_no_index_panic|]. intros.
  apply bind_no_index_panic; [apply lift_rem_no_index_panic|]. intros.
  apply ret_no_index_panic.
Qed.

Lemma writePoint_no_index_panic archive point f :
  no_index_panic (writePoint archive point f).
Proof.
  unfold writePoint, writePoints.
  destruct (_ >? _); [discriminate|].
  apply bind_no_index_panic; [apply pointOffset_no_index_panic|].
  intros [offset [e|]] f1; [discriminate|].
  apply bind_no_index_panic; [apply file_Seek_no_index_panic|].
  intros [e|] f2; [discriminate|].
  destruct (_ >? _).
  - apply bind_no_index_panic; [apply file_Write_no_index_panic|].
    intros [e|] f3; [discriminate|].
    apply bind_no_index_panic; [apply file_Seek_no_index_panic|].
    intros [e|] f4; [discriminate|]. apply file_Write_no_index_panic.
  - apply bind_no_index_panic; [apply file_Write_no_index_panic|].
    intros. apply ret_no_index_panic.
Qed.

Lemma propagate_collect_no_index_panic timestamp higher lower f :
  no_index_panic (propagate_collect timestamp higher lower f).
Proof.
  unfold propagate_collect.
  apply bind_no_index_panic; [apply lift_rem_no_index_panic|]. intros r f0.
  apply bind_no_index_panic; [apply pointOffset_no_index_panic|].
  intros [off [e|]] f1; [discriminate|].
  apply bind_no_index_panic; [apply lift_div_no_index_panic|]. intros n f2.
  apply bind_no_index_panic; [apply lift_rem_no_index_panic|]. intros rl f3.
  apply bind_no_index_panic.
  - match goal with
    | |- context [readPointsBetweenOffsets ?a ?b ?c f3] =>
        destruct (readPointsBetweenOffsets_returns a b c f3) as [x [f4 E]];
          rewrite E
    end. discriminate.
  - intros [points [e|]] f4; discriminate.
Qed.

(** On a non-empty list [aggregate] returns: the division of AVERAGE and
    the indexing of LAST, MAX and MIN have what they need. *)
Lemma aggregate_nonempty_returns m points :
  points <> [] -> exists r, aggregate m points = Ret r.
Proof.
  intros H. unfold aggregate.
  destruct (m =? AGGREGATION_AVERAGE); [eauto|].
  destruct (m =? AGGREGATION_SUM); [eauto|].
  destruct (m =? AGGREGATION_LAST).
  - destruct (rev points) as [|l ls] eqn:E; [|eauto].
    apply (f_equal (@rev Point)) in E. rewrite rev_involutive in E.
    simpl in E. congruence.
  - destruct (m =? AGGREGATION_MAX); [destruct points; [congruence|eauto]|].
    destruct (m =? AGGREGATION_MIN); [destruct points; [congruence|eauto]|].
    eauto.
Qed.

Lemma propagate_decide_agrees aggregate_fn w higher lower start points f :
  (forall m ps, ps <> [] -> aggregate_fn m ps = aggregate m ps) ->
  propagate_decide aggregate_fn w higher lower start points f
  = propagate_decide aggregate w higher lower start points f.
Proof.
  intros H. unfold propagate_decide, nothing_to_propagate.
  destruct (neighborPoints (SecondsPerPoint higher) start points) as [|p ps] eqn:E.
  - reflexivity.
  - rewrite H by discriminate. reflexivity.
Qed.

Lemma propagate_decide_no_index_panic w higher lower start points f :
  no_index_panic (propagate_decide aggregate w higher lower start points f).
Proof.
  unfold propagate_decide, nothing_to_propagate.
  destruct (neighborPoints (SecondsPerPoint higher) start points) as [|p ps] eqn:E.
  - discriminate.
  - destruct (_ || _); [discriminate|].
    destruct (aggregate_nonempty_returns
                (AggregationMethod (Header_Metadata (W_Header w))) (p :: ps))
      as [[pt [e|]] Hr]; try discriminate; unfold bind; rewrite Hr; simpl.
    + discriminate.
    + pose proof (writePoint_no_index_panic lower
                    (mkPoint start (Value pt)) f) as Hw.
      destruct (writePoint lower (mkPoint start (Value pt)) f) as [[x f']|q];
        [discriminate|].
      unfold no_index_panic in *. congruence.
Qed.

(** [propagate] never returns [true] together with an error. *)
Lemma propagate_true_no_error aggregate_fn w timestamp higher lower f e f' :
  propagate_with aggregate_fn w timestamp higher lower f = Ret ((true, e), f') ->
  e = None.
Proof.
  rewrite propagate_with_split. unfold bind at 1.
  destruct (propagate_collect timestamp higher lower f) as [[[err|[start points]] f0]|p];
    try discriminate.
  cbn. unfold propagate_decide. destruct (nothing_to_propagate _ _ _).
  - unfold ret. intros H. discriminate H.
  - unfold bind, lift, ret.
    destruct (aggregate_fn _ _) as [[pt [err|]]|p]; try discriminate.
    destruct (writePoint _ _ _) as [[x f1]|p]; try discriminate.
    intros H. now inversion H.
Qed.

(* ================================================================== *)
(** * The single-point update *)

Lemma Update_stale w now point f :
  MaxRetention (Header_Metadata (W_Header w)) <= U32.sub now (Timestamp point) ->
  Update w now point f = Ret (None, f).
Proof.
  intros H. unfold Update.
  replace (U32.sub now (Timestamp point)
           <? MaxRetention (Header_Metadata (W_Header w))) with false
    by (symmetry; apply Z.ltb_ge; exact H).
  reflexivity.
Qed.

(** Past the stale check [Update] takes the remainder of the timestamp
    by the resolution of a [currentArchive] that is still the zero
    value. *)
Lemma Update_fresh_panics w now point f :
  U32.sub now (Timestamp point) < MaxRetention (Header_Metadata (W_Header w)) ->
  Update w now point f = Panic DivideByZero.
Proof.
  intros H. unfold Update.
  replace (U32.sub now (Timestamp point)
           <? MaxRetention (Header_Metadata (W_Header w))) with true
    by (symmetry; apply Z.ltb_lt; exact H).
  replace (U32.sub now (Timestamp point) >=? 0) with true
    by (symmetry; apply Z.geb_le; apply sub_nonneg).
  reflexivity.
Qed.

(** X5. [Update] either turns the point away without an error or panics:
    it never reaches the point write. *)
Theorem Update_outcome :
  forall (w : Whisper) (now : Z) (point : Point) (f : File),
    Update w now point f
    = if U32.sub now (Timestamp point) <? MaxRetention (Header_Metadata (W_Header w))
      then Panic DivideByZero
      else Ret (None, f).
Proof.
  intros w now point f.
  destruct (Z.ltb_spec (U32.sub now (Timestamp point))
                       (MaxRetention (Header_Metadata (W_Header w)))) as [H|H].
  - now apply Update_fresh_panics.
  - now apply Update_stale.
Qed.

(** The selection loop keeps going after the first archive that covers
    the age: when the last archive covers it, no archive is left for the
    propagation. *)
Lemma Update_select_last_covering archives :
  forall last diff lowerArchives,
    diff <= Retention last ->
    Update_select (archives ++ [last]) diff lowerArchives = [].
Proof.
  induction archives as [|a rest IH]; intros last diff lowerArchives H.
  - cbn. now replace (Retention last <? diff) with false
      by (symmetry; apply Z.ltb_ge; exact H).
  - cbn [app Update_select]. destruct (Retention a <? diff); now apply IH.
Qed.

(** X6. The propagation loop of [Update] hands back the error it was given:
    whatever [propagate] reports, the loop leaves [err] as the point
    write set it. *)
Theorem Update_propagate_returns_err :
  forall (lowerArchives : list ArchiveInfo) (w : Whisper) (timestamp : Z)
         (higherArchive : ArchiveInfo) (err : option error) (f : File),
    match Update_propagate w timestamp higherArchive lowerArchives err f with
    | Ret (r, _) => r = err
    | Panic _ => True
    end.
Proof.
  induction lowerArchives as [|lowerArchive rest IH]; intros w ts higher err f.
  - reflexivity.
  - cbn [Update_propagate]. unfold bind.
    destruct (propagate w ts higher lowerArchive f) as [[[result e] f1]|p] eqn:E;
      [|exact I].
    destruct result; cbn [negb].
    + apply propagate_true_no_error in E. subst e. apply IH.
    + reflexivity.
Qed.

(** C1. The single-point update does not write the point to the finest
    archive that covers its age: for a point ten seconds old in a
    database of a ten-minute and an hour archive, the chain the selection
    loop leaves is empty rather than the hour archive, and [Update]
    divides the timestamp by the resolution of the zero archive. *)
Theorem Update_does_not_reach_the_finest_archive :
  U32.sub 100000 99990 <= Retention Scenario.fine
  /\ Update_select (Archives (W_Header Scenario.w)) (U32.sub 100000 99990) [] = []
  /\ Update Scenario.w 100000 (mkPoint 99990 (Scenario.f64 7)) Scenario.db
     = Panic DivideByZero.
Proof.
  split; [vm_compute; discriminate|].
  split; [vm_compute; reflexivity|].
  apply Update_fresh_panics. vm_compute. reflexivity.
Qed.

(** C4. A point whose age equals the maximum retention is turned away
    with no error at all, the file untouched; a point of age zero is
    past the check and [Update] panics. *)
Theorem Update_stale_point_is_no_error :
  U32.sub 100000 96400 = MaxRetention (Header_Metadata (W_Header Scenario.w))
  /\ Update Scenario.w 100000 (mkPoint 96400 (Scenario.f64 7)) Scenario.db
     = Ret (None, Scenario.db)
  /\ Update Scenario.w 100000 (mkPoint 100000 (Scenario.f64 7)) Scenario.db
     = Panic DivideByZero.
Proof.
  split; [vm_compute; reflexivity|].
  split.
  - apply Update_stale. vm_compute. discriminate.
  - apply Update_fresh_panics. vm_compute. reflexivity.
Qed.

(* ================================================================== *)
(** * Propagation *)

(** X7. The loop of [propagate] counts at most every second slot. *)
Lemma neighborPoints_at_most_half step :
  forall points currentInterval,
    (2 * length (neighborPoints step currentInterval points)
     <= length points + 1)%nat.
Proof.
  fix IH 1. intros [|p [|q rest]] cur.
  - simpl. lia.
  - simpl. destruct (Timestamp p =? cur); simpl; lia.
  - cbn [neighborPoints]. specialize (IH rest (U32.add cur step)).
    rewrite length_app. destruct (Timestamp p =? cur); simpl length; lia.
Qed.

(** C2. Six contiguous points fill the six slots of the minute starting
    at 99960, each slot [i] holding the timestamp [99960 + 10 i];
    [propagate] looks at slots 0, 2 and 4 only, against 99960, 99970 and
    99980, counts one known point where there are six, and with
    x-files-factor one half writes nothing and returns false. *)
Theorem propagate_skips_every_second_slot :
  Scenario.result_of
    (propagate_collect 99960 Scenario.fine Scenario.coarse Scenario.db_six)
  = Ret (inr (99960, Scenario.six))
  /\ map Timestamp Scenario.six = map (fun i => 99960 + i * 10) [0; 1; 2; 3; 4; 5]
  /\ neighborPoints 10 99960 Scenario.six = [mkPoint 99960 (Scenario.f64 1)]
  /\ Float.ltb (Float.div32 (Float.of_int32 6) (Float.of_int32 6)) Scenario.half
     = false
  /\ Scenario.result_of
       (propagate Scenario.w 99960 Scenario.fine Scenario.coarse Scenario.db_six)
     = Ret (false, None)
  /\ contents
       (Scenario.file_of
          (propagate Scenario.w 99960 Scenario.fine Scenario.coarse Scenario.db_six))
     = contents Scenario.db_six.
Proof. repeat split; vm_compute; reflexivity. Qed.

(** C3. The archive at offset 736 is empty, its first point has
    timestamp zero, and [pointOffset] does not return 736: the base it
    reads is the twelve bytes at offset 0 of the file, whose first four
    are the aggregation method. *)
Theorem pointOffset_reads_the_base_at_offset_zero :
  Scenario.result_of (readPoint (Offset Scenario.coarse) Scenario.db)
  = Ret (zero_Point, None)
  /\ Scenario.result_of
       (bind (readPoint 0) (fun r => ret (Timestamp (fst r))) Scenario.db)
     = Ret AGGREGATION_SUM
  /\ Scenario.result_of (pointOffset Scenario.coarse 99960 Scenario.db)
     = Ret (736 + ((99960 - 2) / 60 * 12) mod 720, None)
  /\ 736 + ((99960 - 2) / 60 * 12) mod 720 = 1276.
Proof. repeat split; vm_compute; reflexivity. Qed.

(* ================================================================== *)
(** * Creation *)

(** C5. For a ten-minute and an hour archive of sixty points each the
    dense file has the 1480 bytes of header, descriptors and archives;
    the sparse one has 1440, the seek to its last byte being counted from
    the start of the file. *)
Theorem Create_sparse_file_is_short :
  Scenario.result_of (Create Scenario.schema Scenario.half AGGREGATION_SUM true new_file)
  = Ret None
  /\ Z.of_nat (length (contents Scenario.db_sparse)) = 60 * 12 + 60 * 12
  /\ Z.of_nat (length (contents Scenario.db)) = 16 + 12 * 2 + (60 * 12 + 60 * 12).
Proof. repeat split; vm_compute; reflexivity. Qed.

(* ================================================================== *)
(** * Validation *)

(** C8. A list whose finest archive has resolution zero breaks the
    third rule, and [ValidateArchiveList] does not reject it with an
    error: it takes the remainder by zero. *)
Theorem ValidateArchiveList_divides_by_a_zero_resolution :
  ValidateArchiveList [mkArchiveInfo 0 0 60; mkArchiveInfo 0 10 60]
  = Panic DivideByZero.
Proof. vm_compute. reflexivity. Qed.

(* ================================================================== *)
(** * Aggregation is only ever asked about known points *)

(** C10. [propagate] never applies [aggregate] to an empty list: its
    outcome is the same for every aggregation function that agrees with
    [aggregate] on the non-empty lists; when no neighbour point was
    collected it returns [(false, nil)] straight after the read; and it
    never panics on an index, so that the division of AVERAGE and the
    indexing of LAST, MAX and MIN always have a non-empty list. *)
Theorem propagate_never_aggregates_nothing :
  forall (aggregate_fn : Z -> list Point -> go (Point * option error))
         (w : Whisper) (timestamp : Z) (higher lower : ArchiveInfo) (f : File),
    (forall m ps, ps <> [] -> aggregate_fn m ps = aggregate m ps) ->
    propagate_with aggregate_fn w timestamp higher lower f
    = propagate w timestamp higher lower f
    /\ (forall start points f',
           propagate_collect timestamp higher lower f = Ret (inr (start, points), f') ->
           neighborPoints (SecondsPerPoint higher) start points = [] ->
           propagate w timestamp higher lower f = Ret ((false, None), f'))
    /\ propagate w timestamp higher lower f <> Panic IndexOutOfRange.
Proof.
  intros aggregate_fn w timestamp higher lower f Hagree.
  unfold propagate. repeat split.
  - rewrite !propagate_with_split. apply bind_ext.
    intros [e|[start points]] f'; [reflexivity|].
    now apply propagate_decide_agrees.
  - intros start points f' Hcollect Hnone.
    rewrite propagate_with_split. unfold bind. rewrite Hcollect.
    unfold propagate_decide, nothing_to_propagate. rewrite Hnone. reflexivity.
  - rewrite propagate_with_split. apply bind_no_index_panic.
    + apply propagate_collect_no_index_panic.
    + intros [e|[start points]] f'; [discriminate|].
      apply propagate_decide_no_index_panic.
Qed.

Lemma propagate_never_aggregates_nothing_witness :
  propagate_with aggregate_or_zero Scenario.w 99960 Scenario.fine Scenario.coarse
    Scenario.db_six
  = propagate Scenario.w 99960 Scenario.fine Scenario.coarse Scenario.db_six
  /\ (forall start points f',
         propagate_collect 99960 Scenario.fine Scenario.coarse Scenario.db_six
         = Ret (inr (start, points), f') ->
         neighborPoints (SecondsPerPoint Scenario.fine) start points = [] ->
         propagate Scenario.w 99960 Scenario.fine Scenario.coarse Scenario.db_six
         = Ret ((false, None), f'))
  /\ propagate Scenario.w 99960 Scenario.fine Scenario.coarse Scenario.db_six
     <> Panic IndexOutOfRange.
Proof.
  apply (propagate_never_aggregates_nothing aggregate_or_zero).
  intros m [|p ps] H; [congruence|reflexivity].
Defined.

(** On the freshly created database the six slots read are all unused:
    no neighbour is collected, and [propagate] returns [(false, nil)]. *)
Example propagate_on_unused_slots :
  Scenario.result_of
    (propagate_collect 99960 Scenario.fine Scenario.coarse Scenario.db)
  = Ret (inr (99960, repeat zero_Point 6))
  /\ neighborPoints 10 99960 (repeat zero_Point 6) = []
  /\ Scenario.result_of
       (propagate Scenario.w 99960 Scenario.fine Scenario.coarse Scenario.db)
     = Ret (false, None).
Proof. repeat split; vm_compute; reflexivity. Qed.

(* ================================================================== *)
(** * Writing a run of points *)

Lemma pwrite_length data off bs :
  bs <> [] ->
  length (pwrite data off bs) = Nat.max (length data) (off + length bs).
Proof.
  intros H. destruct bs as [|b bs]; [congruence|].
  unfold pwrite, Codec.zeros.
  rewrite !length_app, length_firstn, repeat_length, length_skipn.
  simpl length. lia.
Qed.

(** What was written at [off] is what is read there afterwards. *)
Lemma pwrite_reads_back data off bs :
  firstn (length bs) (skipn off (pwrite data off bs)) = bs.
Proof.
  destruct bs as [|b bs]; [reflexivity|].
  unfold pwrite, Codec.zeros.
  assert (Hlen : length (firstn off data ++ repeat Byte.x00 (off - length data)) = off).
  { rewrite length_app, length_firstn, repeat_length. lia. }
  rewrite app_assoc. rewrite skipn_app, Hlen, Nat.sub_diag.
  rewrite skipn_all2 by lia. cbn [skipn app].
  change (b :: bs ++ skipn (off + length (b :: bs)) data)
    with ((b :: bs) ++ skipn (off + length (b :: bs)) data).
  rewrite firstn_app, Nat.sub_diag, firstn_all. cbn [firstn]. apply app_nil_r.
Qed.

Lemma io_ReadFull_contents n f r f' :
  io_ReadFull n f = Ret (r, f') -> contents f' = contents f.
Proof.
  unfold io_ReadFull. destruct n; [congruence|].
  destruct (skipn _ _); [congruence|].
  destruct (_ <? _)%nat; intros H; inversion H; reflexivity.
Qed.

Lemma readPoints_contents offset n f r f' :
  readPoints offset n f = Ret (r, f') -> contents f' = contents f.
Proof.
  unfold readPoints, bind, file_Seek, binary_Read_Points, bind.
  destruct (io_ReadFull _ _) as [[[bs [e|]] f1]|p] eqn:E; try discriminate;
    apply io_ReadFull_contents in E; unfold ret; intros H; inversion H; subst;
    exact E.
Qed.

Lemma readPoint_contents offset f r f' :
  readPoint offset f = Ret (r, f') -> contents f' = contents f.
Proof.
  unfold readPoint, bind.
  destruct (readPoints offset 1 f) as [[[ps e] f1]|p] eqn:E; [|discriminate].
  apply readPoints_contents in E. unfold ret. intros H. inversion H. now subst.
Qed.

(** [pointOffset] only reads. *)
Lemma pointOffset_contents archive timestamp f r f' :
  pointOffset archive timestamp f = Ret (r, f') -> contents f' = contents f.
Proof.
  unfold pointOffset. unfold bind at 1.
  destruct (readPoint 0 f) as [[[base [e|]] f1]|p] eqn:E; try discriminate;
    apply readPoint_contents in E.
  - unfold ret. intros H. inversion H. now subst.
  - destruct (Timestamp base =? 0).
    + unfold ret. intros H. inversion H. now subst.
    + unfold bind, lift, ret, u32_div, u32_rem.
      destruct (SecondsPerPoint archive =? 0); [discriminate|].
      destruct (size archive =? 0); [discriminate|].
      intros H. inversion H. now subst.
Qed.

(** C7. A run of at most [archive.points] points, starting at the
    offset [pointOffset] gives for its first point: when fewer than
    [|points|] records fit between that offset and the end of the
    archive, the first [capacity_to_end] records are written at the
    offset and the others from [archive.offset] on; when they all fit,
    they are written at the offset in one piece. *)
Theorem writePoints_wraps_at_the_end :
  forall (archive : ArchiveInfo) (points : list Point) (first : Point)
         (offset : Z) (f f1 : File),
    U32.in_range (Points archive) ->
    Z.of_nat (length points) <= Points archive ->
    hd_error points = Some first ->
    pointOffset archive (Timestamp first) f = Ret ((offset, None), f1) ->
    let capacity_to_end := U32.sub (archive_end archive) offset / pointSize in
    let k := Z.to_nat capacity_to_end in
    exists f',
      writePoints archive points f = Ret (None, f')
      /\ contents f'
         = if Z.of_nat (length points) >? capacity_to_end then
             pwrite (pwrite (contents f) (Z.to_nat offset)
                            (encode_Points (firstn k points)))
                    (Z.to_nat (Offset archive))
                    (encode_Points (skipn k points))
           else pwrite (contents f) (Z.to_nat offset) (encode_Points points).
Proof.
  intros archive points first offset f f1 Hrange Hlen Hfirst Hoff capacity_to_end k.
  assert (Hn : len32 points = Z.of_nat (length points)).
  { unfold len32. apply wrap_small. unfold U32.in_range in *. lia. }
  destruct points as [|p rest]; [discriminate|].
  injection Hfirst as ->.
  pose proof (pointOffset_contents _ _ _ _ _ Hoff) as Hc.
  unfold writePoints. rewrite Hn.
  replace (Z.of_nat (length (first :: rest)) >? Points archive) with false
    by (symmetry; rewrite Z.gtb_ltb; apply Z.ltb_ge; exact Hlen).
  unfold bind at 1. rewrite Hoff.
  unfold bind at 1. unfold file_Seek at 1. cbn [contents cursor].
  fold capacity_to_end.
  destruct (Z.of_nat (length (first :: rest)) >? capacity_to_end).
  - fold k. unfold bind, binary_Write_Points, file_Write, file_Seek.
    cbn [contents cursor]. eexists. split; [reflexivity|].
    cbn [contents]. now rewrite Hc.
  - unfold bind, binary_Write_Points, file_Write, ret.
    cbn [contents cursor]. eexists. split; [reflexivity|].
    cbn [contents]. now rewrite Hc.
Qed.

Lemma writePoints_wraps_at_the_end_witness :
  exists f',
    writePoints ring run ring_db = Ret (None, f')
    /\ contents f'
       = pwrite (pwrite (contents ring_db) 40 (encode_Points (firstn 3 run)))
                16 (encode_Points (skipn 3 run)).
Proof.
  refine (writePoints_wraps_at_the_end ring run (mkPoint 130 (Scenario.f64 1)) 40
            ring_db (Scenario.file_of (pointOffset ring 130 ring_db)) _ _ _ _).
  - unfold U32.in_range, U32.modulus. simpl. lia.
  - simpl. lia.
  - reflexivity.
  - vm_compute. reflexivity.
Defined.

Example run_wraps_in_the_ring :
  Scenario.result_of
    (bind (writePoints ring run) (fun _ => readPoints 16 5) ring_db)
  = Ret ([mkPoint 160 (Scenario.f64 4); zero_Point; mkPoint 130 (Scenario.f64 1);
          mkPoint 140 (Scenario.f64 2); mkPoint 150 (Scenario.f64 3)], None).
Proof. vm_compute. reflexivity. Qed.

(* ================================================================== *)
(** * The batch update *)

Lemma advance_unfold w currentArchive after currentPoints a f :
  advance w currentArchive after currentPoints a f
  = (if Retention currentArchive <? a then
       currentPoints' <-
         match currentPoints with
         | [] => ret []
         | _ :: _ => flush w currentArchive currentPoints ;;; ret []
         end ;;
       match after with
       | next :: after' => advance w next after' currentPoints' a
       | [] => ret (None, currentPoints')
       end
     else ret (Some (currentArchive, after), currentPoints)) f.
Proof. destruct after; reflexivity. Qed.

Lemma filter_covered now r points :
  Forall (fun p => age now p <= r) points ->
  filter (fun p => age now p <=? r) points = points
  /\ filter (fun p => r <? age now p) points = [].
Proof.
  induction 1 as [|p ps Hp _ [IH1 IH2]]; [split; reflexivity|].
  cbn [filter]. rewrite IH1, IH2.
  replace (age now p <=? r) with true by (symmetry; now apply Z.leb_le).
  replace (r <? age now p) with false by (symmetry; apply Z.ltb_ge; exact Hp).
  split; reflexivity.
Qed.

Lemma filter_beyond now r points :
  Forall (fun p => r < age now p) points ->
  filter (fun p => age now p <=? r) points = []
  /\ filter (fun p => r <? age now p) points = points.
Proof.
  induction 1 as [|p ps Hp _ [IH1 IH2]]; [split; reflexivity|].
  cbn [filter]. rewrite IH1, IH2.
  replace (age now p <=? r) with false by (symmetry; apply Z.leb_gt; exact Hp).
  replace (r <? age now p) with true by (symmetry; now apply Z.ltb_lt).
  split; reflexivity.
Qed.

Lemma flush_buckets_nil w now archives f :
  flush_buckets w now archives [] f = Ret (tt, f).
Proof.
  induction archives as [|a rest IH]; [reflexivity|].
  cbn [flush_buckets filter flush_if_any]. unfold bind at 1. cbn. exact IH.
Qed.

(** A bucket of covered points followed by points beyond the archive's
    retention: the bucket is the archive's, the rest goes on. *)
Lemma flush_buckets_split w now a rest bucket points f :
  Forall (fun p => age now p <= Retention a) bucket ->
  Forall (fun p => Retention a < age now p) points ->
  flush_buckets w now (a :: rest) (bucket ++ points) f
  = (flush_if_any w a bucket ;;; flush_buckets w now rest points) f.
Proof.
  intros Hb Hp. cbn [flush_buckets]. rewrite !filter_app.
  destruct (filter_covered now _ _ Hb) as [-> ->].
  destruct (filter_beyond now _ _ Hp) as [-> ->].
  now rewrite app_nil_r.
Qed.

Lemma sorted_beyond now r p ps :
  StronglySorted (fun p q => age now p <= age now q) (p :: ps) ->
  r < age now p ->
  Forall (fun q => r < age now q) (p :: ps).
Proof.
  intros Hs Hr. apply StronglySorted_inv in Hs as [_ Hall].
  constructor; [exact Hr|].
  eapply Forall_impl; [|exact Hall]. cbn. intros q Hq. lia.
Qed.

Lemma bind_cong {A B} (c c' : IO A) (k : A -> IO B) f :
  c f = c' f -> bind c k f = bind c' k f.
Proof. intros H. unfold bind. now rewrite H. Qed.

(** The loop over the points, started with a bucket of points the
    current archive covers, on points in the order of their ages. *)
Lemma PointLoop_partitions w now :
  forall points currentArchive after bucket f,
    Forall (fun p => age now p <= Retention currentArchive) bucket ->
    StronglySorted (fun p q => age now p <= age now q) points ->
    (r <- PointLoop w now currentArchive after bucket points ;; finish w r) f
    = (flush_buckets w now (currentArchive :: after) (bucket ++ points) ;;;
       ret None) f.
Proof.
  induction points as [|p ps IHps]; intros cur after bucket f Hb Hs.
  - cbn [PointLoop]. rewrite bind_ret.
    rewrite (bind_cong _ _ _ _
               (flush_buckets_split w now cur after bucket [] f Hb (Forall_nil _))).
    rewrite bind_assoc. destruct bucket as [|b bs].
    + cbn [flush_if_any finish]. rewrite bind_ret. unfold bind.
      now rewrite flush_buckets_nil.
    + cbn [flush_if_any finish]. unfold bind.
      destruct (flush w cur (b :: bs) f) as [[u f']|q]; [|reflexivity].
      now rewrite flush_buckets_nil.
  - cbn [PointLoop]. rewrite bind_assoc.
    fold (age now p).
    apply StronglySorted_inv in Hs as Hs'. destruct Hs' as [Hps Hall].
    revert cur bucket f Hb.
    induction after as [|next after' IHafter]; intros cur bucket f Hb;
      rewrite (bind_cong _ _ _ _ (advance_unfold w cur _ bucket (age now p) f));
      destruct (Retention cur <? age now p) eqn:Hcur.
    + (* beyond the last archive: the rest is dropped *)
      apply Z.ltb_lt in Hcur.
      rewrite (bind_cong _ _ _ _
                 (flush_buckets_split w now cur [] bucket (p :: ps) f Hb
                    (sorted_beyond now _ p ps Hs Hcur))).
      rewrite !bind_assoc. destruct bucket as [|b bs].
      * reflexivity.
      * cbn [flush_if_any]. unfold flush at 1. rewrite !bind_assoc.
        unfold flush at 1. rewrite !bind_assoc. apply bind_ext. reflexivity.
    + (* covered by the last archive *)
      apply Z.ltb_ge in Hcur. rewrite bind_ret.
      rewrite IHps; [now rewrite <- app_assoc| |exact Hps].
      apply Forall_app. split; [exact Hb|]. constructor; [exact Hcur|constructor].
    + (* beyond this archive: flush, and on to the next *)
      apply Z.ltb_lt in Hcur.
      rewrite (bind_cong _ _ _ _
                 (flush_buckets_split w now cur (next :: after') bucket (p :: ps) f Hb
                    (sorted_beyond now _ p ps Hs Hcur))).
      rewrite !bind_assoc. destruct bucket as [|b bs].
      * rewrite !bind_ret. cbn [flush_if_any]. rewrite bind_ret.
        rewrite IHafter by constructor. reflexivity.
      * cbn [flush_if_any]. unfold flush at 1. rewrite !bind_assoc.
        unfold flush at 1. rewrite !bind_assoc. apply bind_ext. intros a f'.
        rewrite !bind_ret. rewrite IHafter by constructor. reflexivity.
    + (* covered by this archive *)
      apply Z.ltb_ge in Hcur. rewrite bind_ret.
      rewrite IHps; [now rewrite <- app_assoc| |exact Hps].
      apply Forall_app. split; [exact Hb|]. constructor; [exact Hcur|constructor].
Qed.

(** X28. On a database with at least one archive, for a batch whose
    points come in the order of their ages, youngest first: [UpdateMany]
    puts every point in the bucket of the first archive of the header
    whose retention covers its age, hands each non-empty bucket to
    [archiveUpdateMany] for its archive, and drops the points whose age
    is beyond every retention. *)
Theorem UpdateMany_partitions_a_batch_in_age_order :
  forall (w : Whisper) (now : Z) (points : list Point) (f : File),
    Archives (W_Header w) <> [] ->
    StronglySorted (fun p q => age now p <= age now q) points ->
    UpdateMany w now points f
    = (flush_buckets w now (Archives (W_Header w)) points ;;; ret None) f.
Proof.
  intros w now points f Harchives Hsorted. unfold UpdateMany.
  destruct (Archives (W_Header w)) as [|first after]; [congruence|].
  exact (PointLoop_partitions w now points first after [] f (Forall_nil _) Hsorted).
Qed.

Lemma UpdateMany_partitions_a_batch_in_age_order_witness :
  UpdateMany Scenario.w 100000 [fresh; aged; old] Scenario.db
  = (flush_buckets Scenario.w 100000 (Archives (W_Header Scenario.w))
       [fresh; aged; old] ;;; ret None) Scenario.db.
Proof.
  apply UpdateMany_partitions_a_batch_in_age_order.
  - vm_compute. discriminate.
  - repeat constructor; vm_compute; discriminate.
Defined.

(** C6. In the batch [old; fresh] the fresh point is covered by the
    finest archive and the old one by none.  [UpdateMany] leaves its loop
    at the old point, under the comment "Drop remaining points that
    don't fit in the db", and the fresh point, which fits, goes with it:
    the file is left as it was.  In the order [fresh; old] the fresh
    point is written to the finest archive. *)
Lemma UpdateMany_drops_a_fresh_point_after_an_old_one :
  age 100000 fresh <= Retention Scenario.fine
  /\ Retention Scenario.fine < age 100000 old
  /\ Retention Scenario.coarse < age 100000 old
  /\ UpdateMany Scenario.w 100000 [old; fresh] Scenario.db = Ret (None, Scenario.db)
  /\ Scenario.result_of
       (bind (UpdateMany Scenario.w 100000 [fresh; old]) (fun _ => readPoint 472)
             Scenario.db)
     = Ret (mkPoint 99990 (Scenario.f64 2), None).
Proof.
  split; [vm_compute; discriminate|].
  split; [vm_compute; reflexivity|].
  split; [vm_compute; reflexivity|].
  split; vm_compute; reflexivity.
Qed.

(* ================================================================== *)
(** * The length of a created file *)

Lemma be_encode_length n z : length (Codec.be_encode n z) = n.
Proof. induction n as [|n IH]; [reflexivity|]. simpl. now rewrite IH. Qed.

Lemma encode_ArchiveInfo_length a : length (encode_ArchiveInfo a) = 12%nat.
Proof. unfold encode_ArchiveInfo. now rewrite !length_app, !be_encode_length. Qed.

Lemma encode_Metadata_length m : length (encode_Metadata m) = 16%nat.
Proof. unfold encode_Metadata. now rewrite !length_app, !be_encode_length. Qed.

Lemma pwrite_at_end data bs : pwrite data (length data) bs = data ++ bs.
Proof.
  destruct bs as [|b bs]; [now rewrite app_nil_r|].
  unfold pwrite, Codec.zeros.
  rewrite firstn_all, Nat.sub_diag, skipn_all2 by lia.
  cbn [repeat app]. now rewrite app_nil_r.
Qed.

Lemma file_Write_at_end bs f :
  at_end f ->
  exists f',
    file_Write bs f = Ret (None, f')
    /\ at_end f' /\ contents f' = contents f ++ bs.
Proof.
  unfold at_end, file_Write. intros H. eexists. split; [reflexivity|].
  cbn [contents cursor]. rewrite H, Nat2Z.id, pwrite_at_end.
  split; [|reflexivity]. rewrite length_app. lia.
Qed.

Lemma write_descriptors_appends archives :
  forall p f,
    at_end f ->
    exists p' f',
      write_descriptors archives p f = Ret ((p', None), f')
      /\ at_end f'
      /\ length (contents f') = (length (contents f) + 12 * length archives)%nat
      /\ U32.wrap p' = U32.wrap (p + archive_bytes archives).
Proof.
  induction archives as [|a rest IH]; intros p f Hend.
  - exists p, f. cbn. rewrite Z.add_0_r, Nat.add_0_r. auto.
  - cbn [write_descriptors]. unfold bind at 1.
    destruct (file_Write_at_end
                (encode_ArchiveInfo (mkArchiveInfo p (SecondsPerPoint a) (Points a)))
                f Hend) as [f1 [-> [Hend1 Hc1]]].
    cbn [Points].
    destruct (IH (U32.add p (U32.mul (Points a) pointSize)) f1 Hend1)
      as [p' [f' [-> [Hend' [Hlen Hp]]]]].
    exists p', f'. repeat split; auto.
    + rewrite Hlen, Hc1, length_app, encode_ArchiveInfo_length. simpl length. lia.
    + rewrite Hp. cbn [Points archive_bytes fold_right]. fold (archive_bytes rest).
      unfold U32.add, U32.mul, U32.wrap.
      rewrite Zplus_mod_idemp_l, <- Z.add_assoc, (Z.add_comm p), <- Z.add_assoc.
      rewrite Zplus_mod_idemp_l. f_equal. lia.
Qed.

Lemma write_chunks_fills fuel :
  forall remaining f,
    at_end f ->
    0 <= remaining < U32.modulus ->
    (Z.to_nat remaining <= fuel)%nat ->
    exists r f',
      write_chunks fuel remaining f = Ret (r, f')
      /\ at_end f'
      /\ 0 <= r <= chunkSize
      /\ Z.of_nat (length (contents f')) + r
         = Z.of_nat (length (contents f)) + remaining.
Proof.
  unfold chunkSize.
  induction fuel as [|fuel IH]; intros remaining f Hend Hr Hfuel.
  - exists remaining, f. cbn. repeat split; auto; lia.
  - cbn [write_chunks]. unfold chunkSize.
    destruct (remaining >? 16384) eqn:Hgt.
    + apply Z.gtb_lt in Hgt. unfold bind at 1.
      destruct (file_Write_at_end (Codec.zeros (Z.to_nat 16384)) f Hend)
        as [f1 [-> [Hend1 Hc1]]].
      assert (Hsub : U32.sub remaining 16384 = remaining - 16384).
      { unfold U32.sub. apply wrap_small. unfold U32.in_range. lia. }
      rewrite Hsub.
      destruct (IH (remaining - 16384) f1 Hend1) as [r [f' [-> [Hend' [Hb Hlen]]]]];
        [lia|lia|].
      exists r, f'. repeat split; auto; try lia.
      rewrite Hlen, Hc1, length_app. unfold Codec.zeros. rewrite repeat_length. lia.
    + exists remaining, f. unfold ret. repeat split; auto; lia.
Qed.

(** The header and the descriptors, as [Create] writes them before it
    allocates the archives. *)
Lemma Create_header archives xFilesFactor aggregationMethod :
  exists p f,
    (let oldest :=
       fold_left (fun oldest archive =>
                    let age := U32.mul (SecondsPerPoint archive) (Points archive) in
                    if age >? oldest then age else oldest)
                 archives 0 in
     err <- file_Write
              (encode_Metadata
                 (mkMetadata aggregationMethod oldest xFilesFactor (len32 archives))) ;;
     match err with
     | Some e => ret (0, Some e)
     | None =>
         write_descriptors archives
           (U32.add metadataSize (U32.mul archiveSize (len32 archives)))
     end) new_file = Ret ((p, None), f)
    /\ at_end f
    /\ Z.of_nat (length (contents f)) = 16 + 12 * Z.of_nat (length archives)
    /\ U32.sub p (U32.add metadataSize (U32.mul archiveSize (len32 archives)))
       = U32.wrap (archive_bytes archives).
Proof.
  cbv zeta. unfold bind at 1.
  match goal with
  | |- context [file_Write ?bs new_file] =>
      destruct (file_Write_at_end bs new_file eq_refl) as [f0 [-> [Hend0 Hc0]]]
  end.
  match goal with
  | |- context [write_descriptors archives ?p0 f0] =>
      destruct (write_descriptors_appends archives p0 f0 Hend0)
        as [p [f [-> [Hend [Hlen Hp]]]]]
  end.
  exists p, f. repeat split; auto.
  - rewrite Hlen, Hc0, length_app, encode_Metadata_length. simpl length.
    clear. lia.
  - unfold U32.sub, U32.wrap in *. rewrite <- Zminus_mod_idemp_l, Hp.
    rewrite Zminus_mod_idemp_l. f_equal.
    replace (U32.add metadataSize (U32.mul archiveSize (len32 archives))) with 16
      by reflexivity.
    lia.
Qed.

(** X1. Dense creation: the file has the sixteen bytes of the metadata,
    twelve for every descriptor, and the archives' bytes as the 32-bit
    offset arithmetic counts them. *)
Theorem Create_dense_length :
  forall (archives : list ArchiveInfo) (xFilesFactor : Float.float32)
         (aggregationMethod : Z),
  exists f,
    Create archives xFilesFactor aggregationMethod false new_file = Ret (None, f)
    /\ Z.of_nat (length (contents f))
       = 16 + 12 * Z.of_nat (length archives) + U32.wrap (archive_bytes archives).
Proof.
  intros archives xff m.
  destruct (Create_header archives xff m) as [p [f0 [Hrun [Hend [Hlen Hp]]]]].
  cbv zeta in Hrun. unfold bind at 1, file_Write at 1 in Hrun.
  cbv beta iota in Hrun.
  unfold Create. unfold bind at 1, file_Write at 1. cbv beta iota.
  unfold bind at 1. rewrite Hrun. cbv beta iota zeta. rewrite Hp.
  pose proof (wrap_range (archive_bytes archives)) as Hr.
  unfold U32.in_range in Hr.
  destruct (write_chunks_fills
              (Z.to_nat (U32.wrap (archive_bytes archives)))
              (U32.wrap (archive_bytes archives)) f0 Hend Hr (Nat.le_refl _))
    as [r [f2 [Hchunks [Hend2 [Hb Hlen2]]]]].
  unfold bind at 1. rewrite Hchunks.
  destruct (file_Write_at_end (Codec.zeros (Z.to_nat r)) f2 Hend2)
    as [f3 [Hw [Hend3 Hc3]]].
  unfold bind. rewrite Hw. exists f3. split; [reflexivity|].
  rewrite Hc3, length_app. unfold Codec.zeros. rewrite repeat_length. lia.
Qed.

(** X2. Sparse creation: the single zero byte goes to the position the
    archives' bytes give when counted from the start of the file, so the
    file ends there unless the header already reaches further. *)
Theorem Create_sparse_length :
  forall (archives : list ArchiveInfo) (xFilesFactor : Float.float32)
         (aggregationMethod : Z),
  exists f,
    Create archives xFilesFactor aggregationMethod true new_file = Ret (None, f)
    /\ Z.of_nat (length (contents f))
       = Z.max (16 + 12 * Z.of_nat (length archives))
               (U32.wrap (archive_bytes archives - 1) + 1).
Proof.
  intros archives xff m.
  destruct (Create_header archives xff m) as [p [f0 [Hrun [Hend [Hlen Hp]]]]].
  cbv zeta in Hrun. unfold bind at 1, file_Write at 1 in Hrun.
  cbv beta iota in Hrun.
  unfold Create. unfold bind at 1, file_Write at 1. cbv beta iota.
  unfold bind at 1. rewrite Hrun. cbv beta iota zeta. rewrite Hp.
  unfold bind, file_Seek, file_Write, ret. cbn [contents cursor].
  eexists. split; [reflexivity|]. cbn [contents].
  rewrite pwrite_length by discriminate. simpl length.
  assert (Hs : U32.sub (U32.wrap (archive_bytes archives)) 1
               = U32.wrap (archive_bytes archives - 1)).
  { unfold U32.sub, U32.wrap. now rewrite Zminus_mod_idemp_l. }
  rewrite Hs.
  pose proof (wrap_range (archive_bytes archives - 1)) as Hr.
  unfold U32.in_range in Hr. lia.
Qed.

(* ================================================================== *)
(** * [sort.Sort] gives a sorted permutation *)

Lemma sort_insert_perm {A} (Less : A -> A -> bool) x l :
  Permutation (x :: l) (sort_insert Less x l).
Proof.
  induction l as [|y l IH]; [reflexivity|]. cbn [sort_insert].
  destruct (Less x y); [reflexivity|].
  rewrite perm_swap. now constructor.
Qed.

Lemma sort_fold_perm {A} (Less : A -> A -> bool) l :
  forall acc,
    Permutation (l ++ acc) (fold_left (fun acc x => sort_insert Less x acc) l acc).
Proof.
  induction l as [|x l IH]; intros acc; [reflexivity|].
  cbn [fold_left app]. rewrite <- IH.
  rewrite <- (sort_insert_perm Less x acc). apply Permutation_middle.
Qed.

Lemma sort_Sort_perm {A} (Less : A -> A -> bool) l :
  Permutation l (sort_Sort Less l).
Proof.
  unfold sort_Sort. rewrite <- sort_fold_perm. now rewrite app_nil_r.
Qed.

Section SortedByKey.

Context {A : Type}.
Variable key : A -> Z.
Variable Less : A -> A -> bool.
Hypothesis Less_key : forall x y, Less x y = (key x <? key y).

Lemma sort_insert_sorted x l :
  Sorted (fun x y => key x <= key y) l ->
  Sorted (fun x y => key x <= key y) (sort_insert Less x l).
Proof.
  induction 1 as [|y l Hs IH Hhd]; [repeat constructor|].
  cbn [sort_insert]. rewrite Less_key.
  destruct (Z.ltb_spec (key x) (key y)) as [Hlt|Hge].
  - constructor; [now constructor|]. constructor. lia.
  - constructor; [exact IH|].
    destruct Hhd as [|z l Hyz]; cbn [sort_insert].
    + constructor. exact Hge.
    + destruct (Less x z); constructor; [exact Hge|exact Hyz].
Qed.

Lemma sort_fold_sorted l :
  forall acc,
    Sorted (fun x y => key x <= key y) acc ->
    Sorted (fun x y => key x <= key y)
           (fold_left (fun acc x => sort_insert Less x acc) l acc).
Proof.
  induction l as [|x l IH]; intros acc Hacc; [exact Hacc|].
  cbn [fold_left]. apply IH. now apply sort_insert_sorted.
Qed.

Lemma sort_Sort_sorted l :
  Sorted (fun x y => key x <= key y) (sort_Sort Less l).
Proof. apply sort_fold_sorted. constructor. Qed.

End SortedByKey.

(** X8. [sort.Sort(bySecondsPerPoint(archives))] leaves the same archives in
    the order of their resolutions. *)
Theorem sort_bySecondsPerPoint archives :
  Permutation archives (sort_Sort bySecondsPerPoint_Less archives)
  /\ Sorted (fun a b => SecondsPerPoint a <= SecondsPerPoint b)
            (sort_Sort bySecondsPerPoint_Less archives).
Proof.
  split; [apply sort_Sort_perm|].
  apply (sort_Sort_sorted SecondsPerPoint). reflexivity.
Qed.

(* ================================================================== *)
(** * The rules of an archive list *)

Lemma validate_loop_accepts archives :
  validate_loop archives = Ret None <-> rules_hold archives.
Proof.
  induction archives as [|a rest IH]; [cbn; tauto|].
  destruct rest as [|b rest]; [cbn; tauto|].
  cbn [validate_loop rules_hold]. unfold consolidates.
  destruct (Z.ltb_spec (SecondsPerPoint a) (SecondsPerPoint b)) as [Hlt|Hge];
    cbn [negb]; [|split; [discriminate|lia]].
  unfold u32_rem, u32_div.
  destruct (Z.eqb_spec (SecondsPerPoint a) 0) as [Hz|Hnz]; cbn [go_bind].
  { split; [discriminate|]. intros [[_ [Hd _]] _].
    rewrite Hz in Hd. apply Z.divide_0_l in Hd. lia. }
  pose proof (Z.mod_divide (SecondsPerPoint b) (SecondsPerPoint a) Hnz) as Hdiv.
  destruct (Z.eqb_spec (SecondsPerPoint b mod SecondsPerPoint a) 0) as [Hm|Hm];
    cbn [negb]; [|split; [discriminate|tauto]].
  rewrite Z.gtb_ltb.
  destruct (Z.ltb_spec (Retention a) (Retention b)) as [Hr|Hr];
    cbn [negb]; [|split; [discriminate|lia]].
  rewrite Z.geb_leb.
  destruct (Z.leb_spec (SecondsPerPoint b / SecondsPerPoint a) (Points a)) as [Hp|Hp];
    cbn [negb]; [|split; [discriminate|lia]].
  rewrite IH. tauto.
Qed.

Lemma sort_Sort_nil {A} (Less : A -> A -> bool) l :
  sort_Sort Less l = [] <-> l = [].
Proof.
  split; intros H.
  - apply Permutation_nil. rewrite <- H. symmetry. apply sort_Sort_perm.
  - subst. reflexivity.
Qed.

(** X3. [ValidateArchiveList] returns no error exactly for the non-empty
    lists that, sorted by resolution, keep rules 2 to 5 between every
    archive and the next. *)
Theorem ValidateArchiveList_accepts archives :
  ValidateArchiveList archives
  = Ret (sort_Sort bySecondsPerPoint_Less archives, None)
  <-> archives <> []
      /\ rules_hold (sort_Sort bySecondsPerPoint_Less archives).
Proof.
  unfold ValidateArchiveList.
  destruct (sort_Sort bySecondsPerPoint_Less archives) as [|a rest] eqn:E.
  - apply sort_Sort_nil in E. split; [discriminate|]. intros [H _]. congruence.
  - assert (Hne : archives <> []).
    { intros ->. discriminate E. }
    rewrite <- validate_loop_accepts.
    destruct (validate_loop (a :: rest)) as [[e|]|p]; cbn [go_bind];
      split; try discriminate; try tauto; intros [_ H]; discriminate H.
Qed.

(** X4. Between an archive of non-zero resolution and the next, the first
    rule that fails decides the error. *)
Theorem validate_loop_rejects :
  forall (a b : ArchiveInfo) (rest : list ArchiveInfo),
    SecondsPerPoint a <> 0 ->
    (~ SecondsPerPoint a < SecondsPerPoint b ->
     validate_loop (a :: b :: rest) = Ret (Some err_duplicate))
    /\ (SecondsPerPoint a < SecondsPerPoint b ->
        ~ (SecondsPerPoint a | SecondsPerPoint b) ->
        validate_loop (a :: b :: rest) = Ret (Some err_not_divisible))
    /\ (SecondsPerPoint a < SecondsPerPoint b ->
        (SecondsPerPoint a | SecondsPerPoint b) ->
        ~ Retention a < Retention b ->
        validate_loop (a :: b :: rest) = Ret (Some err_retention))
    /\ (SecondsPerPoint a < SecondsPerPoint b ->
        (SecondsPerPoint a | SecondsPerPoint b) ->
        Retention a < Retention b ->
        ~ SecondsPerPoint b / SecondsPerPoint a <= Points a ->
        validate_loop (a :: b :: rest) = Ret (Some err_consolidate))
    /\ (consolidates a b ->
        validate_loop (a :: b :: rest) = validate_loop (b :: rest)).
Proof.
  intros a b rest Hnz. unfold consolidates.
  pose proof (Z.mod_divide (SecondsPerPoint b) (SecondsPerPoint a) Hnz) as Hdiv.
  cbn [validate_loop]. unfold u32_rem, u32_div.
  destruct (Z.eqb_spec (SecondsPerPoint a) 0) as [Hz|_]; [contradiction|].
  cbn [go_bind]. rewrite Z.gtb_ltb, Z.geb_leb.
  destruct (Z.ltb_spec (SecondsPerPoint a) (SecondsPerPoint b)) as [Hlt|Hge];
    cbn [negb]; [|repeat split; intros; (reflexivity || lia)].
  destruct (Z.eqb_spec (SecondsPerPoint b mod SecondsPerPoint a) 0) as [Hm|Hm];
    cbn [negb]; [|repeat split; intros; (reflexivity || tauto)].
  destruct (Z.ltb_spec (Retention a) (Retention b)) as [Hr|Hr];
    cbn [negb]; [|repeat split; intros; (reflexivity || tauto || lia)].
  destruct (Z.leb_spec (SecondsPerPoint b / SecondsPerPoint a) (Points a)) as [Hp|Hp];
    cbn [negb]; repeat split; intros; (reflexivity || tauto || lia).
Qed.

Lemma validate_loop_rejects_witness :
  (~ 10 < 60 ->
   validate_loop [mkArchiveInfo 0 10 60; mkArchiveInfo 0 60 60]
   = Ret (Some err_duplicate))
  /\ (10 < 60 -> ~ (10 | 60) ->
      validate_loop [mkArchiveInfo 0 10 60; mkArchiveInfo 0 60 60]
      = Ret (Some err_not_divisible))
  /\ (10 < 60 -> (10 | 60) ->
      ~ Retention (mkArchiveInfo 0 10 60) < Retention (mkArchiveInfo 0 60 60) ->
      validate_loop [mkArchiveInfo 0 10 60; mkArchiveInfo 0 60 60]
      = Ret (Some err_retention))
  /\ (10 < 60 -> (10 | 60) ->
      Retention (mkArchiveInfo 0 10 60) < Retention (mkArchiveInfo 0 60 60) ->
      ~ 60 / 10 <= 60 ->
      validate_loop [mkArchiveInfo 0 10 60; mkArchiveInfo 0 60 60]
      = Ret (Some err_consolidate))
  /\ (consolidates (mkArchiveInfo 0 10 60) (mkArchiveInfo 0 60 60) ->
      validate_loop [mkArchiveInfo 0 10 60; mkArchiveInfo 0 60 60]
      = validate_loop [mkArchiveInfo 0 60 60]).
Proof.
  apply (validate_loop_rejects (mkArchiveInfo 0 10 60) (mkArchiveInfo 0 60 60) []).
  simpl. lia.
Defined.

(** Each rule, broken alone between two archives, gives its own error. *)
Example validate_loop_kinds :
  ValidateArchiveList [] = Ret ([], Some err_empty)
  /\ validate_loop [mkArchiveInfo 0 10 60; mkArchiveInfo 0 10 600]
     = Ret (Some err_duplicate)
  /\ validate_loop [mkArchiveInfo 0 10 60; mkArchiveInfo 0 25 60]
     = Ret (Some err_not_divisible)
  /\ validate_loop [mkArchiveInfo 0 10 60; mkArchiveInfo 0 60 10]
     = Ret (Some err_retention)
  /\ validate_loop [mkArchiveInfo 0 10 5; mkArchiveInfo 0 60 60]
     = Ret (Some err_consolidate)
  /\ validate_loop [mkArchiveInfo 0 10 60; mkArchiveInfo 0 60 60] = Ret None.
Proof. repeat split; vm_compute; reflexivity. Qed.

(* ================================================================== *)
(** * Records survive the trip to the file and back *)

Lemma Z_of_byte_of_Z z : Codec.Z_of_byte (Codec.byte_of_Z z) = z mod 256.
Proof.
  unfold Codec.Z_of_byte, Codec.byte_of_Z.
  pose proof (Z.mod_pos_bound z 256 ltac:(lia)) as Hb.
  destruct (Byte.of_N (Z.to_N (z mod 256))) as [b|] eqn:E.
  - apply Byte.to_of_N in E. rewrite E. apply Z2N.id. lia.
  - apply Byte.of_N_None_iff in E. lia.
Qed.

Lemma be_decode_fold bs :
  forall acc,
    fold_left (fun acc b => acc * 256 + Codec.Z_of_byte b) bs acc
    = acc * 256 ^ Z.of_nat (length bs) + Codec.be_decode bs.
Proof.
  unfold Codec.be_decode.
  induction bs as [|b bs IH]; intros acc.
  - cbn. lia.
  - cbn [fold_left length]. rewrite IH, (IH (0 * 256 + _)).
    rewrite Nat2Z.inj_succ, Z.pow_succ_r by lia. lia.
Qed.

(** Decoding the [n] big-endian bytes of [z] gives [z] again, up to the
    width. *)
Lemma be_decode_encode n z :
  Codec.be_decode (Codec.be_encode n z) = z mod 2 ^ (8 * Z.of_nat n).
Proof.
  induction n as [|n IH].
  - cbn. now rewrite Z.mod_1_r.
  - cbn [Codec.be_encode]. unfold Codec.be_decode. cbn [fold_left].
    rewrite be_decode_fold, be_encode_length, IH, Z_of_byte_of_Z.
    replace (8 * Z.of_nat (S n)) with (8 * Z.of_nat n + 8) by lia.
    rewrite Z.pow_add_r by lia.
    replace (256 ^ Z.of_nat n) with (2 ^ (8 * Z.of_nat n))
      by (rewrite Z.pow_mul_r by lia; reflexivity).
    pose proof (Z.pow_pos_nonneg 2 (8 * Z.of_nat n) ltac:(lia) ltac:(lia)) as Hp.
    rewrite (Z.rem_mul_r z (2 ^ (8 * Z.of_nat n)) (2 ^ 8)) by lia.
    change (2 ^ 8) with 256. lia.
Qed.

Lemma be_decode_encode_u32 z :
  U32.in_range z -> Codec.be_decode (Codec.be_encode 4 z) = z.
Proof.
  intros H. rewrite be_decode_encode. now apply Z.mod_small.
Qed.

Lemma digits2_pos_bounds m :
  2 ^ (Zpos (digits2_pos m) - 1) <= Zpos m < 2 ^ Zpos (digits2_pos m).
Proof.
  induction m as [m IH|m IH|]; cbn [digits2_pos].
  - rewrite Pos2Z.inj_succ, Z.pow_succ_r by lia.
    replace (Z.succ (Zpos (digits2_pos m)) - 1) with (Z.succ (Zpos (digits2_pos m) - 1))
      by lia.
    rewrite Z.pow_succ_r by lia. lia.
  - rewrite Pos2Z.inj_succ, Z.pow_succ_r by lia.
    replace (Z.succ (Zpos (digits2_pos m)) - 1) with (Z.succ (Zpos (digits2_pos m) - 1))
      by lia.
    rewrite Z.pow_succ_r by lia. lia.
  - cbn. lia.
Qed.

(** A mantissa the format holds: either it has all its [prec] digits, or
    the exponent is the least one. *)
Lemma bounded_cases prec emax m e :
  0 < prec ->
  bounded prec emax m e = true ->
  e <= emax - prec
  /\ ((2 ^ (prec - 1) <= Zpos m < 2 ^ prec /\ 3 - emax - prec <= e)
      \/ (Zpos m < 2 ^ (prec - 1) /\ e = 3 - emax - prec)).
Proof.
  intros Hprec H. unfold bounded, canonical_mantissa, fexp, emin in H.
  apply andb_true_iff in H as [Hc He].
  apply Z.eqb_eq in Hc. apply Z.leb_le in He. split; [exact He|].
  pose proof (digits2_pos_bounds m) as [Hlo Hhi].
  destruct (Z.lt_trichotomy (Zpos (digits2_pos m)) prec) as [Hd|[Hd|Hd]].
  - right. split; [|lia].
    apply Z.lt_le_trans with (1 := Hhi). apply Z.pow_le_mono_r; lia.
  - left. rewrite <- Hd. split; [split; assumption|lia].
  - lia.
Qed.

Lemma testbit_top (n x : Z) (s : bool) :
  0 <= n -> 0 <= x < 2 ^ n ->
  Z.testbit ((if s then 2 ^ n else 0) + x) n = s.
Proof.
  intros Hn Hx. destruct s.
  - apply Z.testbit_true; [exact Hn|].
    replace (2 ^ n + x) with (x + 1 * 2 ^ n) by lia.
    rewrite Z.div_add by lia. rewrite Z.div_small by lia. reflexivity.
  - apply Z.testbit_false; [exact Hn|].
    rewrite Z.add_0_l, Z.div_small by lia. reflexivity.
Qed.

Section BitsRoundTrip.

Variables mw ew : Z.
Hypothesis Hmw : 0 < mw.
Hypothesis Hew : 1 < ew.

(** [of_bits] undoes [to_bits] on the values of the format with
    [mw + 1] digits and greatest exponent [2 ^ (ew - 1)]. *)
Lemma of_bits_to_bits x :
  valid_binary (mw + 1) (2 ^ (ew - 1)) x = true ->
  Float.of_bits mw ew (Float.to_bits mw ew x) = x.
Proof.
  assert (Hpm : 0 < 2 ^ mw) by (apply Z.pow_pos_nonneg; lia).
  assert (Hpe : 2 ^ ew = 2 * 2 ^ (ew - 1)).
  { replace ew with (Z.succ (ew - 1)) at 1 by lia. apply Z.pow_succ_r. lia. }
  assert (Hpe1 : 2 <= 2 ^ (ew - 1)).
  { change 2 with (2 ^ 1) at 1. apply Z.pow_le_mono_r; lia. }
  assert (Htop : 2 ^ (mw + ew) = 2 ^ ew * 2 ^ mw).
  { rewrite Z.add_comm. apply Z.pow_add_r; lia. }
  assert (Hfield : forall (s : bool) e m,
             0 <= e < 2 ^ ew -> 0 <= m < 2 ^ mw ->
             let b := (if s then 2 ^ (mw + ew) else 0) + (e * 2 ^ mw + m) in
             Z.testbit b (mw + ew) = s
             /\ (b / 2 ^ mw) mod 2 ^ ew = e
             /\ b mod 2 ^ mw = m).
  { intros s e m He Hm b. subst b. split; [|split].
    - apply testbit_top; [lia|]. rewrite Htop. nia.
    - replace ((if s then 2 ^ (mw + ew) else 0) + (e * 2 ^ mw + m))
        with (m + ((if s then 2 ^ ew else 0) + e) * 2 ^ mw)
        by (destruct s; rewrite ?Htop; ring).
      rewrite Z.div_add by lia. rewrite (Z.div_small m) by lia.
      rewrite Z.add_0_l. destruct s.
      + replace (2 ^ ew + e) with (e + 1 * 2 ^ ew) by ring.
        rewrite Z.mod_add by lia. apply Z.mod_small. lia.
      + rewrite Z.add_0_l. apply Z.mod_small. lia.
    - replace ((if s then 2 ^ (mw + ew) else 0) + (e * 2 ^ mw + m))
        with (m + ((if s then 2 ^ ew else 0) + e) * 2 ^ mw)
        by (destruct s; rewrite ?Htop; ring).
      rewrite Z.mod_add by lia. apply Z.mod_small. lia. }
  intros Hvalid. unfold Float.of_bits, Float.to_bits.
  destruct x as [s|s| |s m e].
  - (* zero *)
    destruct (Hfield s 0 0 ltac:(lia) ltac:(lia)) as [Hs [He Hm]].
    rewrite Z.mul_0_l, !Z.add_0_r in Hs, He, Hm.
    rewrite Hs, He, Hm. reflexivity.
  - (* infinity *)
    destruct (Hfield s (2 ^ ew - 1) 0 ltac:(lia) ltac:(lia)) as [Hs [He Hm]].
    rewrite !Z.add_0_r in Hs, He, Hm. rewrite Hs, He, Hm.
    replace (2 ^ ew - 1 =? 0) with false by (symmetry; apply Z.eqb_neq; lia).
    rewrite Z.eqb_refl. reflexivity.
  - (* NaN *)
    assert (Hq : 0 < 2 ^ (mw - 1) < 2 ^ mw).
    { split; [apply Z.pow_pos_nonneg; lia|apply Z.pow_lt_mono_r; lia]. }
    destruct (Hfield false (2 ^ ew - 1) (2 ^ (mw - 1)) ltac:(lia) ltac:(lia))
      as [_ [He Hm]].
    rewrite Z.add_0_l in He, Hm. rewrite He, Hm.
    replace (2 ^ ew - 1 =? 0) with false by (symmetry; apply Z.eqb_neq; lia).
    rewrite Z.eqb_refl.
    replace (2 ^ (mw - 1) =? 0) with false by (symmetry; apply Z.eqb_neq; lia).
    reflexivity.
  - (* finite *)
    cbn [valid_binary] in Hvalid.
    apply bounded_cases in Hvalid; [|lia].
    replace (mw + 1 - 1) with mw in Hvalid by lia.
    destruct Hvalid as [Hemax [[Hm Hemin]|[Hm Hemin]]].
    + (* normal *)
      replace (Zpos m <? 2 ^ mw) with false by (symmetry; apply Z.ltb_ge; lia).
      replace (2 ^ (mw + 1)) with (2 * 2 ^ mw) in Hm
        by (symmetry; rewrite Z.add_1_r; apply Z.pow_succ_r; lia).
      destruct (Hfield s (e + mw + 2 ^ (ew - 1) - 1) (Zpos m - 2 ^ mw)
                  ltac:(lia) ltac:(lia)) as [Hs [He Hmm]].
      rewrite Z.add_assoc in Hs, He, Hmm. rewrite Hs, He, Hmm.
      replace (e + mw + 2 ^ (ew - 1) - 1 =? 0) with false
        by (symmetry; apply Z.eqb_neq; lia).
      replace (e + mw + 2 ^ (ew - 1) - 1 =? 2 ^ ew - 1) with false
        by (symmetry; apply Z.eqb_neq; lia).
      replace (Zpos m - 2 ^ mw + 2 ^ mw) with (Zpos m) by lia.
      f_equal. lia.
    + (* subnormal *)
      replace (Zpos m <? 2 ^ mw) with true by (symmetry; apply Z.ltb_lt; lia).
      destruct (Hfield s 0 (Zpos m) ltac:(lia) ltac:(lia)) as [Hs [He Hmm]].
      rewrite Z.mul_0_l, Z.add_0_l in Hs, He, Hmm. rewrite Hs, He, Hmm.
      rewrite Z.eqb_refl. f_equal. lia.
Qed.

End BitsRoundTrip.

Lemma of_bits64_bits64 x :
  valid_float64 x -> Float.of_bits64 (Float.bits64 x) = x.
Proof. intros H. apply of_bits_to_bits; [lia|lia|exact H]. Qed.

Lemma of_bits32_bits32 x :
  valid_float32 x -> Float.of_bits32 (Float.bits32 x) = x.
Proof. intros H. apply of_bits_to_bits; [lia|lia|exact H]. Qed.

(** The bit pattern of a value fits its width. *)
Lemma to_bits_range mw ew x :
  0 < mw -> 1 < ew ->
  valid_binary (mw + 1) (2 ^ (ew - 1)) x = true ->
  0 <= Float.to_bits mw ew x < 2 ^ (mw + ew + 1).
Proof.
  intros Hmw Hew Hvalid.
  assert (Hpm : 0 < 2 ^ mw) by (apply Z.pow_pos_nonneg; lia).
  assert (Hpe : 2 ^ ew = 2 * 2 ^ (ew - 1)).
  { replace ew with (Z.succ (ew - 1)) at 1 by lia. apply Z.pow_succ_r. lia. }
  assert (Hpe1 : 2 <= 2 ^ (ew - 1)).
  { change 2 with (2 ^ 1) at 1. apply Z.pow_le_mono_r; lia. }
  assert (Htop : 2 ^ (mw + ew) = 2 ^ ew * 2 ^ mw).
  { rewrite Z.add_comm. apply Z.pow_add_r; lia. }
  assert (Htop1 : 2 ^ (mw + ew + 1) = 2 * 2 ^ (mw + ew)).
  { rewrite Z.add_1_r. apply Z.pow_succ_r. lia. }
  assert (Hq : 0 < 2 ^ (mw - 1) < 2 ^ mw).
  { split; [apply Z.pow_pos_nonneg; lia|apply Z.pow_lt_mono_r; lia]. }
  rewrite Htop1, Htop. unfold Float.to_bits. rewrite Htop.
  destruct x as [s|s| |s m e].
  - destruct s; nia.
  - destruct s; nia.
  - nia.
  - cbn [valid_binary] in Hvalid.
    apply bounded_cases in Hvalid; [|lia].
    replace (mw + 1 - 1) with mw in Hvalid by lia.
    replace (2 ^ (mw + 1)) with (2 * 2 ^ mw) in Hvalid
      by (symmetry; rewrite Z.add_1_r; apply Z.pow_succ_r; lia).
    destruct Hvalid as [Hemax [[Hm Hemin]|[Hm Hemin]]].
    + replace (Zpos m <? 2 ^ mw) with false by (symmetry; apply Z.ltb_ge; lia).
      destruct s; nia.
    + replace (Zpos m <? 2 ^ mw) with true by (symmetry; apply Z.ltb_lt; lia).
      destruct s; nia.
Qed.

Lemma encode_Point_length p : length (encode_Point p) = 12%nat.
Proof. unfold encode_Point. now rewrite length_app, !be_encode_length. Qed.

Lemma encode_Points_length ps : length (encode_Points ps) = (12 * length ps)%nat.
Proof.
  induction ps as [|p ps IH]; [reflexivity|].
  cbn [encode_Points flat_map]. fold (encode_Points ps).
  rewrite length_app, encode_Point_length, IH. simpl length. lia.
Qed.

(** A point read from the bytes it was written as is the same point. *)
Lemma decode_encode_Point p :
  valid_Point p -> decode_Point (encode_Point p) = p.
Proof.
  intros [Hts Hv]. unfold decode_Point, encode_Point.
  rewrite firstn_app, be_encode_length, Nat.sub_diag, firstn_O, app_nil_r.
  rewrite firstn_all2 by (rewrite be_encode_length; lia).
  rewrite skipn_app, be_encode_length, Nat.sub_diag, skipn_O.
  rewrite skipn_all2 by (rewrite be_encode_length; lia). cbn [app].
  rewrite be_decode_encode_u32 by exact Hts.
  rewrite be_decode_encode.
  pose proof (to_bits_range 52 11 (Value p) ltac:(lia) ltac:(lia) Hv) as Hr.
  rewrite Z.mod_small by exact Hr.
  fold Float.bits64. rewrite of_bits64_bits64 by exact Hv.
  now destruct p.
Qed.

(** [readPoint] on a file that holds twelve bytes at the offset. *)
Lemma readPoint_in_file offset f :
  0 <= offset ->
  (Z.to_nat offset + 12 <= length (contents f))%nat ->
  readPoint offset f
  = Ret ((decode_Point (firstn 12 (skipn (Z.to_nat offset) (contents f))), None),
         mkFile (contents f) (offset + 12)).
Proof.
  intros Hoff Hlen.
  unfold readPoint, readPoints, binary_Read_Points, bind, file_Seek, io_ReadFull.
  cbn [contents cursor Nat.mul Nat.add].
  assert (Hav : (12 <= length (skipn (Z.to_nat offset) (contents f)))%nat)
    by (rewrite length_skipn; lia).
  destruct (skipn (Z.to_nat offset) (contents f)) as [|b avail] eqn:E;
    [simpl in Hav; lia|].
  replace (length (b :: avail) <? 12)%nat with false
    by (symmetry; apply Nat.ltb_ge; exact Hav).
  unfold ret. cbn [Codec.chunks map hd].
  rewrite firstn_firstn. reflexivity.
Qed.

(** [readPoint] past the end of the file: an error and the zero point. *)
Lemma readPoint_past_end offset f :
  0 <= offset ->
  (length (contents f) < Z.to_nat offset + 12)%nat ->
  exists e f', readPoint offset f = Ret ((zero_Point, Some e), f').
Proof.
  intros Hoff Hlen.
  unfold readPoint, readPoints, binary_Read_Points, bind, file_Seek, io_ReadFull.
  cbn [contents cursor Nat.mul Nat.add].
  destruct (skipn (Z.to_nat offset) (contents f)) as [|b avail] eqn:E.
  - unfold ret. cbn. eauto.
  - replace (length (b :: avail) <? 12)%nat with true.
    + unfold ret. cbn. eauto.
    + symmetry. apply Nat.ltb_lt. rewrite <- E, length_skipn. lia.
Qed.

Lemma readPoint_result offset f base f0 :
  0 <= offset ->
  readPoint offset f = Ret ((base, None), f0) ->
  (Z.to_nat offset + 12 <= length (contents f))%nat
  /\ base = decode_Point (firstn 12 (skipn (Z.to_nat offset) (contents f)))
  /\ f0 = mkFile (contents f) (offset + 12).
Proof.
  intros Hoff H.
  destruct (Nat.le_gt_cases (Z.to_nat offset + 12) (length (contents f))) as [Hle|Hgt].
  - rewrite readPoint_in_file in H by assumption. inversion H. auto.
  - destruct (readPoint_past_end offset f Hoff Hgt) as [e [f' E]].
    rewrite E in H. discriminate H.
Qed.

(** [pointOffset], once the base has been read. *)
Lemma pointOffset_with_base archive timestamp f base f0 :
  readPoint 0 f = Ret ((base, None), f0) ->
  pointOffset archive timestamp f
  = if Timestamp base =? 0 then Ret ((Offset archive, None), f0)
    else
      (pointDistance <-
         lift (u32_div (U32.sub timestamp (Timestamp base)) (SecondsPerPoint archive)) ;;
       r <- lift (u32_rem (U32.mul pointDistance pointSize) (size archive)) ;;
       ret (U32.add (Offset archive) r, None)) f0.
Proof.
  intros H. unfold pointOffset. unfold bind at 1. rewrite H.
  destruct (Timestamp base =? 0); reflexivity.
Qed.

Lemma fits_size archive : fits archive -> size archive = pointSize * Points archive.
Proof.
  intros [[Ho [Hs Hp]] [Hspp [Hpts Hfit]]]. unfold size, U32.mul.
  rewrite Z.mul_comm. apply wrap_small.
  unfold U32.in_range, pointSize in *. lia.
Qed.

Lemma pointOffset_slot :
  forall (archive : ArchiveInfo) (timestamp : Z) (f f0 : File) (base : Point),
    fits archive ->
    readPoint 0 f = Ret ((base, None), f0) ->
    in_reach archive (Timestamp base) timestamp ->
    pointOffset archive timestamp f
    = Ret ((Offset archive + pointSize * slot archive (Timestamp base) timestamp,
            None), f0)
    /\ 0 <= slot archive (Timestamp base) timestamp < Points archive.
Proof.
  intros archive timestamp f f0 base Hfits Hbase Hreach.
  pose proof (fits_size archive Hfits) as Hsize.
  destruct Hfits as [[Ho [Hs Hp]] [Hspp [Hpts Hfit]]].
  rewrite (pointOffset_with_base _ _ _ _ _ Hbase). unfold slot.
  destruct (Z.eqb_spec (Timestamp base) 0) as [Hz|Hnz].
  - rewrite Z.mul_0_r, Z.add_0_r. split; [reflexivity|lia].
  - destruct Hreach as [Hreach|Hreach]; [contradiction|].
    set (d := U32.sub timestamp (Timestamp base) / SecondsPerPoint archive) in *.
    assert (Hd : 0 <= d).
    { apply Z.div_pos; [apply sub_nonneg|exact Hspp]. }
    pose proof (Z.mod_pos_bound d (Points archive) Hpts) as Hm.
    split; [|exact Hm].
    unfold bind, lift, u32_div, u32_rem, ret.
    replace (SecondsPerPoint archive =? 0) with false
      by (symmetry; apply Z.eqb_neq; lia).
    fold d. rewrite Hsize.
    replace (pointSize * Points archive =? 0) with false
      by (symmetry; apply Z.eqb_neq; unfold pointSize; lia).
    assert (Hmul : U32.mul d pointSize = pointSize * d).
    { unfold U32.mul. rewrite Z.mul_comm. apply wrap_small.
      unfold U32.in_range, pointSize in *. lia. }
    rewrite Hmul, Z.mul_mod_distr_l by (unfold pointSize; lia).
    do 3 f_equal. unfold U32.add. apply wrap_small.
    unfold U32.in_range, pointSize in *. nia.
Qed.

(** X9. For an archive with a resolution and a capacity above zero
    that ends below [2 ^ 32] ([fits]), a base point read at offset zero,
    and a timestamp within reach of it, which is a base of zero or a
    distance from the base that, counted in points and then in bytes,
    stays below [2 ^ 32] ([in_reach]): [pointOffset] returns the offset of
    the slot of the timestamp, the archive's offset plus twelve bytes for
    every slot before it, a slot of the archive.  The base is whatever
    point the first twelve bytes of the file decode to.  Beyond that reach
    the byte distance wraps before it is reduced to the archive, and the
    offset need not be that of a slot ([pointOffset_beyond_reach]). *)
Theorem pointOffset_is_the_slot :
  forall (archive : ArchiveInfo) (timestamp : Z) (f f0 : File) (base : Point),
    fits archive ->
    readPoint 0 f = Ret ((base, None), f0) ->
    in_reach archive (Timestamp base) timestamp ->
    pointOffset archive timestamp f
    = Ret ((Offset archive + pointSize * slot archive (Timestamp base) timestamp,
            None), f0)
    /\ 0 <= slot archive (Timestamp base) timestamp < Points archive.
Proof. exact pointOffset_slot. Qed.

Lemma pointOffset_is_the_slot_witness :
  pointOffset Scenario.fine 99960 Scenario.db
  = Ret ((Offset Scenario.fine + pointSize * slot Scenario.fine 2 99960, None),
         mkFile (contents Scenario.db) 12)
  /\ 0 <= slot Scenario.fine 2 99960 < Points Scenario.fine.
Proof.
  refine (pointOffset_is_the_slot Scenario.fine 99960 Scenario.db
            (mkFile (contents Scenario.db) 12)
            db_base
            _ _ _).
  - unfold fits, valid_ArchiveInfo, U32.in_range, U32.modulus, pointSize. simpl. lia.
  - vm_compute. reflexivity.
  - right. vm_compute. reflexivity.
Defined.

Lemma sub_exact a b : 0 <= b <= a -> a < U32.modulus -> U32.sub a b = a - b.
Proof. intros H Ha. unfold U32.sub. apply wrap_small. unfold U32.in_range. lia. Qed.

Lemma in_reach_earlier archive base t t' :
  0 < SecondsPerPoint archive ->
  0 <= base <= t -> t <= t' -> t' < U32.modulus ->
  in_reach archive base t' -> in_reach archive base t.
Proof.
  intros Hspp Hb Ht Ht' [H|H]; [now left|right].
  rewrite sub_exact in * by lia.
  assert ((t - base) / SecondsPerPoint archive <= (t' - base) / SecondsPerPoint archive)
    by (apply Z.div_le_mono; lia).
  unfold pointSize in *. lia.
Qed.

(** X10. The archive is a ring: a timestamp one whole retention later
    has the same offset. *)
Theorem pointOffset_wraps_after_the_capacity :
  forall (archive : ArchiveInfo) (timestamp : Z) (f f0 : File) (base : Point),
    fits archive ->
    readPoint 0 f = Ret ((base, None), f0) ->
    0 <= Timestamp base <= timestamp ->
    timestamp + SecondsPerPoint archive * Points archive < U32.modulus ->
    in_reach archive (Timestamp base)
             (timestamp + SecondsPerPoint archive * Points archive) ->
    pointOffset archive (timestamp + SecondsPerPoint archive * Points archive) f
    = pointOffset archive timestamp f.
Proof.
  intros archive t f f0 base Hfits Hbase Hb Hlate Hreach.
  pose proof Hfits as [_ [Hspp [Hpts _]]].
  assert (Hreach' : in_reach archive (Timestamp base) t).
  { eapply in_reach_earlier; try eassumption; nia. }
  destruct (pointOffset_slot archive _ f f0 base Hfits Hbase Hreach) as [-> _].
  destruct (pointOffset_slot archive _ f f0 base Hfits Hbase Hreach') as [-> _].
  assert (Hslot : slot archive (Timestamp base)
                       (t + SecondsPerPoint archive * Points archive)
                  = slot archive (Timestamp base) t).
  { unfold slot. destruct (Timestamp base =? 0); [reflexivity|].
    rewrite !sub_exact by nia.
    replace (t + SecondsPerPoint archive * Points archive - Timestamp base)
      with (t - Timestamp base + Points archive * SecondsPerPoint archive) by ring.
    rewrite Z.div_add by lia.
    rewrite <- (Z.mod_add ((t - Timestamp base) / SecondsPerPoint archive) 1
                  (Points archive)) by lia.
    f_equal. lia. }
  now rewrite Hslot.
Qed.

Lemma pointOffset_wraps_after_the_capacity_witness :
  pointOffset Scenario.fine (99960 + 10 * 60) Scenario.db
  = pointOffset Scenario.fine 99960 Scenario.db.
Proof.
  refine (pointOffset_wraps_after_the_capacity Scenario.fine 99960 Scenario.db
            (mkFile (contents Scenario.db) 12)
            db_base
            _ _ _ _ _).
  - unfold fits, valid_ArchiveInfo, U32.in_range, U32.modulus, pointSize. simpl. lia.
  - vm_compute. reflexivity.
  - by_evaluation.
  - by_evaluation.
  - right. vm_compute. reflexivity.
Defined.

(** X11. For an archive that [fits], a base above zero read at offset
    zero, and two timestamps at or after the base, a multiple of the
    resolution and less than one retention apart, the later one within
    reach of the base ([in_reach]): the two have slots of their own, and
    their records do not overlap.  Beyond that reach they can
    ([pointOffset_beyond_reach]). *)
Theorem pointOffset_keeps_a_retention_apart :
  forall (archive : ArchiveInfo) (t1 t2 : Z) (f f0 : File) (base : Point),
    fits archive ->
    readPoint 0 f = Ret ((base, None), f0) ->
    0 < Timestamp base <= t1 ->
    t1 < t2 < U32.modulus ->
    (SecondsPerPoint archive | t2 - t1) ->
    t2 - t1 < SecondsPerPoint archive * Points archive ->
    in_reach archive (Timestamp base) t2 ->
    exists o1 o2,
      pointOffset archive t1 f = Ret ((o1, None), f0)
      /\ pointOffset archive t2 f = Ret ((o2, None), f0)
      /\ (o1 + pointSize <= o2 \/ o2 + pointSize <= o1).
Proof.
  intros archive t1 t2 f f0 base Hfits Hbase Hb Ht [k Hk] Hnear Hreach.
  pose proof Hfits as [_ [Hspp [Hpts _]]].
  assert (Hreach1 : in_reach archive (Timestamp base) t1).
  { eapply in_reach_earlier with (t' := t2); try eassumption; lia. }
  destruct (pointOffset_slot archive t1 f f0 base Hfits Hbase Hreach1) as [E1 Hs1].
  destruct (pointOffset_slot archive t2 f f0 base Hfits Hbase Hreach) as [E2 Hs2].
  eexists. eexists. split; [exact E1|]. split; [exact E2|].
  assert (Hne : slot archive (Timestamp base) t1 <> slot archive (Timestamp base) t2).
  { unfold slot. replace (Timestamp base =? 0) with false
      by (symmetry; apply Z.eqb_neq; lia).
    rewrite !sub_exact by lia.
    replace (t2 - Timestamp base) with (t1 - Timestamp base + k * SecondsPerPoint archive)
      by lia.
    rewrite Z.div_add by lia.
    set (d := (t1 - Timestamp base) / SecondsPerPoint archive).
    assert (Hk0 : 0 < k < Points archive) by nia.
    intros Heq.
    assert (Hdiv : (Points archive | (d + k) - d)).
    { apply Z.mod_divide; [lia|].
      rewrite Zminus_mod, <- Heq, Z.sub_diag. apply Z.mod_0_l. lia. }
    replace (d + k - d) with k in Hdiv by lia.
    apply Z.divide_pos_le in Hdiv; lia. }
  unfold pointSize. lia.
Qed.

Lemma pointOffset_keeps_a_retention_apart_witness :
  exists o1 o2,
    pointOffset Scenario.fine 99960 Scenario.db
    = Ret ((o1, None), mkFile (contents Scenario.db) 12)
    /\ pointOffset Scenario.fine 100550 Scenario.db
       = Ret ((o2, None), mkFile (contents Scenario.db) 12)
    /\ (o1 + pointSize <= o2 \/ o2 + pointSize <= o1).
Proof.
  refine (pointOffset_keeps_a_retention_apart Scenario.fine 99960 100550 Scenario.db
            (mkFile (contents Scenario.db) 12)
            db_base
            _ _ _ _ _ _ _).
  - unfold fits, valid_ArchiveInfo, U32.in_range, U32.modulus, pointSize. simpl. lia.
  - vm_compute. reflexivity.
  - by_evaluation.
  - by_evaluation.
  - exists 59. reflexivity.
  - by_evaluation.
  - right. vm_compute. reflexivity.
Defined.

(** Beyond the reach of the base: in a ring of sixty one-second slots at
    offset sixteen, with the base of two that the created file has in its
    first twelve bytes, a distance of 1793411806 points wraps when it is
    counted in bytes, and the offset is four bytes into a slot; and two
    timestamps twenty-two seconds apart get records eight bytes apart. *)
Example pointOffset_beyond_reach :
  ~ in_reach (mkArchiveInfo 16 1 60) (Timestamp db_base) 1793411808
  /\ Scenario.result_of (pointOffset (mkArchiveInfo 16 1 60) 1793411808 Scenario.db)
     = Ret (728, None)
  /\ (728 - 16) mod pointSize = 4
  /\ ~ in_reach (mkArchiveInfo 16 1 60) (Timestamp db_base) 357913955
  /\ Scenario.result_of (pointOffset (mkArchiveInfo 16 1 60) 357913933 Scenario.db)
     = Ret (148, None)
  /\ Scenario.result_of (pointOffset (mkArchiveInfo 16 1 60) 357913955 Scenario.db)
     = Ret (156, None).
Proof.
  split; [intros [H|H]; vm_compute in H; discriminate H|].
  split; [vm_compute; reflexivity|].
  split; [reflexivity|].
  split; [intros [H|H]; vm_compute in H; discriminate H|].
  split; vm_compute; reflexivity.
Qed.

(* ================================================================== *)
(** * Writing a point and reading it back *)

Lemma pwrite_firstn data off bs n :
  (n <= off)%nat -> (n <= length data)%nat ->
  firstn n (pwrite data off bs) = firstn n data.
Proof.
  intros Hoff Hlen. destruct bs as [|b bs]; [reflexivity|].
  unfold pwrite. rewrite firstn_app, length_firstn.
  replace (n - Nat.min off (length data))%nat with 0%nat by lia.
  rewrite firstn_O, app_nil_r, firstn_firstn. f_equal. lia.
Qed.

Lemma fits_end archive :
  fits archive -> archive_end archive = Offset archive + pointSize * Points archive.
Proof.
  intros Hfits. unfold archive_end. rewrite (fits_size _ Hfits).
  destruct Hfits as [[Ho _] [_ [Hpts Hfit]]].
  unfold U32.add. apply wrap_small. unfold U32.in_range, pointSize in *. lia.
Qed.

(** [writePoint] puts the record of the point in its slot. *)
Lemma writePoint_in_slot archive p f f0 base :
  fits archive ->
  readPoint 0 f = Ret ((base, None), f0) ->
  in_reach archive (Timestamp base) (Timestamp p) ->
  writePoint archive p f
  = Ret (None,
         mkFile (pwrite (contents f)
                        (Z.to_nat (Offset archive
                                   + pointSize * slot archive (Timestamp base) (Timestamp p)))
                        (encode_Point p))
                (Offset archive
                 + pointSize * slot archive (Timestamp base) (Timestamp p) + 12)).
Proof.
  intros Hfits Hbase Hreach.
  destruct (pointOffset_slot archive (Timestamp p) f f0 base Hfits Hbase Hreach)
    as [Hoff Hslot].
  apply readPoint_result in Hbase as [_ [_ ->]]; [|lia].
  pose proof (fits_end archive Hfits) as Hend.
  destruct Hfits as [[Ho _] [_ [Hpts Hfit]]].
  unfold writePoint, writePoints.
  replace (len32 [p]) with 1 by reflexivity.
  replace (1 >? Points archive) with false
    by (symmetry; rewrite Z.gtb_ltb; apply Z.ltb_ge; lia).
  unfold bind at 1. rewrite Hoff.
  unfold bind at 1, file_Seek at 1. cbn [contents cursor].
  set (k := slot archive (Timestamp base) (Timestamp p)) in *.
  assert (Hcap : U32.sub (archive_end archive) (Offset archive + pointSize * k)
                 = pointSize * (Points archive - k)).
  { rewrite Hend. unfold U32.sub. rewrite <- (wrap_small (pointSize * (Points archive - k))).
    - f_equal. ring.
    - unfold U32.in_range, pointSize in *. lia. }
  rewrite Hcap.
  replace (pointSize * (Points archive - k) / pointSize) with (Points archive - k)
    by (rewrite Z.mul_comm, Z.div_mul; unfold pointSize; lia).
  replace (1 >? Points archive - k) with false
    by (symmetry; rewrite Z.gtb_ltb; apply Z.ltb_ge; lia).
  unfold bind, binary_Write_Points, file_Write, ret. cbn [contents cursor].
  cbn [encode_Points flat_map]. rewrite app_nil_r, encode_Point_length.
  reflexivity.
Qed.

(** X12. For an archive that [fits] and starts after the first twelve
    bytes, a base point read at offset zero, and a point with a 32-bit
    timestamp within reach of the base ([in_reach]) and a value the
    format holds: the point [writePoint] stores is the point read back at
    the offset [pointOffset] gives for its timestamp. *)
Theorem writePoint_then_readPoint :
  forall (archive : ArchiveInfo) (p : Point) (f f0 : File) (base : Point),
    fits archive ->
    valid_Point p ->
    pointSize <= Offset archive ->
    readPoint 0 f = Ret ((base, None), f0) ->
    in_reach archive (Timestamp base) (Timestamp p) ->
    exists f',
      (writePoint archive p ;;;
       '(offset, _) <- pointOffset archive (Timestamp p) ;;
       readPoint offset) f
      = Ret ((p, None), f').
Proof.
  intros archive p f f0 base Hfits Hvalid Hafter Hbase Hreach.
  pose proof (writePoint_in_slot archive p f f0 base Hfits Hbase Hreach) as Hw.
  destruct (pointOffset_slot archive (Timestamp p) f f0 base Hfits Hbase Hreach)
    as [_ Hslot].
  set (k := slot archive (Timestamp base) (Timestamp p)) in *.
  set (o := Offset archive + pointSize * k) in *.
  assert (Ho : 12 <= o) by (unfold o, pointSize in *; lia).
  pose proof (readPoint_result 0 f base f0 ltac:(lia) Hbase) as [Hlen [Hb _]].
  cbn [Z.to_nat Nat.add skipn] in Hlen, Hb.
  set (f1 := mkFile (pwrite (contents f) (Z.to_nat o) (encode_Point p)) (o + 12)) in *.
  assert (Hlen1 : length (contents f1)
                  = Nat.max (length (contents f)) (Z.to_nat o + 12)).
  { unfold f1. cbn [contents]. rewrite pwrite_length, encode_Point_length.
    - reflexivity.
    - intros E. apply (f_equal (@length _)) in E.
      rewrite encode_Point_length in E. discriminate E. }
  assert (Hbase1 : readPoint 0 f1 = Ret ((base, None), mkFile (contents f1) 12)).
  { rewrite readPoint_in_file;
      [|lia|rewrite Hlen1; change (Z.to_nat 0) with 0%nat; lia].
    change (Z.to_nat 0) with 0%nat. cbn [skipn].
    unfold f1 at 1. cbn [contents].
    rewrite pwrite_firstn by lia. rewrite <- Hb. reflexivity. }
  destruct (pointOffset_slot archive (Timestamp p) f1 _ base Hfits Hbase1 Hreach)
    as [Hoff1 _].
  fold k o in Hoff1.
  unfold bind at 1. rewrite Hw. unfold bind at 1. rewrite Hoff1.
  rewrite readPoint_in_file; [|lia|cbn [contents]; rewrite Hlen1; lia].
  cbn [contents]. unfold f1 at 1. cbn [contents].
  replace 12%nat with (length (encode_Point p)) by apply encode_Point_length.
  rewrite pwrite_reads_back.
  rewrite decode_encode_Point by exact Hvalid. eauto.
Qed.

Lemma writePoint_then_readPoint_witness :
  exists f',
    (writePoint Scenario.fine (mkPoint 99990 (Scenario.f64 7)) ;;;
     '(offset, _) <- pointOffset Scenario.fine 99990 ;;
     readPoint offset) Scenario.db
    = Ret ((mkPoint 99990 (Scenario.f64 7), None), f').
Proof.
  refine (writePoint_then_readPoint Scenario.fine (mkPoint 99990 (Scenario.f64 7))
            Scenario.db (mkFile (contents Scenario.db) 12) db_base _ _ _ _ _).
  - unfold fits, valid_ArchiveInfo, U32.in_range, U32.modulus, pointSize. simpl. lia.
  - by_evaluation.
  - by_evaluation.
  - vm_compute. reflexivity.
  - right. vm_compute. reflexivity.
Defined.

(** X13. [writePoints] panics on an empty list that passes the capacity
    check, and when it returns an error it has written nothing: there
    were more points than the archive holds, or the file is too short
    for the base point to be read. *)
Theorem writePoints_failures :
  forall (archive : ArchiveInfo) (points : list Point) (f : File),
    (0 <= Points archive -> writePoints archive [] f = Panic IndexOutOfRange)
    /\ (forall e f',
           writePoints archive points f = Ret (Some e, f') ->
           contents f' = contents f
           /\ (Points archive < len32 points
               \/ (length (contents f) < 12)%nat)).
Proof.
  intros archive points f. split.
  - intros H. unfold writePoints.
    replace (len32 (@nil Point)) with 0 by reflexivity.
    replace (0 >? Points archive) with false
      by (symmetry; rewrite Z.gtb_ltb; apply Z.ltb_ge; exact H).
    reflexivity.
  - intros e f' H. unfold writePoints in H.
    destruct (len32 points >? Points archive) eqn:Hcap.
    + unfold ret in H. inversion H. subst. split; [reflexivity|].
      left. now apply Z.gtb_lt.
    + destruct points as [|first rest]; [discriminate H|].
      unfold bind at 1 in H.
      destruct (pointOffset archive (Timestamp first) f) as [[[offset [e0|]] f1]|q] eqn:Hoff;
        [| |discriminate H].
      * unfold ret in H. inversion H. subst.
        split; [eapply pointOffset_contents; eassumption|].
        right.
        destruct (Nat.le_gt_cases 12 (length (contents f))) as [Hle|Hgt]; [|exact Hgt].
        unfold pointOffset in Hoff. unfold bind at 1 in Hoff.
        rewrite readPoint_in_file in Hoff by (cbn; lia).
        destruct (Timestamp _ =? 0); [unfold ret in Hoff; discriminate Hoff|].
        unfold bind, lift, ret, u32_div, u32_rem in Hoff.
        destruct (SecondsPerPoint archive =? 0); [discriminate Hoff|].
        destruct (size archive =? 0); discriminate Hoff.
      * exfalso. unfold bind at 1, file_Seek at 1 in H.
        destruct (len32 (first :: rest)
                  >? U32.sub (archive_end archive) offset / pointSize);
          unfold bind, binary_Write_Points, file_Write, file_Seek, ret in H;
          cbv beta iota in H; discriminate H.
Qed.

(** On a file of eight bytes the base point cannot be read. *)
Example writePoints_on_a_short_file :
  writePoints Scenario.fine [mkPoint 99990 (Scenario.f64 7)]
    (mkFile (Codec.zeros 8) 0)
  = Ret (Some ErrUnexpectedEOF, mkFile (Codec.zeros 8) 8)
  /\ writePoints (mkArchiveInfo 16 10 1) (firstn 2 Scenario.six) Scenario.db
     = Ret (Some (ErrTooManyPoints 1 2), Scenario.db).
Proof. split; vm_compute; reflexivity. Qed.

Lemma writePoints_failures_witness :
  writePoints Scenario.fine [] Scenario.db = Panic IndexOutOfRange
  /\ contents (mkFile (Codec.zeros 8) 8) = contents (mkFile (Codec.zeros 8) 0)
  /\ (Points Scenario.fine < len32 [mkPoint 99990 (Scenario.f64 7)]
      \/ (length (contents (mkFile (Codec.zeros 8) 0)) < 12)%nat).
Proof.
  split.
  - apply (proj1 (writePoints_failures Scenario.fine [] Scenario.db)).
    by_evaluation.
  - apply (proj2 (writePoints_failures Scenario.fine
                    [mkPoint 99990 (Scenario.f64 7)] (mkFile (Codec.zeros 8) 0))
             ErrUnexpectedEOF (mkFile (Codec.zeros 8) 8)).
    vm_compute. reflexivity.
Defined.

(* ================================================================== *)
(** * What [propagate] reads and what it leaves *)

Lemma readPoints_length offset n f ps e f' :
  readPoints offset n f = Ret ((ps, e), f') -> length ps = n.
Proof.
  unfold readPoints, bind, file_Seek, binary_Read_Points, bind.
  destruct (io_ReadFull _ _) as [[[bs [err|]] f1]|p]; try discriminate;
    unfold ret; intros H; inversion H; subst.
  - apply repeat_length.
  - rewrite length_map. clear. revert bs.
    induction n as [|n IH]; intros bs; [reflexivity|]. cbn. now rewrite IH.
Qed.

Lemma readPointsBetweenOffsets_length archive s e f ps err f' :
  readPointsBetweenOffsets archive s e f = Ret ((ps, err), f') ->
  length ps
  = if s <? e then Z.to_nat (U32.sub e s / pointSize)
    else (Z.to_nat (U32.sub (archive_end archive) s / pointSize)
          + Z.to_nat (U32.sub e (Offset archive) / pointSize))%nat.
Proof.
  unfold readPointsBetweenOffsets. destruct (s <? e).
  - apply readPoints_length.
  - unfold bind.
    destruct (readPoints s _ f) as [[[endPoints [e1|]] f1]|p] eqn:E1; try discriminate.
    + apply readPoints_length in E1. unfold ret. intros H. inversion H. subst.
      rewrite length_app, repeat_length. now rewrite E1.
    + apply readPoints_length in E1.
      destruct (readPoints (Offset archive) _ f1) as [[[beginPoints e2] f2]|p] eqn:E2;
        try discriminate.
      apply readPoints_length in E2. unfold ret. intros H. inversion H. subst.
      rewrite length_app. now rewrite E1, E2.
Qed.

Lemma readPointsBetweenOffsets_contents archive s e f r f' :
  readPointsBetweenOffsets archive s e f = Ret (r, f') -> contents f' = contents f.
Proof.
  unfold readPointsBetweenOffsets. destruct (s <? e).
  - apply readPoints_contents.
  - unfold bind.
    destruct (readPoints s _ f) as [[[endPoints [e1|]] f1]|p] eqn:E1; try discriminate;
      apply readPoints_contents in E1.
    + unfold ret. intros H. inversion H. now subst.
    + destruct (readPoints (Offset archive) _ f1) as [[[beginPoints e2] f2]|p] eqn:E2;
        try discriminate.
      apply readPoints_contents in E2. unfold ret. intros H. inversion H. subst.
      congruence.
Qed.

Lemma propagate_collect_contents timestamp higher lower f r f' :
  propagate_collect timestamp higher lower f = Ret (r, f') -> contents f' = contents f.
Proof.
  unfold propagate_collect. unfold bind at 1, lift at 1.
  destruct (u32_rem timestamp (SecondsPerPoint lower)) as [rem|p]; [|discriminate].
  unfold bind at 1.
  destruct (pointOffset higher _ f) as [[[first [e|]] f1]|p] eqn:Eoff; try discriminate;
    apply pointOffset_contents in Eoff.
  - unfold ret. intros H. inversion H. now subst.
  - unfold bind at 1, lift at 1.
    destruct (u32_div _ _) as [n|p]; [|discriminate].
    unfold bind at 1, lift at 1.
    destruct (u32_rem _ _) as [rl|p]; [|discriminate].
    unfold bind at 1.
    destruct (readPointsBetweenOffsets higher _ _ f1) as [[[points [e|]] f2]|p] eqn:Erd;
      try discriminate;
      apply readPointsBetweenOffsets_contents in Erd;
      unfold ret; intros H; inversion H; subst; congruence.
Qed.

(** X14. When [propagate] returns false it has written nothing, and when
    it returns true it returns no error; its only panic is the division
    by zero. *)
Theorem propagate_outcomes :
  forall (w : Whisper) (timestamp : Z) (higher lower : ArchiveInfo) (f : File),
    match propagate w timestamp higher lower f with
    | Ret ((false, _), f') => contents f' = contents f
    | Ret ((true, e), _) => e = None
    | Panic p => p = DivideByZero
    end.
Proof.
  intros w timestamp higher lower f.
  pose proof (propagate_true_no_error aggregate w timestamp higher lower f) as Htrue.
  fold propagate in Htrue.
  assert (Hpanic : propagate w timestamp higher lower f <> Panic IndexOutOfRange).
  { unfold propagate. rewrite propagate_with_split. apply bind_no_index_panic.
    - apply propagate_collect_no_index_panic.
    - intros [e|[start points]] f'; [discriminate|].
      apply propagate_decide_no_index_panic. }
  destruct (propagate w timestamp higher lower f) as [[[[|] e] f']|[|]] eqn:E.
  - eapply Htrue. reflexivity.
  - unfold propagate in E. rewrite propagate_with_split in E. unfold bind at 1 in E.
    destruct (propagate_collect timestamp higher lower f)
      as [[[err|[start points]] f0]|p] eqn:Ec; try discriminate;
      apply propagate_collect_contents in Ec.
    + unfold ret in E. inversion E. now subst.
    + unfold propagate_decide in E.
      destruct (nothing_to_propagate _ _ _).
      * unfold ret in E. inversion E. now subst.
      * unfold bind, lift in E.
        destruct (aggregate _ _) as [[pt [err|]]|p]; try discriminate.
        -- unfold ret in E. inversion E. now subst.
        -- destruct (writePoint _ _ _) as [[x f1]|p]; discriminate.
  - reflexivity.
  - congruence.
Qed.

(** X15. For a higher archive that [fits] and whose bytes, counted
    twice, stay below [2 ^ 32], a lower archive whose resolution holds
    that of the higher one between once and as many times as the higher
    archive has points, a base point read at offset zero, and an interval
    start within reach of the base ([in_reach]): when its reads succeed,
    [propagate] collects exactly
    [lower.SecondsPerPoint / higher.SecondsPerPoint] points, for the
    interval that starts at the timestamp rounded down to the coarser
    resolution.  Beyond that reach it can collect fewer
    ([propagate_beyond_reach]). *)
Theorem propagate_collects_the_interval :
  forall (timestamp : Z) (higher lower : ArchiveInfo) (f f0 f' : File)
         (base : Point) (start : Z) (points : list Point),
    fits higher ->
    2 * (pointSize * Points higher) < U32.modulus ->
    0 < SecondsPerPoint lower / SecondsPerPoint higher <= Points higher ->
    readPoint 0 f = Ret ((base, None), f0) ->
    in_reach higher (Timestamp base)
             (U32.sub timestamp (timestamp mod SecondsPerPoint lower)) ->
    propagate_collect timestamp higher lower f = Ret (inr (start, points), f') ->
    start = U32.sub timestamp (timestamp mod SecondsPerPoint lower)
    /\ Z.of_nat (length points) = SecondsPerPoint lower / SecondsPerPoint higher.
Proof.
  intros timestamp higher lower f f0 f' base start points
         Hfits Hroom HN Hbase Hreach Hcollect.
  pose proof (fits_size higher Hfits) as Hsize.
  pose proof (fits_end higher Hfits) as Hend.
  destruct (pointOffset_slot higher _ f f0 base Hfits Hbase Hreach) as [Hoff Hslot].
  destruct Hfits as [[Ho [Hs Hp]] [Hspp [Hpts Hfit]]].
  assert (Hlow : SecondsPerPoint lower <> 0).
  { intros E. rewrite E in HN. cbn in HN. lia. }
  set (N := SecondsPerPoint lower / SecondsPerPoint higher) in *.
  set (k := slot higher (Timestamp base)
                 (U32.sub timestamp (timestamp mod SecondsPerPoint lower))) in *.
  set (C := Points higher) in *.
  unfold U32.in_range, U32.modulus, pointSize in *.
  unfold propagate_collect in Hcollect.
  unfold bind at 1, lift at 1, u32_rem at 1 in Hcollect.
  replace (SecondsPerPoint lower =? 0) with false in Hcollect
    by (symmetry; now apply Z.eqb_neq).
  unfold bind at 1 in Hcollect. rewrite Hoff in Hcollect.
  unfold bind at 1, lift at 1, u32_div at 1 in Hcollect.
  replace (SecondsPerPoint higher =? 0) with false in Hcollect
    by (symmetry; apply Z.eqb_neq; lia).
  fold N in Hcollect.
  assert (Hrf : U32.sub (Offset higher + 12 * k) (Offset higher) = 12 * k).
  { unfold U32.sub. replace (Offset higher + 12 * k - Offset higher) with (12 * k) by ring.
    apply wrap_small. unfold U32.in_range, U32.modulus. lia. }
  assert (Hps : U32.mul N 12 = 12 * N).
  { unfold U32.mul. rewrite Z.mul_comm. apply wrap_small.
    unfold U32.in_range, U32.modulus. lia. }
  assert (Hsum : U32.add (12 * k) (12 * N) = 12 * (k + N)).
  { unfold U32.add. rewrite <- Z.mul_add_distr_l. apply wrap_small.
    unfold U32.in_range, U32.modulus. lia. }
  unfold pointSize in Hcollect. rewrite Hrf, Hps, Hsum, Hsize in Hcollect.
  unfold bind at 1, lift at 1, u32_rem at 1 in Hcollect.
  replace (12 * C =? 0) with false in Hcollect by (symmetry; apply Z.eqb_neq; lia).
  rewrite Z.mul_mod_distr_l in Hcollect by lia.
  set (m := (k + N) mod C) in *.
  assert (Hm : 0 <= m < C) by (apply Z.mod_pos_bound; lia).
  assert (Hlast : U32.add (12 * m) (Offset higher) = Offset higher + 12 * m).
  { unfold U32.add. rewrite Z.add_comm. apply wrap_small.
    unfold U32.in_range, U32.modulus. lia. }
  rewrite Hlast in Hcollect.
  unfold bind at 1 in Hcollect.
  destruct (readPointsBetweenOffsets higher _ _ f0) as [[[ps [e|]] f2]|p] eqn:Erd;
    try discriminate.
  unfold ret in Hcollect. inversion Hcollect. subst ps f2 start. clear Hcollect.
  split; [reflexivity|].
  apply readPointsBetweenOffsets_length in Erd. rewrite Erd, Hend. clear Erd.
  unfold pointSize.
  assert (Hcases : (k + N < C /\ m = k + N) \/ (C <= k + N /\ m = k + N - C)).
  { destruct (Z.lt_ge_cases (k + N) C) as [Hlt|Hge].
    - left. split; [exact Hlt|]. apply Z.mod_small. lia.
    - right. split; [exact Hge|]. unfold m.
      rewrite <- (Z.mod_add (k + N) (-1) C) by lia.
      replace (k + N + -1 * C) with (k + N - C) by ring.
      apply Z.mod_small. lia. }
  destruct Hcases as [[Hlt Hmeq]|[Hge Hmeq]].
  - replace (Offset higher + 12 * k <? Offset higher + 12 * m) with true
      by (symmetry; apply Z.ltb_lt; lia).
    unfold U32.sub.
    replace (Offset higher + 12 * m - (Offset higher + 12 * k)) with (N * 12) by lia.
    rewrite wrap_small by (unfold U32.in_range, U32.modulus; lia).
    rewrite Z.div_mul by lia. lia.
  - replace (Offset higher + 12 * k <? Offset higher + 12 * m) with false
      by (symmetry; apply Z.ltb_ge; lia).
    unfold U32.sub.
    replace (Offset higher + 12 * C - (Offset higher + 12 * k)) with ((C - k) * 12) by ring.
    replace (Offset higher + 12 * m - Offset higher) with (m * 12) by ring.
    rewrite !wrap_small by (unfold U32.in_range, U32.modulus; lia).
    rewrite !Z.div_mul by lia. lia.
Qed.

Lemma propagate_collects_the_interval_witness :
  99960 = U32.sub 99990 (99990 mod SecondsPerPoint Scenario.coarse)
  /\ Z.of_nat (length Scenario.six)
     = SecondsPerPoint Scenario.coarse / SecondsPerPoint Scenario.fine.
Proof.
  refine (propagate_collects_the_interval 99990 Scenario.fine Scenario.coarse
            Scenario.db_six (mkFile (contents Scenario.db_six) 12)
            (Scenario.file_of
               (propagate_collect 99990 Scenario.fine Scenario.coarse Scenario.db_six))
            (decode_Point (firstn 12 (contents Scenario.db_six)))
            99960 Scenario.six _ _ _ _ _ _).
  - unfold fits, valid_ArchiveInfo, U32.in_range, U32.modulus, pointSize. simpl. lia.
  - by_evaluation.
  - by_evaluation.
  - vm_compute. reflexivity.
  - right. vm_compute. reflexivity.
  - vm_compute. reflexivity.
Defined.

(** Beyond the reach of the base [propagate] reads five points where the
    resolutions are six to one. *)
Example propagate_beyond_reach :
  ~ in_reach (mkArchiveInfo 16 1 60) (Timestamp db_base)
      (U32.sub 1793411808 (1793411808 mod 6))
  /\ match propagate_collect 1793411808 (mkArchiveInfo 16 1 60)
                             (mkArchiveInfo 736 6 60) Scenario.db with
     | Ret (inr (start, points), _) => start = 1793411808 /\ length points = 5%nat
     | _ => False
     end.
Proof.
  split; [intros [H|H]; vm_compute in H; discriminate H|].
  vm_compute. split; reflexivity.
Qed.

(* ================================================================== *)
(** * Quantizing and splitting a batch *)

(** X16. For a resolution above zero [quantizeArchive] keeps the values
    and rounds every timestamp down to a multiple of the resolution, less
    than one step below it, and quantizing again changes nothing; a
    resolution of zero panics on the first point. *)
Theorem quantizeArchive_rounds_down :
  forall (points : list Point) (resolution : Z),
    (0 < resolution ->
     Forall (fun p => U32.in_range (Timestamp p)) points ->
     exists quantized,
       quantizeArchive points resolution = Ret quantized
       /\ Forall2 (fun p q =>
                     Value q = Value p
                     /\ (resolution | Timestamp q)
                     /\ Timestamp q <= Timestamp p < Timestamp q + resolution)
                  points quantized
       /\ quantizeArchive quantized resolution = Ret quantized)
    /\ (points <> [] -> quantizeArchive points 0 = Panic DivideByZero).
Proof.
  intros points resolution. split.
  - intros Hres Hall.
    induction Hall as [|p ps Hp _ IH].
    + exists []. repeat split; constructor.
    + destruct IH as [qs [Hq [Hrel Hidem]]].
      unfold U32.in_range in Hp. cbv beta in Hp.
      pose proof (Z.mod_pos_bound (Timestamp p) resolution Hres) as Hm.
      pose proof (Z.div_mod (Timestamp p) resolution ltac:(lia)) as Hdm.
      assert (Hsub : U32.sub (Timestamp p) (Timestamp p mod resolution)
                     = resolution * (Timestamp p / resolution)).
      { unfold U32.sub. rewrite wrap_small; [lia|].
        unfold U32.in_range.
        pose proof (Z.mod_le (Timestamp p) resolution ltac:(lia) Hres). lia. }
      exists (mkPoint (resolution * (Timestamp p / resolution)) (Value p) :: qs).
      cbn [quantizeArchive]. unfold u32_rem.
      replace (resolution =? 0) with false by (symmetry; apply Z.eqb_neq; lia).
      cbn [go_bind]. rewrite Hq. cbn [go_bind]. rewrite Hsub.
      split; [reflexivity|]. split.
      * constructor; [|exact Hrel]. cbn [Timestamp Value].
        split; [reflexivity|]. split; [now exists (Timestamp p / resolution); lia|lia].
      * cbn [quantizeArchive Timestamp Value]. unfold u32_rem.
        replace (resolution =? 0) with false by (symmetry; apply Z.eqb_neq; lia).
        cbn [go_bind]. rewrite Hidem. cbn [go_bind].
        rewrite Z.mul_comm, Z.mod_mul by lia.
        unfold U32.sub. rewrite Z.sub_0_r, wrap_small; [reflexivity|].
        unfold U32.in_range.
        assert (0 <= Timestamp p / resolution) by (apply Z.div_pos; lia).
        nia.
  - intros Hne. destruct points as [|p ps]; [congruence|]. reflexivity.
Qed.

Lemma quantizeArchive_rounds_down_witness :
  exists quantized,
    quantizeArchive [fresh; aged] 60 = Ret quantized
    /\ Forall2 (fun p q =>
                  Value q = Value p
                  /\ (60 | Timestamp q)
                  /\ Timestamp q <= Timestamp p < Timestamp q + 60)
               [fresh; aged] quantized
    /\ quantizeArchive quantized 60 = Ret quantized.
Proof.
  refine (proj1 (quantizeArchive_rounds_down [fresh; aged] 60) _ _).
  - lia.
  - repeat constructor; by_evaluation.
Defined.

Lemma series_loop_invariant step points :
  forall previousTimestamp currentPoints archives archives' currentPoints' previous',
    series_loop step points previousTimestamp currentPoints archives
    = (archives', currentPoints', previous') ->
    (currentPoints = [] -> previousTimestamp = 0) ->
    Forall (fun a => stamped_points a <> []) archives ->
    concat (map stamped_points archives') ++ currentPoints'
    = concat (map stamped_points archives) ++ currentPoints
        ++ kept previousTimestamp points
    /\ Forall (fun a => stamped_points a <> []) archives'.
Proof.
  induction points as [|p rest IH];
    intros prev cur acc acc' cur' prev' H Hcur Hacc.
  - cbn in H. inversion H. subst. cbn [kept]. rewrite app_nil_r. auto.
  - cbn [series_loop kept] in *.
    destruct (Timestamp p =? prev) eqn:Hdup.
    + eapply IH; eassumption.
    + destruct (negb (prev =? 0) && negb (Timestamp p =? U32.add prev step)) eqn:Hsplit.
      * apply IH in H.
        -- destruct H as [H1 H2]. split; [|exact H2].
           rewrite H1, map_app, concat_app. cbn [map concat stamped_points].
           rewrite app_nil_r, <- !app_assoc. reflexivity.
        -- discriminate.
        -- apply Forall_app. split; [exact Hacc|]. constructor; [|constructor].
           cbn [stamped_points]. intros E. apply Hcur in E.
           rewrite E in Hsplit. discriminate Hsplit.
      * apply IH in H.
        -- destruct H as [H1 H2]. split; [|exact H2].
           rewrite H1, <- !app_assoc. reflexivity.
        -- intros E. destruct cur; discriminate E.
        -- exact Hacc.
Qed.

(** X17. The runs [archiveUpdateMany] cuts a batch into are never empty,
    and put end to end they are the batch without the points whose
    timestamp repeats that of the point kept before them. *)
Theorem series_keeps_the_batch :
  forall (step : Z) (points : list Point),
    concat (map stamped_points (series step points)) = kept 0 points
    /\ Forall (fun a => stamped_points a <> []) (series step points).
Proof.
  intros step points. unfold series.
  destruct (series_loop step points 0 [] []) as [[archives cur] prev] eqn:E.
  apply series_loop_invariant in E; [|reflexivity|constructor].
  destruct E as [H1 H2]. cbn [map concat app] in H1.
  destruct cur as [|c cur].
  - rewrite app_nil_r in H1. auto.
  - split.
    + rewrite map_app, concat_app. cbn [map concat stamped_points].
      rewrite app_nil_r. exact H1.
    + apply Forall_app. split; [exact H2|]. constructor; [discriminate|constructor].
Qed.

Lemma series_runs_nonempty step points :
  Forall (fun a => stamped_points a <> []) (series step points).
Proof.
  unfold series.
  destruct (series_loop step points 0 [] []) as [[archives cur] prev] eqn:E.
  apply series_loop_invariant in E; [|reflexivity|constructor].
  destruct E as [_ H2]. destruct cur as [|c cur]; [exact H2|].
  apply Forall_app. split; [exact H2|]. constructor; [discriminate|constructor].
Qed.

Lemma series_loop_descending step points :
  forall previous current archives,
    0 < step ->
    descending step points ->
    current <> [] ->
    0 < previous -> previous + step < U32.modulus ->
    match points with [] => True | q :: _ => Timestamp q <= previous end ->
    let '(archives', current', _) :=
      series_loop step points previous current archives in
    map stamped_points archives' ++ [current']
    = map stamped_points archives ++ [current]
        ++ map (fun p => [p]) (kept previous points).
Proof.
  induction points as [|p rest IH];
    intros prev cur acc Hstep Hdesc Hcur Hprev Hroom Hlt.
  - cbn. reflexivity.
  - cbn [series_loop kept]. destruct Hdesc as [Hp [Hproom [Hnext Hdesc]]].
    destruct (Timestamp p =? prev) eqn:Hdup.
    + apply IH; try assumption.
      apply Z.eqb_eq in Hdup. destruct rest; [exact I|lia].
    + apply Z.eqb_neq in Hdup.
      replace (prev =? 0) with false by (symmetry; apply Z.eqb_neq; lia).
      assert (Hadd : U32.add prev step = prev + step).
      { unfold U32.add. apply wrap_small. unfold U32.in_range. lia. }
      rewrite Hadd.
      replace (Timestamp p =? prev + step) with false
        by (symmetry; apply Z.eqb_neq; lia).
      cbn [negb andb].
      specialize (IH (Timestamp p) [p]
                     (acc ++ [mkStamped (U32.sub prev (U32.mul (len32 cur) step)) cur])
                     Hstep Hdesc ltac:(discriminate) Hp Hproom Hnext).
      destruct (series_loop step rest (Timestamp p) [p] _) as [[acc' cur'] prev'].
      rewrite IH, map_app. cbn [map stamped_points app].
      rewrite <- !app_assoc. reflexivity.
Qed.

Lemma series_descending :
  forall (step : Z) (points : list Point),
    0 < step ->
    descending step points ->
    map stamped_points (series step points)
    = map (fun p => [p]) (kept 0 points).
Proof.
  intros step points Hstep Hdesc. unfold series.
  destruct points as [|p rest]; [reflexivity|].
  cbn [series_loop kept]. destruct Hdesc as [Hp [Hproom [Hnext Hdesc]]].
  replace (Timestamp p =? 0) with false by (symmetry; apply Z.eqb_neq; lia).
  cbn [Z.eqb negb andb app].
  pose proof (series_loop_descending step rest (Timestamp p) [p] []
                Hstep Hdesc ltac:(discriminate) Hp Hproom Hnext) as H.
  destruct (series_loop step rest (Timestamp p) [p] []) as [[acc cur] prev].
  cbn [map app] in H.
  destruct cur as [|c cur].
  - exfalso.
    assert (Hin : In (@nil Point)
                     ([p] :: map (fun p0 : Point => [p0]) (kept (Timestamp p) rest))).
    { rewrite <- H. apply in_or_app. right. now left. }
    destruct Hin as [Hin|Hin]; [discriminate Hin|].
    apply in_map_iff in Hin as [x [Hx _]]. discriminate Hx.
  - rewrite map_app. cbn [map stamped_points]. exact H.
Qed.

(** X18. On a batch whose timestamps do not go up, as [UpdateMany] sorts
    it, every point that is kept is a run of its own: [writePoints] is
    called with one point at a time. *)
Theorem series_of_a_descending_batch :
  forall (step : Z) (points : list Point),
    0 < step ->
    descending step points ->
    map stamped_points (series step points)
    = map (fun p => [p]) (kept 0 points).
Proof. exact series_descending. Qed.

Lemma series_of_a_descending_batch_witness :
  map stamped_points
      (series 60 [mkPoint 99960 Float.zero; mkPoint 99960 (Scenario.f64 2);
                  mkPoint 99900 (Scenario.f64 3)])
  = [[mkPoint 99960 Float.zero]; [mkPoint 99900 (Scenario.f64 3)]].
Proof.
  apply (series_of_a_descending_batch 60
           [mkPoint 99960 Float.zero; mkPoint 99960 (Scenario.f64 2);
            mkPoint 99900 (Scenario.f64 3)]).
  - lia.
  - by_evaluation.
Defined.

(* ================================================================== *)
(** * Batch updates: panics and errors *)

Lemma propagate_no_index_panic w timestamp higher lower f :
  no_index_panic (propagate w timestamp higher lower f).
Proof.
  unfold propagate. rewrite propagate_with_split. apply bind_no_index_panic.
  - apply propagate_collect_no_index_panic.
  - intros [e|[start points]] f'; [discriminate|].
    apply propagate_decide_no_index_panic.
Qed.

Lemma writePoints_nonempty_no_index_panic archive points f :
  points <> [] -> no_index_panic (writePoints archive points f).
Proof.
  intros Hne. destruct points as [|first rest]; [congruence|].
  unfold writePoints.
  destruct (_ >? _); [discriminate|].
  apply bind_no_index_panic; [apply pointOffset_no_index_panic|].
  intros [offset [e|]] f1; [discriminate|].
  apply bind_no_index_panic; [apply file_Seek_no_index_panic|].
  intros [e|] f2; [discriminate|].
  destruct (_ >? _).
  - apply bind_no_index_panic; [apply file_Write_no_index_panic|].
    intros [e|] f3; [discriminate|].
    apply bind_no_index_panic; [apply file_Seek_no_index_panic|].
    intros [e|] f4; [discriminate|]. apply file_Write_no_index_panic.
  - apply bind_no_index_panic; [apply file_Write_no_index_panic|].
    intros. apply ret_no_index_panic.
Qed.

Lemma write_series_no_index_panic archiveInfo archives :
  Forall (fun a => stamped_points a <> []) archives ->
  forall f, no_index_panic (write_series archiveInfo archives f).
Proof.
  induction 1 as [|a rest Ha _ IH]; intros f; [discriminate|].
  cbn [write_series]. apply bind_no_index_panic.
  - now apply writePoints_nonempty_no_index_panic.
  - intros [e|] f'; [discriminate|apply IH].
Qed.

Lemma quantizeArchive_no_index_panic points resolution :
  no_index_panic (quantizeArchive points resolution).
Proof.
  induction points as [|p ps IH]; [discriminate|].
  cbn [quantizeArchive]. unfold u32_rem.
  destruct (resolution =? 0); [discriminate|]. cbn [go_bind].
  unfold no_index_panic in *.
  destruct (quantizeArchive ps resolution) as [qs|q]; cbn [go_bind];
    [discriminate|exact IH].
Qed.

Lemma lift_no_index_panic {A} (c : go A) f :
  no_index_panic c -> no_index_panic (lift c f).
Proof. unfold no_index_panic, lift. destruct c; [discriminate|congruence]. Qed.

Lemma propagate_points_no_index_panic w higher info quantizedPoints :
  forall lastPoint f,
    no_index_panic (propagate_points w higher info quantizedPoints lastPoint f).
Proof.
  induction quantizedPoints as [|p rest IH]; intros lastPoint f; [discriminate|].
  cbn [propagate_points]. destruct (_ =? _); [apply IH|].
  apply bind_no_index_panic; [apply propagate_no_index_panic|].
  intros [further [e|]] f'; [discriminate|].
  destruct (negb further); [discriminate|apply IH].
Qed.

Lemma PropagateLoop_no_index_panic w archiveInfo points infos :
  forall higher f,
    no_index_panic (PropagateLoop w archiveInfo points higher infos f).
Proof.
  induction infos as [|info rest IH]; intros higher f; [discriminate|].
  cbn [PropagateLoop]. destruct (_ <? _); [apply IH|].
  apply bind_no_index_panic;
    [apply lift_no_index_panic, quantizeArchive_no_index_panic|].
  intros quantized f1.
  apply bind_no_index_panic; [apply propagate_points_no_index_panic|].
  intros [| |e] f2; [apply IH|discriminate|discriminate].
Qed.

Lemma archiveUpdateMany_no_index_panic w archiveInfo points f :
  no_index_panic (archiveUpdateMany w archiveInfo points f).
Proof.
  unfold archiveUpdateMany.
  apply bind_no_index_panic;
    [apply lift_no_index_panic, quantizeArchive_no_index_panic|].
  intros quantized f1.
  apply bind_no_index_panic;
    [apply write_series_no_index_panic, series_runs_nonempty|].
  intros [e|] f2; [discriminate|apply PropagateLoop_no_index_panic].
Qed.

Lemma flush_no_index_panic w currentArchive currentPoints f :
  no_index_panic (flush w currentArchive currentPoints f).
Proof.
  unfold flush. apply bind_no_index_panic;
    [apply archiveUpdateMany_no_index_panic|discriminate].
Qed.

Lemma advance_no_index_panic w after :
  forall currentArchive currentPoints age f,
    no_index_panic (advance w currentArchive after currentPoints age f).
Proof.
  induction after as [|next after' IH]; intros currentArchive currentPoints age f;
    cbn [advance]; (destruct (_ <? _); [|discriminate]);
    (apply bind_no_index_panic;
     [destruct currentPoints;
      [discriminate
      |apply bind_no_index_panic; [apply flush_no_index_panic|discriminate]]|]).
  - discriminate.
  - intros pts f'. apply IH.
Qed.

Lemma PointLoop_no_index_panic w now points :
  forall currentArchive after currentPoints f,
    no_index_panic (PointLoop w now currentArchive after currentPoints points f).
Proof.
  induction points as [|p rest IH]; intros currentArchive after currentPoints f;
    [discriminate|].
  cbn [PointLoop]. apply bind_no_index_panic; [apply advance_no_index_panic|].
  intros [[[a after']|] pts] f'; [apply IH|discriminate].
Qed.

(** X19. [UpdateMany] never returns an error: what [archiveUpdateMany]
    returns is dropped.  It panics on its first index when the database
    has no archive, and with at least one archive its only panic is a
    division by zero. *)
Theorem UpdateMany_outcomes :
  forall (w : Whisper) (now : Z) (points : list Point) (f : File),
    match UpdateMany w now points f with
    | Ret (e, _) => e = None /\ Archives (W_Header w) <> []
    | Panic p => p = IndexOutOfRange <-> Archives (W_Header w) = []
    end.
Proof.
  intros w now points f. unfold UpdateMany.
  destruct (Archives (W_Header w)) as [|first after] eqn:Ea.
  - cbn. tauto.
  - pose proof (PointLoop_no_index_panic w now points first after [] f) as HP.
    unfold bind at 1.
    destruct (PointLoop w now first after [] points f)
      as [[[[a|] [|c cs]] f1]|p]; cbn beta iota.
    + unfold ret. split; [reflexivity|discriminate].
    + pose proof (flush_no_index_panic w a (c :: cs) f1) as HF.
      unfold bind. destruct (flush w a (c :: cs) f1) as [[[] f2]|q].
      * unfold ret. split; [reflexivity|discriminate].
      * split; [intros ->; now elim HF|discriminate].
    + unfold ret. split; [reflexivity|discriminate].
    + unfold ret. split; [reflexivity|discriminate].
    + split; [intros ->; now elim HP|discriminate].
Qed.

(* ================================================================== *)
(** * Reading the header back *)

Lemma firstn_exact {A} n (l r : list A) : length l = n -> firstn n (l ++ r) = l.
Proof.
  intros <-. rewrite firstn_app, Nat.sub_diag, firstn_O, app_nil_r.
  apply firstn_all.
Qed.

Lemma skipn_exact {A} n (l r : list A) : length l = n -> skipn n (l ++ r) = r.
Proof.
  intros <-. rewrite skipn_app, Nat.sub_diag, skipn_O, skipn_all. reflexivity.
Qed.

Lemma decode_encode_ArchiveInfo a :
  valid_ArchiveInfo a -> decode_ArchiveInfo (encode_ArchiveInfo a) = a.
Proof.
  intros [Ho [Hs Hp]]. unfold decode_ArchiveInfo, encode_ArchiveInfo.
  rewrite (firstn_exact 4) by apply be_encode_length.
  rewrite (skipn_exact 4) by apply be_encode_length.
  rewrite (firstn_exact 4) by apply be_encode_length.
  rewrite app_assoc, (skipn_exact 8)
    by (rewrite length_app, !be_encode_length; reflexivity).
  rewrite firstn_all2 by (rewrite be_encode_length; lia).
  rewrite !be_decode_encode_u32 by assumption. now destruct a.
Qed.

Lemma decode_encode_Metadata m :
  valid_Metadata m -> decode_Metadata (encode_Metadata m) = m.
Proof.
  intros [Ha [Hr [Hx Hc]]]. unfold decode_Metadata, encode_Metadata.
  rewrite (firstn_exact 4) by apply be_encode_length.
  rewrite (skipn_exact 4) by apply be_encode_length.
  rewrite (firstn_exact 4) by apply be_encode_length.
  rewrite app_assoc, (skipn_exact 8)
    by (rewrite length_app, !be_encode_length; reflexivity).
  rewrite (firstn_exact 4) by apply be_encode_length.
  rewrite !app_assoc, (skipn_exact 12)
    by (rewrite !length_app, !be_encode_length; reflexivity).
  rewrite firstn_all2 by (rewrite be_encode_length; lia).
  rewrite !be_decode_encode_u32 by assumption.
  rewrite be_decode_encode.
  pose proof (to_bits_range 23 8 (XFilesFactor m) ltac:(lia) ltac:(lia) Hx) as Hb.
  rewrite Z.mod_small by exact Hb.
  fold Float.bits32. rewrite of_bits32_bits32 by exact Hx.
  rewrite be_decode_encode_u32 by exact Hc. now destruct m.
Qed.

Lemma io_ReadFull_exact pre bs post n f :
  contents f = pre ++ bs ++ post ->
  cursor f = Z.of_nat (length pre) ->
  length bs = S n ->
  io_ReadFull (S n) f
  = Ret ((bs, None), mkFile (contents f) (cursor f + Z.of_nat (S n))).
Proof.
  intros Hc Hp Hn.
  assert (Hav : skipn (Z.to_nat (cursor f)) (contents f) = bs ++ post).
  { rewrite Hc, Hp, Nat2Z.id. now apply skipn_exact. }
  unfold io_ReadFull. cbv zeta. rewrite Hav.
  destruct (bs ++ post) as [|x xs] eqn:E.
  - apply (f_equal (@length _)) in E. rewrite length_app in E. cbn in E. lia.
  - rewrite <- E.
    replace (length (bs ++ post) <? S n)%nat with false
      by (symmetry; apply Nat.ltb_ge; rewrite length_app; lia).
    rewrite (firstn_exact (S n)) by exact Hn. reflexivity.
Qed.

Lemma nth_error_middle {A} (done : list A) y rest :
  nth_error (done ++ y :: rest) (length done) = Some y.
Proof. induction done as [|d done IH]; [reflexivity|exact IH]. Qed.

Lemma slice_set_middle {A} (done : list A) x y rest :
  slice_set (done ++ y :: rest) (length done) x = done ++ x :: rest.
Proof.
  induction done as [|d done IH]; [reflexivity|].
  cbn [app length slice_set]. now rewrite IH.
Qed.

Lemma slice_set_length {A} (s : list A) :
  forall i x, length (slice_set s i x) = length s.
Proof.
  induction s as [|y s IH]; intros [|i] x; cbn [slice_set length];
    try reflexivity. now rewrite IH.
Qed.

Lemma read_descriptors_fills todo :
  forall done pre post f,
    contents f = pre ++ concat (map encode_ArchiveInfo todo) ++ post ->
    cursor f = Z.of_nat (length pre) ->
    Forall valid_ArchiveInfo todo ->
    exists c,
      read_descriptors (length todo) (length done)
                       (done ++ make_ArchiveInfo (length todo)) f
      = Ret ((done ++ todo, None), mkFile (contents f) c).
Proof.
  induction todo as [|a rest IH]; intros done pre post f Hc Hp Hv.
  - exists (cursor f). cbn. destruct f. reflexivity.
  - inversion Hv as [|? ? Ha Hrest]. subst.
    cbn [length read_descriptors map concat make_ArchiveInfo repeat] in *.
    fold (make_ArchiveInfo (length rest)).
    rewrite nth_error_middle.
    rewrite <- app_assoc in Hc.
    unfold bind at 1.
    rewrite (io_ReadFull_exact pre (encode_ArchiveInfo a)
               (concat (map encode_ArchiveInfo rest) ++ post) 11 f Hc Hp
               (encode_ArchiveInfo_length a)).
    cbv beta iota.
    rewrite slice_set_middle, decode_encode_ArchiveInfo by exact Ha.
    destruct (IH (done ++ [a]) (pre ++ encode_ArchiveInfo a) post
                 (mkFile (contents f) (cursor f + Z.of_nat 12))) as [c Hr].
    + cbn [contents]. rewrite Hc, <- app_assoc. reflexivity.
    + cbn [cursor]. rewrite Hp, length_app, encode_ArchiveInfo_length. lia.
    + exact Hrest.
    + exists c. rewrite length_app in Hr. cbn [length] in Hr.
      rewrite Nat.add_1_r, <- !app_assoc in Hr. exact Hr.
Qed.

Lemma read_descriptors_exact archives :
  forall pre post f,
    contents f = pre ++ concat (map encode_ArchiveInfo archives) ++ post ->
    cursor f = Z.of_nat (length pre) ->
    Forall valid_ArchiveInfo archives ->
    exists c,
      read_descriptors (length archives) 0 (make_ArchiveInfo (length archives)) f
      = Ret ((archives, None), mkFile (contents f) c).
Proof.
  intros pre post f Hc Hp Hv.
  exact (read_descriptors_fills archives [] pre post f Hc Hp Hv).
Qed.

Lemma readHeader_reads h post f :
  valid_Header h ->
  contents f = encode_Header h ++ post ->
  readHeader f = Ret ((h, None), f).
Proof.
  intros [Hm [Hcount Hv]] Hc. unfold encode_Header in Hc.
  rewrite <- app_assoc in Hc.
  unfold readHeader. unfold bind at 1, file_Seek at 1. cbv beta iota.
  unfold bind at 1.
  rewrite (io_ReadFull_exact [] (encode_Metadata (Header_Metadata h))
             (concat (map encode_ArchiveInfo (Archives h)) ++ post) 15
             (mkFile (contents f) 0) Hc eq_refl (encode_Metadata_length _)).
  cbv beta iota. cbn [contents cursor].
  rewrite decode_encode_Metadata by exact Hm.
  rewrite Hcount, Nat2Z.id.
  destruct (read_descriptors_exact (Archives h)
              (encode_Metadata (Header_Metadata h)) post
              (mkFile (contents f) (0 + Z.of_nat 16))) as [c Hr].
  - exact Hc.
  - cbn [cursor]. rewrite encode_Metadata_length. reflexivity.
  - exact Hv.
  - unfold bind. rewrite Hr. cbn [contents]. unfold ret, file_Seek.
    cbn [contents]. destruct h, f. reflexivity.
Qed.

(** X20. [Open] on a file that starts with the bytes of a header reads
    that header back, whatever follows it and wherever the file
    position stands, and leaves the file as it was. *)
Theorem Open_reads_the_header :
  forall (h : Header) (post : list Codec.byte) (f : File),
    valid_Header h ->
    contents f = encode_Header h ++ post ->
    Open f = Ret ((mkWhisper h, None), f).
Proof.
  intros h post f Hv Hc. unfold Open, bind.
  rewrite (readHeader_reads h post f Hv Hc). reflexivity.
Qed.

Lemma Open_reads_the_header_witness :
  Open (mkFile (encode_Header (mkHeader (mkMetadata AGGREGATION_MAX 600 Scenario.half 1)
                                        [mkArchiveInfo 28 10 60])
                ++ [Byte.x01; Byte.x02]) 7)
  = Ret ((mkWhisper (mkHeader (mkMetadata AGGREGATION_MAX 600 Scenario.half 1)
                              [mkArchiveInfo 28 10 60]), None),
         mkFile (encode_Header (mkHeader (mkMetadata AGGREGATION_MAX 600 Scenario.half 1)
                                         [mkArchiveInfo 28 10 60])
                 ++ [Byte.x01; Byte.x02]) 7).
Proof.
  apply (Open_reads_the_header
           (mkHeader (mkMetadata AGGREGATION_MAX 600 Scenario.half 1)
                     [mkArchiveInfo 28 10 60])
           [Byte.x01; Byte.x02]).
  - repeat split; try (repeat constructor; by_evaluation); by_evaluation.
  - reflexivity.
Defined.

(* ================================================================== *)
(** * What [Create] writes, [Open] reads *)

Lemma write_descriptors_contents archives :
  forall p f,
    at_end f ->
    exists p' f',
      write_descriptors archives p f = Ret ((p', None), f')
      /\ at_end f'
      /\ contents f'
         = contents f ++ concat (map encode_ArchiveInfo (assign_offsets p archives)).
Proof.
  induction archives as [|a rest IH]; intros p f Hend.
  - exists p, f. cbn. rewrite app_nil_r. auto.
  - cbn [write_descriptors assign_offsets map concat]. unfold bind at 1.
    destruct (file_Write_at_end
                (encode_ArchiveInfo (mkArchiveInfo p (SecondsPerPoint a) (Points a)))
                f Hend) as [f1 [-> [Hend1 Hc1]]].
    cbn [Points].
    destruct (IH (U32.add p (U32.mul (Points a) pointSize)) f1 Hend1)
      as [p' [f' [-> [Hend' Hc']]]].
    exists p', f'. repeat split; auto.
    rewrite Hc', Hc1, <- app_assoc. reflexivity.
Qed.

Lemma write_chunks_contents fuel :
  forall remaining f,
    at_end f ->
    exists r f' k,
      write_chunks fuel remaining f = Ret (r, f')
      /\ at_end f'
      /\ contents f' = contents f ++ Codec.zeros k.
Proof.
  induction fuel as [|fuel IH]; intros remaining f Hend.
  - exists remaining, f, 0%nat. cbn. rewrite app_nil_r. auto.
  - cbn [write_chunks]. destruct (remaining >? chunkSize).
    + unfold bind at 1.
      destruct (file_Write_at_end (Codec.zeros (Z.to_nat chunkSize)) f Hend)
        as [f1 [-> [Hend1 Hc1]]].
      destruct (IH (U32.sub remaining chunkSize) f1 Hend1)
        as [r [f' [k [-> [Hend' Hc']]]]].
      exists r, f', (Z.to_nat chunkSize + k)%nat. repeat split; auto.
      rewrite Hc', Hc1, <- app_assoc. unfold Codec.zeros.
      now rewrite repeat_app.
    + exists remaining, f, 0%nat. cbn. rewrite app_nil_r. auto.
Qed.

Lemma oldest_is_the_largest archives :
  forall oldest0,
    let oldest :=
      fold_left (fun oldest archive =>
                   let age := U32.mul (SecondsPerPoint archive) (Points archive) in
                   if age >? oldest then age else oldest)
                archives oldest0 in
    oldest0 <= oldest
    /\ Forall (fun a => Retention a <= oldest) archives
    /\ (oldest = oldest0 \/ In oldest (map Retention archives)).
Proof.
  induction archives as [|a rest IH]; intros o; cbn [fold_left map].
  - cbv zeta. repeat split; [lia|constructor|now left].
  - cbv zeta in *. fold (Retention a).
    destruct (Retention a >? o) eqn:Hgt;
      [apply Z.gtb_lt in Hgt; destruct (IH (Retention a)) as [H1 [H2 H3]]
      |assert (Retention a <= o) by (rewrite Z.gtb_ltb in Hgt; apply Z.ltb_ge in Hgt; exact Hgt);
       destruct (IH o) as [H1 [H2 H3]]];
      (split; [lia|]); (split; [constructor; [lia|exact H2]|]).
    + destruct H3 as [H3|H3]; right; [left; now rewrite H3|right; exact H3].
    + destruct H3 as [H3|H3]; [left; exact H3|right; right; exact H3].
Qed.

Lemma assign_offsets_valid archives :
  forall p,
    U32.in_range p ->
    Forall (fun a => U32.in_range (SecondsPerPoint a) /\ U32.in_range (Points a))
           archives ->
    Forall valid_ArchiveInfo (assign_offsets p archives)
    /\ length (assign_offsets p archives) = length archives.
Proof.
  induction archives as [|a rest IH]; intros p Hp Hv; cbn [assign_offsets length].
  - split; [constructor|reflexivity].
  - inversion Hv as [|? ? Ha Hrest]. subst.
    cbv beta in Ha. destruct Ha as [Hs Hn].
    destruct (IH (U32.add p (U32.mul (Points a) pointSize)) (wrap_range _) Hrest)
      as [H1 H2].
    split; [|now rewrite H2].
    constructor; [|exact H1].
    unfold valid_ArchiveInfo. cbn [Offset SecondsPerPoint Points]. tauto.
Qed.

(** X21. What [Create] writes, [Open] reads: the aggregation method, the
    x-files-factor and the number of archives as given, the largest
    retention of the archives as the maximum retention, and the archives
    with the offsets assigned from sixteen on.  For a sparse file this
    needs the single zero byte to land behind the header. *)
Theorem Create_then_Open :
  forall (archives : list ArchiveInfo) (xFilesFactor : Float.float32)
         (aggregationMethod : Z) (sparse : bool),
    Forall (fun a => U32.in_range (SecondsPerPoint a) /\ U32.in_range (Points a))
           archives ->
    valid_float32 xFilesFactor ->
    U32.in_range aggregationMethod ->
    Z.of_nat (length archives) < U32.modulus ->
    (sparse = true ->
     16 + 12 * Z.of_nat (length archives) <= U32.wrap (archive_bytes archives - 1)) ->
    exists f metadata,
      Create archives xFilesFactor aggregationMethod sparse new_file = Ret (None, f)
      /\ Open f
         = Ret ((mkWhisper (mkHeader metadata (assign_offsets metadataSize archives)),
                 None), f)
      /\ AggregationMethod metadata = aggregationMethod
      /\ XFilesFactor metadata = xFilesFactor
      /\ ArchiveCount metadata = Z.of_nat (length archives)
      /\ Forall (fun a => Retention a <= MaxRetention metadata) archives
      /\ (MaxRetention metadata = 0
          \/ In (MaxRetention metadata) (map Retention archives)).
Proof.
  intros archives xff m sparse Hv Hx Hm Hn Hsparse.
  destruct (oldest_is_the_largest archives 0) as [Ho0 [Ho1 Ho2]].
  cbv zeta in Ho0, Ho1, Ho2.
  set (oldest := fold_left _ archives 0) in *.
  assert (Hlen : len32 archives = Z.of_nat (length archives)).
  { unfold len32. apply wrap_small. unfold U32.in_range. lia. }
  set (metadata := mkMetadata m oldest xff (Z.of_nat (length archives))).
  set (h := mkHeader metadata (assign_offsets metadataSize archives)).
  destruct (assign_offsets_valid archives metadataSize ltac:(by_evaluation) Hv)
    as [Hav Hal].
  assert (Hvh : valid_Header h).
  { unfold valid_Header, valid_Metadata, h, metadata.
    cbn [Header_Metadata Archives AggregationMethod MaxRetention XFilesFactor
         ArchiveCount].
    split; [split; [exact Hm|split; [|split; [exact Hx|]]]
           |split; [now rewrite Hal|exact Hav]].
    - destruct Ho2 as [->|Hin]; [by_evaluation|].
      apply in_map_iff in Hin as [a [<- _]]. apply wrap_range.
    - unfold U32.in_range. lia. }
  assert (Hopen : forall f post,
             contents f = encode_Header h ++ post ->
             Open f = Ret ((mkWhisper h, None), f)).
  { intros f post Hc. unfold Open, bind.
    rewrite (readHeader_reads h post f Hvh Hc). reflexivity. }
  unfold Create. fold oldest. rewrite Hlen. fold metadata.
  unfold bind at 1.
  destruct (file_Write_at_end (encode_Metadata metadata) new_file eq_refl)
    as [f0 [-> [Hend0 Hc0]]].
  cbv beta iota zeta.
  replace (U32.add metadataSize (U32.mul archiveSize (Z.of_nat (length archives))))
    with metadataSize by reflexivity.
  destruct (write_descriptors_appends archives metadataSize f0 Hend0)
    as [p [f1 [Hrun [_ [Hl1 Hp]]]]].
  destruct (write_descriptors_contents archives metadataSize f0 Hend0)
    as [p' [f1' [Hrun' [Hend1 Hc1]]]].
  rewrite Hrun in Hrun'. inversion Hrun'. subst p' f1'. clear Hrun'.
  unfold bind at 1. rewrite Hrun. cbv beta iota.
  assert (Hh : contents f1 = encode_Header h).
  { rewrite Hc1, Hc0. reflexivity. }
  destruct sparse.
  - specialize (Hsparse eq_refl).
    assert (Hs : U32.sub (U32.sub p metadataSize) 1
                 = U32.wrap (archive_bytes archives - 1)).
    { unfold U32.sub. unfold U32.wrap in *.
      rewrite Zminus_mod_idemp_l.
      replace (p - metadataSize - 1) with (p - 17) by (unfold metadataSize; lia).
      rewrite <- (Zminus_mod_idemp_l p 17), Hp, Zminus_mod_idemp_l.
      f_equal. unfold metadataSize. lia. }
    unfold bind, file_Seek, file_Write, ret. cbn [contents cursor].
    eexists. exists metadata. split; [reflexivity|].
    split; [|cbn; repeat split; assumption].
    eapply Hopen. cbn [contents]. rewrite Hs.
    assert (Hl : Z.of_nat (length (contents f1))
                 = 16 + 12 * Z.of_nat (length archives)).
    { rewrite Hl1, Hc0, length_app, encode_Metadata_length.
      change (contents new_file) with (@nil Codec.byte). cbn [length]. lia. }
    unfold pwrite.
    rewrite firstn_all2, skipn_all2 by lia.
    rewrite Hh. reflexivity.
  - destruct (write_chunks_contents
                (Z.to_nat (U32.sub p metadataSize)) (U32.sub p metadataSize) f1 Hend1)
      as [r [f2 [k [Hchunks [Hend2 Hc2]]]]].
    unfold bind at 1. rewrite Hchunks.
    destruct (file_Write_at_end (Codec.zeros (Z.to_nat r)) f2 Hend2)
      as [f3 [Hw [Hend3 Hc3]]].
    unfold bind. rewrite Hw. exists f3, metadata. split; [reflexivity|].
    split; [|cbn; repeat split; assumption].
    eapply Hopen. rewrite Hc3, Hc2, Hh, <- app_assoc. reflexivity.
Qed.

Lemma Create_then_Open_witness :
  exists f metadata,
    Create Scenario.schema Scenario.half AGGREGATION_SUM true new_file = Ret (None, f)
    /\ Open f
       = Ret ((mkWhisper (mkHeader metadata (assign_offsets metadataSize Scenario.schema)),
               None), f)
    /\ AggregationMethod metadata = AGGREGATION_SUM
    /\ XFilesFactor metadata = Scenario.half
    /\ ArchiveCount metadata = Z.of_nat (length Scenario.schema)
    /\ Forall (fun a => Retention a <= MaxRetention metadata) Scenario.schema
    /\ (MaxRetention metadata = 0
        \/ In (MaxRetention metadata) (map Retention Scenario.schema)).
Proof.
  apply (Create_then_Open Scenario.schema Scenario.half AGGREGATION_SUM true).
  - repeat constructor; by_evaluation.
  - reflexivity.
  - by_evaluation.
  - by_evaluation.
  - intros _. by_evaluation.
Defined.

(** A sparse file for one archive of two points: the zero byte lands on
    the low byte of the archive's resolution, and [Open] reads a
    resolution of zero. *)
Example Create_sparse_overwrites_the_descriptor :
  Scenario.result_of
    (Open (Scenario.file_of
             (Create [mkArchiveInfo 0 1 2] Scenario.half AGGREGATION_SUM true new_file)))
  = Ret (mkWhisper (mkHeader (mkMetadata AGGREGATION_SUM 2 Scenario.half 1)
                             [mkArchiveInfo 16 0 2]), None).
Proof. vm_compute. reflexivity. Qed.

(* ================================================================== *)
(** * When [Open] fails, and what [SetAggregationMethod] changes *)

Lemma io_ReadFull_outcome n f :
  exists bs e c,
    io_ReadFull n f = Ret ((bs, e), mkFile (contents f) c)
    /\ match e with
       | None =>
           length bs = n
           /\ (n <> 0%nat ->
               (Z.to_nat (cursor f) + n <= length (contents f))%nat
               /\ c = cursor f + Z.of_nat n)
       | Some x => x = EOF \/ x = ErrUnexpectedEOF
       end.
Proof.
  unfold io_ReadFull. cbv zeta. destruct n as [|n].
  - exists [], None, (cursor f). destruct f. cbn. split; [reflexivity|].
    split; [reflexivity|congruence].
  - pose proof (length_skipn (Z.to_nat (cursor f)) (contents f)) as Hl.
    destruct (skipn (Z.to_nat (cursor f)) (contents f)) as [|x xs] eqn:E.
    + exists [], (Some EOF), (cursor f). destruct f. cbn. auto.
    + destruct (length (x :: xs) <? S n)%nat eqn:Hlt.
      * eexists _, (Some ErrUnexpectedEOF), _. split; [reflexivity|auto].
      * apply Nat.ltb_ge in Hlt.
        eexists _, None, _. split; [reflexivity|].
        split; [apply firstn_length_le; exact Hlt|].
        intros _. split; [lia|reflexivity].
Qed.

Lemma read_descriptors_outcome count :
  forall i archives f r f',
    0 <= cursor f ->
    (Z.to_nat (cursor f) <= length (contents f))%nat ->
    read_descriptors count i archives f = Ret (r, f') ->
    contents f' = contents f
    /\ (snd r = None ->
        length (fst r) = length archives
        /\ (Z.to_nat (cursor f) + 12 * count <= length (contents f))%nat).
Proof.
  induction count as [|count IH]; intros i archives f r f' Hc Hin Hrun.
  - cbn in Hrun. inversion Hrun. subst. cbn. split; [reflexivity|].
    intros _. split; [reflexivity|lia].
  - cbn [read_descriptors] in Hrun.
    destruct (nth_error archives i); [|discriminate Hrun].
    unfold bind at 1 in Hrun.
    destruct (io_ReadFull_outcome 12 f) as [bs [[x|] [c [Hread Hr]]]];
      rewrite Hread in Hrun; cbv beta iota in Hrun.
    + inversion Hrun. subst. cbn. split; [reflexivity|discriminate].
    + destruct Hr as [_ Hr]. destruct (Hr ltac:(discriminate)) as [Hfit ->].
      apply IH in Hrun; cbn [contents cursor] in *; [|lia|lia].
      destruct Hrun as [Hcont Hok]. split; [exact Hcont|].
      intros Hnone. destruct (Hok Hnone) as [Hlen Hfit'].
      rewrite slice_set_length in Hlen. split; [exact Hlen|lia].
Qed.

(** X22. Once the file is open: on a file shorter than the sixteen
    bytes of the metadata [Open] returns the zero database with [io.EOF]
    when the file is empty and [io.ErrUnexpectedEOF] otherwise, before
    any slice of descriptors is allocated, and leaves the file as it
    found it; and whenever [Open] returns no error, the file holds the
    sixteen bytes of the metadata and twelve for each of the
    [ArchiveCount] archives the metadata announces, and the header has
    as many archives. *)
Theorem Open_needs_the_whole_header :
  forall f : File,
    ((length (contents f) < 16)%nat ->
     Open f
     = Ret ((mkWhisper (mkHeader zero_Metadata []),
             Some (match contents f with
                   | [] => EOF
                   | _ :: _ => ErrUnexpectedEOF
                   end)), f))
    /\ (forall db f',
           Open f = Ret ((db, None), f') ->
           f' = f
           /\ Z.of_nat (length (Archives (W_Header db)))
              = ArchiveCount (Header_Metadata (W_Header db))
           /\ 16 + 12 * ArchiveCount (Header_Metadata (W_Header db))
              <= Z.of_nat (length (contents f))).
Proof.
  intros f. split.
  - intros Hshort. unfold Open, readHeader.
    unfold bind at 1. unfold bind at 1, file_Seek at 1. cbv beta iota.
    unfold bind at 1. unfold io_ReadFull at 1. cbv zeta.
    cbn [contents cursor]. change (Z.to_nat 0) with 0%nat. cbn [skipn].
    destruct (contents f) as [|b bs] eqn:Hc.
    + unfold bind, ret, file_Seek. cbn [contents]. destruct f. cbn in *.
      now subst.
    + replace (length (b :: bs) <? 16)%nat with true
        by (symmetry; apply Nat.ltb_lt; exact Hshort).
      unfold bind, ret, file_Seek. cbn [contents]. destruct f. cbn in *.
      now subst.
  - intros db f' Hopen. unfold Open, readHeader in Hopen.
    unfold bind at 1 in Hopen. unfold bind at 1, file_Seek at 1 in Hopen.
    cbv beta iota in Hopen. unfold bind at 1 in Hopen.
    destruct (io_ReadFull_outcome 16 (mkFile (contents f) 0))
      as [bs [[x|] [c [Hread Hr]]]]; rewrite Hread in Hopen;
      cbv beta iota in Hopen; cbn [contents cursor] in *.
    + unfold bind, ret, file_Seek in Hopen. discriminate Hopen.
    + destruct Hr as [_ Hr]. destruct (Hr ltac:(discriminate)) as [Hfit ->].
      assert (Hcount : 0 <= ArchiveCount (decode_Metadata bs)).
      { unfold decode_Metadata. cbn [ArchiveCount]. clear.
        generalize (firstn 4 (skipn 12 bs)). intros l.
        unfold Codec.be_decode.
        assert (H : forall acc, 0 <= acc ->
                      0 <= fold_left (fun acc b => acc * 256 + Codec.Z_of_byte b) l acc).
        { induction l as [|b l IH]; intros acc Hacc; [exact Hacc|].
          cbn [fold_left]. apply IH.
          assert (0 <= Codec.Z_of_byte b).
          { unfold Codec.Z_of_byte. apply N2Z.is_nonneg. }
          lia. }
        apply H. lia. }
      cbv zeta in Hopen. unfold bind at 1 in Hopen. unfold bind at 1 in Hopen.
      destruct (read_descriptors _ 0 _ _) as [[[archives e] f1]|p] eqn:Hrun;
        [|discriminate Hopen].
      apply read_descriptors_outcome in Hrun; cbn [contents cursor] in *;
        [|lia|lia].
      destruct Hrun as [Hcont Hok]. cbn [fst snd] in Hok.
      destruct e as [x|]; cbv beta iota in Hopen.
      * unfold bind, ret, file_Seek in Hopen. discriminate Hopen.
      * destruct (Hok eq_refl) as [Hlen Hfit'].
        unfold bind, ret, file_Seek in Hopen. cbn [contents] in Hopen.
        inversion Hopen. subst db f'. rewrite Hcont. cbn [contents].
        cbn [W_Header Header_Metadata Archives].
        unfold make_ArchiveInfo in Hlen. rewrite repeat_length in Hlen.
        split; [now destruct f|]. split; [rewrite Hlen; lia|lia].
Qed.

Lemma Open_needs_the_whole_header_witness :
  Open (mkFile (Codec.zeros 8) 3)
  = Ret ((mkWhisper (mkHeader zero_Metadata []), Some ErrUnexpectedEOF),
         mkFile (Codec.zeros 8) 3)
  /\ Z.of_nat (length (Archives (W_Header Scenario.w)))
     = ArchiveCount (Header_Metadata (W_Header Scenario.w))
  /\ 16 + 12 * ArchiveCount (Header_Metadata (W_Header Scenario.w))
     <= Z.of_nat (length (contents Scenario.db)).
Proof.
  split.
  - apply (proj1 (Open_needs_the_whole_header (mkFile (Codec.zeros 8) 3))).
    cbn. lia.
  - refine (proj2 (proj2 (Open_needs_the_whole_header Scenario.db)
                     Scenario.w Scenario.db _)).
    vm_compute. reflexivity.
Defined.

(** X23. [SetAggregationMethod] takes any value as the method: on a
    database file it overwrites the sixteen bytes of the metadata and
    nothing behind them, and [Open] then reads the header of the handle
    with the new method in it. *)
Theorem SetAggregationMethod_rewrites_the_metadata :
  forall (h : Header) (post : list Codec.byte) (f : File) (aggregationMethod : Z),
    valid_Header h ->
    U32.in_range aggregationMethod ->
    contents f = encode_Header h ++ post ->
    exists f',
      SetAggregationMethod (mkWhisper h) aggregationMethod f = Ret (None, f')
      /\ skipn 16 (contents f') = skipn 16 (contents f)
      /\ Open f'
         = Ret ((mkWhisper
                   (mkHeader
                      (mkMetadata aggregationMethod
                                  (MaxRetention (Header_Metadata h))
                                  (XFilesFactor (Header_Metadata h))
                                  (ArchiveCount (Header_Metadata h)))
                      (Archives h)), None), f').
Proof.
  intros h post f m [[Ha [Hr [Hx Hn]]] [Hcount Hv]] Hm Hc.
  unfold SetAggregationMethod, bind, file_Seek, file_Write. cbn [contents cursor W_Header].
  eexists. split; [reflexivity|]. cbn [contents].
  set (metadata := mkMetadata m _ _ _).
  assert (Hskip : skipn 16 (contents f)
                  = concat (map encode_ArchiveInfo (Archives h)) ++ post).
  { rewrite Hc. unfold encode_Header. rewrite <- app_assoc.
    apply skipn_exact, encode_Metadata_length. }
  assert (Hnew : pwrite (contents f) (Z.to_nat 0) (encode_Metadata metadata)
                 = encode_Header (mkHeader metadata (Archives h)) ++ post).
  { unfold pwrite.
    destruct (encode_Metadata metadata) as [|b bs] eqn:E.
    - apply (f_equal (@length _)) in E. rewrite encode_Metadata_length in E.
      discriminate E.
    - rewrite <- E. change (Z.to_nat 0) with 0%nat.
      rewrite encode_Metadata_length. cbn [firstn Nat.sub Nat.add app Codec.zeros repeat].
      rewrite Hskip. unfold encode_Header. cbn [Header_Metadata Archives].
      now rewrite <- app_assoc. }
  rewrite Hnew. split.
  - unfold encode_Header. cbn [Header_Metadata Archives].
    rewrite <- app_assoc, (skipn_exact 16) by apply encode_Metadata_length.
    now rewrite Hskip.
  - unfold Open, bind.
    rewrite (readHeader_reads (mkHeader metadata (Archives h)) post); [reflexivity| |reflexivity].
    unfold valid_Header, valid_Metadata, metadata. cbn. tauto.
Qed.

Lemma SetAggregationMethod_rewrites_the_metadata_witness :
  exists f',
    SetAggregationMethod Scenario.w 9 Scenario.db = Ret (None, f')
    /\ skipn 16 (contents f') = skipn 16 (contents Scenario.db)
    /\ Open f'
       = Ret ((mkWhisper
                 (mkHeader
                    (mkMetadata 9
                                (MaxRetention (Header_Metadata (W_Header Scenario.w)))
                                (XFilesFactor (Header_Metadata (W_Header Scenario.w)))
                                (ArchiveCount (Header_Metadata (W_Header Scenario.w))))
                    (Archives (W_Header Scenario.w))), None), f').
Proof.
  apply (SetAggregationMethod_rewrites_the_metadata
           (W_Header Scenario.w) (skipn 40 (contents Scenario.db)) Scenario.db 9).
  - repeat split; try (repeat constructor; by_evaluation); by_evaluation.
  - by_evaluation.
  - vm_compute. reflexivity.
Defined.

(* ================================================================== *)
(** * Aggregation *)

Lemma fold_left_map {A B C} (f : A -> B -> A) (g : C -> B) (l : list C) :
  forall acc, fold_left f (map g l) acc = fold_left (fun a x => f a (g x)) l acc.
Proof. induction l as [|x l IH]; intros acc; [reflexivity|apply IH]. Qed.

Lemma fold_left_pick {A} (better : A -> A -> bool) (l : list A) :
  forall acc,
    let r := fold_left (fun acc x => if better acc x then x else acc) l acc in
    r = acc \/ In r l.
Proof.
  induction l as [|x l IH]; intros acc; cbn [fold_left]; [now left|].
  cbv zeta in *. destruct (better acc x).
  - destruct (IH x) as [->|H]; right; [now left|now right].
  - destruct (IH acc) as [H|H]; [now left|right; now right].
Qed.

(** X24. [aggregate] returns a point for the five methods and an error
    for any other; its point has timestamp zero, and for LAST, MAX and
    MIN its value is that of one of the points.  It panics on an index
    exactly when these three are given no points. *)
Theorem aggregate_outcomes :
  forall (aggregationMethod : Z) (points : list Point),
    match aggregate aggregationMethod points with
    | Ret (point, None) =>
        AGGREGATION_AVERAGE <= aggregationMethod <= AGGREGATION_MIN
        /\ Timestamp point = 0
        /\ (AGGREGATION_LAST <= aggregationMethod ->
            In (Value point) (map Value points))
    | Ret (point, Some e) =>
        (aggregationMethod < AGGREGATION_AVERAGE
         \/ AGGREGATION_MIN < aggregationMethod)
        /\ point = zero_Point
        /\ e = err_unknown_aggregation
    | Panic p =>
        p = IndexOutOfRange
        /\ points = []
        /\ AGGREGATION_LAST <= aggregationMethod <= AGGREGATION_MIN
    end.
Proof.
  intros m points. unfold aggregate.
  unfold AGGREGATION_AVERAGE, AGGREGATION_SUM, AGGREGATION_LAST,
    AGGREGATION_MAX, AGGREGATION_MIN.
  destruct (Z.eqb_spec m 1) as [->|H1]; [cbn; repeat split; lia|].
  destruct (Z.eqb_spec m 2) as [->|H2]; [cbn; repeat split; lia|].
  destruct (Z.eqb_spec m 3) as [->|H3].
  { destruct (rev points) as [|l ls] eqn:E.
    - repeat split; try lia.
      apply (f_equal (@rev Point)) in E. now rewrite rev_involutive in E.
    - cbn [Timestamp Value]. repeat split; try lia. intros _.
      apply in_map, in_rev. rewrite E. now left. }
  destruct (Z.eqb_spec m 4) as [->|H4].
  { destruct points as [|first rest]; [repeat split; lia|].
    cbn [Timestamp Value]. repeat split; try lia. intros _.
    pose proof (fold_left_pick (fun a b => Float.ltb a b) (map Value (first :: rest))
                  (Value first)) as H.
    cbv zeta in H. rewrite fold_left_map in H.
    destruct H as [H|H]; [rewrite H; now left|exact H]. }
  destruct (Z.eqb_spec m 5) as [->|H5].
  { destruct points as [|first rest]; [repeat split; lia|].
    cbn [Timestamp Value]. repeat split; try lia. intros _.
    pose proof (fold_left_pick (fun a b => Float.ltb b a) (map Value (first :: rest))
                  (Value first)) as H.
    cbv zeta in H. rewrite fold_left_map in H.
    destruct H as [H|H]; [rewrite H; now left|exact H]. }
  repeat split. lia.
Qed.

(** The order of Go's [<] on floats is transitive. *)
Lemma ltb_trans a b c :
  Float.ltb a b = true -> Float.ltb b c = true -> Float.ltb a c = true.
Proof.
  unfold Float.ltb, SFltb.
  destruct a as [sa|sa| |sa ma ea], b as [sb|sb| |sb mb eb], c as [sc|sc| |sc mc ec];
    try destruct sa; try destruct sb; try destruct sc;
    cbn; try discriminate; try reflexivity;
    destruct (Z.compare_spec ea eb), (Z.compare_spec eb ec), (Z.compare_spec ea ec);
    try lia; try discriminate; try reflexivity;
    subst;
    change (PosDef.Pos.compare_cont Eq ma mb) with (Pos.compare ma mb);
    change (PosDef.Pos.compare_cont Eq mb mc) with (Pos.compare mb mc);
    change (PosDef.Pos.compare_cont Eq ma mc) with (Pos.compare ma mc);
    destruct (Pos.compare_spec ma mb), (Pos.compare_spec mb mc),
      (Pos.compare_spec ma mc);
    cbn; try lia; try discriminate; try reflexivity.
Qed.

Lemma ltb_irrefl a : Float.ltb a a = false.
Proof.
  unfold Float.ltb, SFltb.
  destruct a as [sa|sa| |sa ma ea]; try destruct sa; cbn; try reflexivity;
    rewrite Z.compare_refl;
    change (PosDef.Pos.compare_cont Eq ma ma) with (Pos.compare ma ma);
    rewrite Pos.compare_refl; reflexivity.
Qed.

Lemma fold_left_extreme (lt : spec_float -> spec_float -> bool) :
  (forall a b c, lt a b = true -> lt b c = true -> lt a c = true) ->
  (forall a, lt a a = false) ->
  forall (l : list spec_float) acc seen,
    Forall (fun x => lt acc x = false) seen ->
    let r := fold_left (fun acc x => if lt acc x then x else acc) l acc in
    Forall (fun x => lt r x = false) (seen ++ l).
Proof.
  intros Htrans Hirrefl. induction l as [|x l IH]; intros acc seen Hseen;
    cbn [fold_left].
  - cbv zeta. now rewrite app_nil_r.
  - cbv zeta in *. replace (seen ++ x :: l) with ((seen ++ [x]) ++ l)
      by (rewrite <- app_assoc; reflexivity).
    destruct (lt acc x) eqn:Hlt.
    + apply IH. apply Forall_app. split.
      * eapply Forall_impl; [|exact Hseen]. cbv beta. intros y Hy.
        destruct (lt x y) eqn:Hxy; [|reflexivity].
        rewrite (Htrans acc x y Hlt Hxy) in Hy. discriminate Hy.
      * constructor; [apply Hirrefl|constructor].
    + apply IH. apply Forall_app. split; [exact Hseen|].
      constructor; [exact Hlt|constructor].
Qed.

(** X25. The value MAX returns is one that no point exceeds, and the
    value MIN returns one that no point is below, in the order of Go's
    [<] on [float64]; without points both panic. *)
Theorem aggregate_extremes :
  forall points : list Point,
    match aggregate AGGREGATION_MAX points with
    | Ret (point, _) =>
        Forall (fun p => Float.ltb (Value point) (Value p) = false) points
    | Panic _ => points = []
    end
    /\ match aggregate AGGREGATION_MIN points with
       | Ret (point, _) =>
           Forall (fun p => Float.ltb (Value p) (Value point) = false) points
       | Panic _ => points = []
       end.
Proof.
  intros points. unfold aggregate.
  change (AGGREGATION_MAX =? AGGREGATION_AVERAGE) with false.
  change (AGGREGATION_MAX =? AGGREGATION_SUM) with false.
  change (AGGREGATION_MAX =? AGGREGATION_LAST) with false.
  change (AGGREGATION_MAX =? AGGREGATION_MAX) with true.
  change (AGGREGATION_MIN =? AGGREGATION_AVERAGE) with false.
  change (AGGREGATION_MIN =? AGGREGATION_SUM) with false.
  change (AGGREGATION_MIN =? AGGREGATION_LAST) with false.
  change (AGGREGATION_MIN =? AGGREGATION_MAX) with false.
  change (AGGREGATION_MIN =? AGGREGATION_MIN) with true.
  cbv iota.
  destruct points as [|first rest]; [split; reflexivity|].
  cbn [Value]. split.
  - pose proof (fold_left_extreme Float.ltb ltb_trans ltb_irrefl
                  (map Value (first :: rest)) (Value first) [] (Forall_nil _)) as H.
    cbv zeta in H. rewrite fold_left_map in H. cbn [app] in H.
    rewrite Forall_map in H. exact H.
  - pose proof (fold_left_extreme (fun a b => Float.ltb b a)
                  (fun a b c Hab Hbc => ltb_trans c b a Hbc Hab) ltb_irrefl
                  (map Value (first :: rest)) (Value first) [] (Forall_nil _)) as H.
    cbv zeta in H. rewrite fold_left_map in H. cbn [app] in H.
    rewrite Forall_map in H. exact H.
Qed.

(* ================================================================== *)
(** * A bucket of [UpdateMany], as [archiveUpdateMany] writes it *)

Lemma quantizeArchive_returns points resolution :
  0 < resolution ->
  Forall (fun p => U32.in_range (Timestamp p)) points ->
  quantizeArchive points resolution
  = Ret (map (fun p => mkPoint (resolution * (Timestamp p / resolution)) (Value p))
             points).
Proof.
  intros Hres Hall. induction Hall as [|p ps Hp _ IH]; [reflexivity|].
  unfold U32.in_range in Hp. cbv beta in Hp.
  pose proof (Z.mod_pos_bound (Timestamp p) resolution Hres) as Hm.
  pose proof (Z.div_mod (Timestamp p) resolution ltac:(lia)) as Hdm.
  pose proof (Z.mod_le (Timestamp p) resolution ltac:(lia) Hres) as Hle.
  cbn [quantizeArchive map]. unfold u32_rem.
  replace (resolution =? 0) with false by (symmetry; apply Z.eqb_neq; lia).
  cbn [go_bind]. rewrite IH. cbn [go_bind].
  unfold U32.sub. rewrite wrap_small by (unfold U32.in_range; lia).
  do 3 f_equal. lia.
Qed.

Lemma reverseArchive_Less_key x y :
  reverseArchive_Less x y = (- Timestamp x <? - Timestamp y).
Proof.
  unfold reverseArchive_Less, Archive_Less.
  destruct (Z.ltb_spec (Timestamp y) (Timestamp x)),
    (Z.ltb_spec (- Timestamp x) (- Timestamp y)); try reflexivity; lia.
Qed.

Lemma quantized_descending step points :
  0 < step ->
  Sorted (fun x y => - Timestamp x <= - Timestamp y) points ->
  Forall (fun p => step <= Timestamp p /\ Timestamp p + step < U32.modulus) points ->
  descending step
    (map (fun p => mkPoint (step * (Timestamp p / step)) (Value p)) points).
Proof.
  intros Hstep Hsorted. induction Hsorted as [|p rest Hs IH Hhd]; intros Hall;
    [exact I|].
  inversion Hall as [|? ? Hp Hrest]. subst. cbv beta in Hp. destruct Hp as [Hlo Hhi].
  cbn [map descending Timestamp].
  assert (H1 : 1 <= Timestamp p / step).
  { apply Z.div_le_lower_bound; lia. }
  pose proof (Z.mul_div_le (Timestamp p) step Hstep) as H2.
  split; [nia|]. split; [lia|]. split; [|now apply IH].
  destruct Hhd as [|q rest' Hq]; cbn [map Timestamp]; [exact I|].
  apply Z.mul_le_mono_nonneg_l; [lia|].
  apply Z.div_le_mono; lia.
Qed.

(** X26. A bucket of [UpdateMany] is sorted newest first, then
    quantized, then cut into runs of rising contiguous timestamps: so
    every run is a single point, and [writePoints] never gets more than
    one point from [UpdateMany]. *)
Theorem bucket_is_written_point_by_point :
  forall (step : Z) (points : list Point),
    0 < step ->
    Forall (fun p => step <= Timestamp p /\ Timestamp p + step < U32.modulus)
           points ->
    exists quantized,
      quantizeArchive (sort_Sort reverseArchive_Less points) step = Ret quantized
      /\ Forall (fun a => exists p, stamped_points a = [p]) (series step quantized).
Proof.
  intros step points Hstep Hall.
  pose proof (sort_Sort_perm reverseArchive_Less points) as Hperm.
  pose proof (sort_Sort_sorted (fun p => - Timestamp p) reverseArchive_Less
                reverseArchive_Less_key points) as Hsorted.
  cbv beta in Hsorted.
  assert (Hall' : Forall (fun p => step <= Timestamp p
                                   /\ Timestamp p + step < U32.modulus)
                         (sort_Sort reverseArchive_Less points)).
  { eapply Permutation_Forall; eassumption. }
  eexists. split.
  - apply quantizeArchive_returns; [exact Hstep|].
    eapply Forall_impl; [|exact Hall']. cbv beta. unfold U32.in_range. lia.
  - pose proof (series_descending step _ Hstep
                  (quantized_descending step _ Hstep Hsorted Hall')) as Hruns.
    apply Forall_forall. intros a Ha.
    apply (in_map stamped_points) in Ha. rewrite Hruns in Ha.
    apply in_map_iff in Ha as [p [Hp _]]. exists p. now symmetry.
Qed.

Lemma bucket_is_written_point_by_point_witness :
  exists quantized,
    quantizeArchive (sort_Sort reverseArchive_Less [aged; fresh; aged]) 60
    = Ret quantized
    /\ Forall (fun a => exists p, stamped_points a = [p]) (series 60 quantized).
Proof.
  apply (bucket_is_written_point_by_point 60 [aged; fresh; aged]).
  - lia.
  - repeat constructor; by_evaluation.
Defined.

(* ================================================================== *)
(** * The archives [Update] propagates to *)

Lemma Update_select_none archives :
  forall diff lowerArchives,
    Forall (fun b => Retention b < diff) archives ->
    Update_select archives diff lowerArchives = lowerArchives.
Proof.
  induction archives as [|b rest IH]; intros diff lowerArchives H; [reflexivity|].
  inversion H as [|? ? Hb Hrest]. subst. cbn [Update_select].
  replace (Retention b <? diff) with true by (symmetry; apply Z.ltb_lt; exact Hb).
  now apply IH.
Qed.

(** X27. The selection loop of [Update] has no [break]: the archives it
    leaves for the propagation are those behind the last archive whose
    retention covers the age of the point, not behind the first. *)
Theorem Update_select_keeps_the_last_covering :
  forall (before : list ArchiveInfo) (a : ArchiveInfo) (after : list ArchiveInfo)
         (diff : Z) (lowerArchives : list ArchiveInfo),
    diff <= Retention a ->
    Forall (fun b => Retention b < diff) after ->
    Update_select (before ++ a :: after) diff lowerArchives = after.
Proof.
  induction before as [|b rest IH]; intros a after diff lowerArchives Ha Hafter.
  - cbn [app Update_select].
    replace (Retention a <? diff) with false by (symmetry; apply Z.ltb_ge; exact Ha).
    now apply Update_select_none.
  - cbn [app Update_select]. destruct (Retention b <? diff); now apply IH.
Qed.

Lemma Update_select_keeps_the_last_covering_witness :
  Update_select ([Scenario.fine; Scenario.coarse] ++ Scenario.coarse :: [Scenario.fine])
                700 []
  = [Scenario.fine].
Proof.
  apply (Update_select_keeps_the_last_covering
           [Scenario.fine; Scenario.coarse] Scenario.coarse [Scenario.fine] 700 []).
  - by_evaluation.
  - repeat constructor.
Defined.
